(** * aufs: file operations for special files (fs/aufs/f_op_sp.c)

    A shallow embedding of the special-file layer of aufs: the open, read,
    write and release entry points installed on named pipes, the copy-up
    helper [au_cpup_sp], the lazily built operation tables [au_sp_fop] and
    the two mode switches [au_init_special_fop] and [au_special_file].

    The C code threads three kinds of state: the objects owned by the rest
    of aufs and by the VFS (dentry, file, handles), the file-local static
    table [au_sp_fop], and the calls it makes into code that lives in other
    files.  The embedding keeps them apart: a [world] record for the first,
    a list of slots for the second, and a chronological list of [event]s for
    the third.  Functions of other files are methods of the class
    [Collaborators]. *)

From Stdlib Require Import ZArith List Lia Bool.
From stdpp Require Import gmap list.
Import ListNotations.

Local Open Scope Z_scope.

(** ** Constants of the kernel headers *)

(** errno value returned (negated) when no writable branch exists. *)
Definition EROFS : Z := 30.

(** Access-mode bits of [file->f_mode]. *)
Definition FMODE_READ : Z := 1.
Definition FMODE_WRITE : Z := 2.

(** File-type bits of a [umode_t] (octal 0170000 and friends). *)
Definition S_IFMT : Z := 61440.
Definition S_IFSOCK : Z := 49152.
Definition S_IFBLK : Z := 24576.
Definition S_IFCHR : Z := 8192.
Definition S_IFIFO : Z := 4096.

(** ** Data model *)

(** [aufs_bindex_t] is a signed integer type; branch indices stay far from
    its bounds, so no wrap-around is written out. *)
Abbreviation aufs_bindex_t := Z (only parsing).

(** A branch, as far as this file looks at it: [br_perm] is read by the
    read and write paths; [br_id] stands for the rest of the structure (its
    mount), which only [au_br_rdonly] inspects. *)
Record au_branch := { br_id : Z; br_perm : Z }.

(** [au_sbi(sb)->si_branch]: the ordered branch stack, index 0 first. *)
Abbreviation super_block := (list au_branch) (only parsing).

(** Addresses of functions stored in operation tables: the four entry
    points of this file and the entry points of the branch filesystems. *)
Inductive fptr :=
| addr_aufs_open_sp
| addr_aufs_aio_read_sp
| addr_aufs_aio_write_sp
| addr_aufs_release_sp
| addr_native (id : nat).

(** [struct file_operations], with the four members this file names and the
    remaining members kept in declaration order in [fo_others].  [None] is
    the NULL pointer. *)
Record file_operations := {
  fo_open : option fptr;
  fo_aio_read : option fptr;
  fo_aio_write : option fptr;
  fo_release : option fptr;
  fo_others : list (option fptr)
}.

(** A branch-resident [struct file]: its own [f_op] (which may be NULL) and
    the [i_fop] of the inode it is opened on
    ([h_file->f_dentry->d_inode->i_fop]). *)
Record h_file := {
  h_f_op : option file_operations;
  h_i_fop : file_operations
}.

(** Value of [file->f_op] after [au_init_fop_sp]: the address of the [fop]
    member of one slot of [au_sp_fop], or some other table. *)
Inductive fop_addr :=
| addr_au_sp_fop (i : nat)
| addr_other_fop (id : nat).

(** Everything outside this file that its functions read or that the
    functions they call may change: the dentry being opened, its parent and
    the aufs [struct file]. *)
Record world := {
  d_bstart : aufs_bindex_t;          (* au_dbstart(dentry) *)
  d_hdentry : gmap Z Z;              (* au_h_dptr(dentry, b), absent = NULL *)
  dp_hdentry : gmap Z Z;             (* au_h_dptr(parent, b), absent = NULL *)
  f_mode : Z;                        (* file->f_mode *)
  f_flags : Z;                       (* file->f_flags *)
  f_op : option fop_addr;            (* file->f_op *)
  fi_bstart : aufs_bindex_t;         (* au_fbstart(file) *)
  fi_hfile : gmap Z h_file           (* au_h_fptr(file, b), absent = NULL *)
}.

Definition set_f_op (a : fop_addr) (w : world) : world :=
  {| d_bstart := d_bstart w; d_hdentry := d_hdentry w;
     dp_hdentry := dp_hdentry w; f_mode := f_mode w; f_flags := f_flags w;
     f_op := Some a; fi_bstart := fi_bstart w; fi_hfile := fi_hfile w |}.

(** [struct au_sp_fop]: one slot of the static table. *)
Record au_sp_fop := {
  sp_done : bool;                    (* volatile int done *)
  sp_fop : file_operations;          (* struct file_operations fop *)
  sp_spin : bool                     (* spinlock_t spin: initialised? *)
}.

(** [enum {AuSp_FIFO, AuSp_FIFO_R, AuSp_FIFO_W, AuSp_FIFO_RW, AuSp_Last}] *)
Definition AuSp_FIFO : nat := 0.
Definition AuSp_FIFO_R : nat := 1.
Definition AuSp_FIFO_W : nat := 2.
Definition AuSp_FIFO_RW : nat := 3.
Definition AuSp_Last : nat := 4.

Definition fop_zero : file_operations :=
  {| fo_open := None; fo_aio_read := None; fo_aio_write := None;
     fo_release := None; fo_others := [] |}.

Definition sp_zero : au_sp_fop :=
  {| sp_done := false; sp_fop := fop_zero; sp_spin := false |}.

(** The static initialiser of the table: only [AuSp_FIFO] has a member set,
    [.open = aufs_open_sp]. *)
Definition au_sp_fop_static : list au_sp_fop :=
  [ {| sp_done := false;
       sp_fop := {| fo_open := Some addr_aufs_open_sp; fo_aio_read := None;
                    fo_aio_write := None; fo_release := None;
                    fo_others := [] |};
       sp_spin := false |};
    sp_zero; sp_zero; sp_zero ].

(** The argument block of an asynchronous read or write, handed to the
    branch's entry point as it came in. *)
Record kio_args := { kio_iov : list (Z * Z); kio_nv : Z; kio_pos : Z }.

(** The inode and [struct file] handed to a branch entry point: those of
    aufs ([inode] and [file], or [kio->ki_filp]), or those of a branch (the
    handle [au_h_fptr(file, bindex)] and its inode). *)
Inductive passed :=
| Aufs_file
| Branch_file (bindex : Z).

(** What a branch entry point is called with: whose inode and file, and
    for an asynchronous read or write the rest of the argument block. *)
Inductive h_args :=
| Args_open (f : passed)
| Args_release (f : passed)
| Args_aio (f : passed) (a : kio_args).

(** ** Calls into the rest of aufs and the kernel *)

Inductive lock_op :=
| si_read_lock | si_read_unlock | si_noflush_read_lock
| fi_read_lock | fi_read_unlock | fi_write_lock | fi_write_unlock
| di_read_unlock | di_write_lock_child | di_downgrade_lock
| di_read_lock_child | di_write_lock_parent | di_write_unlock
| spin_lock_static | spin_unlock_static
| spin_lock_slot (i : nat) | spin_unlock_slot (i : nat).

(** The calls made, in order.  [Call_h fn a] is a call through a pointer
    taken from a branch's operation table; [Call_file_accessed b] and
    [Call_file_update_time b] act on the handle fetched from slot [b];
    [Fop_copy i] marks the assignments to [au_sp_fop[i].fop]. *)
Inductive event :=
| Lock (l : lock_op)
| Call_dget_parent
| Call_dput
| Call_au_cpup_dirs (bcpup : Z)
| Call_au_pin (bcpup : Z)
| Call_au_sio_cpup_simple (bcpup : Z)
| Call_au_unpin
| Call_au_do_open_nondir
| Call_au_finfo_fin
| Call_aufs_release_nondir
| Call_h (fn : fptr) (a : h_args)
| Call_file_accessed (b : Z)
| Call_file_update_time (b : Z)
| Spin_lock_init (i : nat)
| Fop_copy (i : nat).

Global Instance lock_op_eq_dec : EqDecision lock_op.
Proof. solve_decision. Defined.
Global Instance fptr_eq_dec : EqDecision fptr.
Proof. solve_decision. Defined.
Global Instance passed_eq_dec : EqDecision passed.
Proof. solve_decision. Defined.
Global Instance kio_args_eq_dec : EqDecision kio_args.
Proof. solve_decision. Defined.
Global Instance h_args_eq_dec : EqDecision h_args.
Proof. solve_decision. Defined.
Global Instance event_eq_dec : EqDecision event.
Proof. solve_decision. Defined.

(** The functions this file calls but does not define.  Each one is a
    transformer of the [world]; those returning [int] give the error code
    first.  [di_relock] is what other tasks did to the dentry between
    [di_read_unlock] and the following [di_write_lock_child]; the effects of
    other tasks while the locks are dropped around the native open are part
    of [h_call]. *)
Class Collaborators := {
  au_br_rdonly : au_branch -> bool;
  au_br_writable : Z -> bool;
  au_cpup_dirs : Z -> world -> Z * world;
  au_pin : Z -> world -> Z * world;
  au_sio_cpup_simple : Z -> world -> Z * world;
  au_unpin : world -> world;
  au_do_open_nondir : world -> Z * world;
  au_finfo_fin : world -> world;
  aufs_release_nondir : world -> Z * world;
  h_call : fptr -> h_args -> world -> Z * world;
  file_accessed : Z -> world -> world;
  file_update_time : Z -> world -> world;
  di_relock : world -> world
}.

(** ** The monad of the embedding *)

Inductive crash :=
| BUG                (* BUG() *)
| NULL_deref         (* a NULL pointer is dereferenced or called *)
| Out_of_bounds      (* si_branch[] indexed outside the stack *)
| Out_of_fuel.       (* the loop bound of the model was too small *)

Inductive result (A : Type) :=
| Ret (a : A)
| Crash (c : crash).
Arguments Ret {A} a.
Arguments Crash {A} c.

Record kstate := {
  ks_world : world;
  ks_sp_fop : list au_sp_fop          (* the static array au_sp_fop[] *)
}.

Definition M (A : Type) : Type := kstate -> result A * kstate * list event.

Definition ret {A} (a : A) : M A := fun s => (Ret a, s, []).

Definition bind {A B} (m : M A) (f : A -> M B) : M B :=
  fun s =>
    match m s with
    | (Ret a, s1, t1) =>
        match f a s1 with
        | (r, s2, t2) => (r, s2, t1 ++ t2)
        end
    | (Crash c, s1, t1) => (Crash c, s1, t1)
    end.

Notation "x <- m ;; k" := (bind m (fun x => k))
  (at level 100, m at next level, right associativity).
Notation "m ;;; k" := (bind m (fun _ => k))
  (at level 100, right associativity).

Definition oops {A} (c : crash) : M A := fun s => (Crash c, s, []).

Definition tick (e : event) : M unit := fun s => (Ret tt, s, [e]).

Definition gets {A} (f : world -> A) : M A :=
  fun s => (Ret (f (ks_world s)), s, []).

Definition on_world (f : world -> world) (s : kstate) : kstate :=
  {| ks_world := f (ks_world s); ks_sp_fop := ks_sp_fop s |}.

(** A call of an [int] function of another file. *)
Definition call (e : event) (f : world -> Z * world) : M Z :=
  fun s => (Ret (fst (f (ks_world s))), on_world (fun w => snd (f w)) s, [e]).

(** A call of a [void] function of another file. *)
Definition call_void (e : event) (f : world -> world) : M unit :=
  fun s => (Ret tt, on_world f s, [e]).

(** A pointer that must not be NULL where it is used. *)
Definition deref {A} (p : option A) : M A :=
  match p with
  | Some a => ret a
  | None => oops NULL_deref
  end.

Definition ret_of {A} (x : result A * kstate * list event) : result A :=
  fst (fst x).
Definition state_of {A} (x : result A * kstate * list event) : kstate :=
  snd (fst x).
Definition world_of {A} (x : result A * kstate * list event) : world :=
  ks_world (snd (fst x)).
Definition trace_of {A} (x : result A * kstate * list event) : list event :=
  snd x.

Section Code.
Context `{X : Collaborators}.

(** [au_sbr(sb, bindex)]: the branch at an index of the stack. *)
Definition au_sbr (sb : super_block) (bindex : aufs_bindex_t) : M au_branch :=
  if bindex <? 0 then oops Out_of_bounds
  else match sb !! Z.to_nat bindex with
       | Some br => ret br
       | None => oops Out_of_bounds
       end.

(** [au_h_fptr(file, bindex)] *)
Definition au_h_fptr (bindex : aufs_bindex_t) : M (option h_file) :=
  gets (fun w => fi_hfile w !! bindex).

(** *** aufs_aio_read_sp, aufs_aio_write_sp *)

(** [AuDebugOn(!h_file->f_op || !h_file->f_op->aio_read)] and the call that
    follows it fault on the same pointers: a NULL handle, a NULL table or a
    NULL entry ends the run in [NULL_deref], with or without the debug
    option. *)

Definition aufs_aio_read_sp (sb : super_block) (kio : kio_args) : M Z :=
  tick (Lock si_read_lock) ;;;
  tick (Lock fi_read_lock) ;;;
  bstart <- gets fi_bstart ;;
  h <- au_h_fptr bstart ;;
  tick (Lock fi_read_unlock) ;;;
  br <- au_sbr sb bstart ;;
  let wbr := au_br_writable (br_perm br) in
  tick (Lock si_read_unlock) ;;;
  hf <- deref h ;;
  fop <- deref (h_f_op hf) ;;
  fn <- deref (fo_aio_read fop) ;;
  err <- call (Call_h fn (Args_aio Aufs_file kio))
              (h_call fn (Args_aio Aufs_file kio)) ;;
  (if (0 <? err) && wbr
   then call_void (Call_file_accessed bstart) (file_accessed bstart)
   else ret tt) ;;;
  ret err.

Definition aufs_aio_write_sp (sb : super_block) (kio : kio_args) : M Z :=
  tick (Lock si_read_lock) ;;;
  tick (Lock fi_read_lock) ;;;
  bstart <- gets fi_bstart ;;
  h <- au_h_fptr bstart ;;
  tick (Lock fi_read_unlock) ;;;
  br <- au_sbr sb bstart ;;
  let wbr := au_br_writable (br_perm br) in
  tick (Lock si_read_unlock) ;;;
  hf <- deref h ;;
  fop <- deref (h_f_op hf) ;;
  fn <- deref (fo_aio_write fop) ;;
  err <- call (Call_h fn (Args_aio Aufs_file kio))
              (h_call fn (Args_aio Aufs_file kio)) ;;
  (if (0 <? err) && wbr
   then call_void (Call_file_update_time bstart) (file_update_time bstart)
   else ret tt) ;;;
  ret err.

(** *** aufs_release_sp *)

Definition aufs_release_sp : M Z :=
  tick (Lock fi_read_lock) ;;;
  bstart <- gets fi_bstart ;;
  h <- au_h_fptr bstart ;;
  tick (Lock fi_read_unlock) ;;;
  hf <- deref h ;;
  fop <- deref (h_f_op hf) ;;
  fn <- deref (fo_release fop) ;;
  err <- call (Call_h fn (Args_release Aufs_file))
              (h_call fn (Args_release Aufs_file)) ;;
  call Call_aufs_release_nondir aufs_release_nondir ;;;
  ret err.

(** *** au_init_fop_sp *)

Definition get_slot (i : nat) : M au_sp_fop :=
  fun s => match ks_sp_fop s !! i with
           | Some p => (Ret p, s, [])
           | None => (Crash Out_of_bounds, s, [])
           end.

Definition set_slot (i : nat) (p : au_sp_fop) : M unit :=
  fun s => (Ret tt,
            {| ks_world := ks_world s; ks_sp_fop := <[i:=p]> (ks_sp_fop s) |},
            []).

Definition set_done (p : au_sp_fop) : au_sp_fop :=
  {| sp_done := true; sp_fop := sp_fop p; sp_spin := sp_spin p |}.

Definition set_spin (p : au_sp_fop) : au_sp_fop :=
  {| sp_done := sp_done p; sp_fop := sp_fop p; sp_spin := true |}.

(** [for (i = 0; i < AuSp_Last; i++) spin_lock_init(&p[i].spin);] over the
    indices given. *)
Fixpoint spin_lock_init_all (l : list nat) : M unit :=
  match l with
  | [] => ret tt
  | i :: l' =>
      p <- get_slot i ;;
      set_slot i (set_spin p) ;;;
      tick (Spin_lock_init i) ;;;
      spin_lock_init_all l'
  end.

(** The block under the function-static lock: initialise the spinlocks of
    all slots, once. *)
Definition au_init_fop_sp_first_locked : M unit :=
  tick (Lock spin_lock_static) ;;;
  p <- get_slot AuSp_FIFO ;;
  (if negb (sp_done p) then
     spin_lock_init_all (seq 0 AuSp_Last) ;;;
     p <- get_slot AuSp_FIFO ;;
     set_slot AuSp_FIFO (set_done p)
   else ret tt) ;;;
  tick (Lock spin_unlock_static).

(** The first block of [au_init_fop_sp]: the unguarded test of the flag of
    [au_sp_fop[0]], then the locked block. *)
Definition au_init_fop_sp_first : M unit :=
  p <- get_slot AuSp_FIFO ;;
  if negb (sp_done p) then au_init_fop_sp_first_locked else ret tt.

(** [switch (file->f_mode & (FMODE_READ | FMODE_WRITE))]: the slot of an
    access mode, [None] in the [default: BUG()] case. *)
Definition au_sp_index (mode : Z) : option nat :=
  let m := Z.land mode (Z.lor FMODE_READ FMODE_WRITE) in
  if m =? FMODE_READ then Some AuSp_FIFO_R
  else if m =? FMODE_WRITE then Some AuSp_FIFO_W
  else if m =? Z.lor FMODE_READ FMODE_WRITE then Some AuSp_FIFO_RW
  else None.

(** What the locked block stores in [p->fop]: the branch's table, with
    [aio_read] and [aio_write] redirected when the branch has them and
    [release] redirected always. *)
Definition au_sp_fop_of (h : file_operations) : file_operations :=
  {| fo_open := fo_open h;
     fo_aio_read := match fo_aio_read h with
                    | Some _ => Some addr_aufs_aio_read_sp
                    | None => None
                    end;
     fo_aio_write := match fo_aio_write h with
                     | Some _ => Some addr_aufs_aio_write_sp
                     | None => None
                     end;
     fo_release := Some addr_aufs_release_sp;
     fo_others := fo_others h |}.

(** The block under [p->spin], for slot [i] and the handle fetched before
    the lock was taken. *)
Definition au_init_fop_sp_locked (i : nat) (h : option h_file) : M unit :=
  tick (Lock (spin_lock_slot i)) ;;;
  p <- get_slot i ;;
  (if negb (sp_done p) then
     hf <- deref h ;;
     fop <- deref (h_f_op hf) ;;
     set_slot i {| sp_done := true; sp_fop := au_sp_fop_of fop;
                   sp_spin := sp_spin p |} ;;;
     tick (Fop_copy i)
   else ret tt) ;;;
  tick (Lock (spin_unlock_slot i)).

Definition au_init_fop_sp : M unit :=
  au_init_fop_sp_first ;;;
  mode <- gets f_mode ;;
  match au_sp_index mode with
  | None => oops BUG
  | Some i =>
      p <- get_slot i ;;
      (if negb (sp_done p) then
         bstart <- gets fi_bstart ;;
         h <- au_h_fptr bstart ;;
         au_init_fop_sp_locked i h
       else ret tt) ;;;
      (* file->f_op = &p->fop *)
      fun s => (Ret tt, on_world (set_f_op (addr_au_sp_fop i)) s, [])
  end.

(** *** au_cpup_sp *)

Definition au_cpup_sp (bcpup : aufs_bindex_t) : M Z :=
  tick Call_dget_parent ;;;
  tick (Lock di_write_lock_parent) ;;;
  hp <- gets (fun w => dp_hdentry w !! bcpup) ;;
  err <- match hp with
         | None => call (Call_au_cpup_dirs bcpup) (au_cpup_dirs bcpup)
         | Some _ => ret 0
         end ;;
  err <- (if negb (err =? 0) then ret err
          else
            err <- call (Call_au_pin bcpup) (au_pin bcpup) ;;
            if err =? 0 then
              err <- call (Call_au_sio_cpup_simple bcpup)
                          (au_sio_cpup_simple bcpup) ;;
              call_void Call_au_unpin au_unpin ;;;
              ret err
            else ret err) ;;
  tick (Lock di_write_unlock) ;;;
  tick Call_dput ;;;
  ret err.

(** *** au_do_open_sp *)

(** The loop [for (bindex = 0; bindex < bend; bindex++)] with its [break]:
    the value of [bcpup] after the loop, started at [bindex] with
    [bcpup == -1]. *)
Fixpoint scan_bcpup (fuel : nat) (sb : super_block)
    (bindex bend : aufs_bindex_t) : M aufs_bindex_t :=
  if bindex <? bend then
    match fuel with
    | O => oops Out_of_fuel
    | S n =>
        br <- au_sbr sb bindex ;;
        if negb (au_br_rdonly br) then ret bindex
        else scan_bcpup n sb (bindex + 1) bend
    end
  else ret (-1).

(** The block under the comment "copyup first": the value of [err] when
    control reaches [if (unlikely(err)) goto out]. *)
Definition au_do_open_sp_cpup (sb : super_block) : M Z :=
  bend <- gets d_bstart ;;
  br <- au_sbr sb bend ;;
  if au_br_rdonly br then
    bcpup <- scan_bcpup (Z.to_nat bend) sb 0 bend ;;
    if 0 <=? bcpup then
      tick (Lock di_read_unlock) ;;;
      call_void (Lock di_write_lock_child) di_relock ;;;
      cur <- gets d_bstart ;;
      err <- (if bcpup <? cur then au_cpup_sp bcpup else ret 0) ;;
      tick (Lock di_downgrade_lock) ;;;
      ret err
    else ret (- EROFS)
  else ret 0.

(** From the comment "prepare h_file" to the end of the function. *)
Definition au_do_open_sp_native : M Z :=
  err <- call Call_au_do_open_nondir au_do_open_nondir ;;
  if negb (err =? 0) then ret err
  else
    bstart <- gets fi_bstart ;;
    h <- au_h_fptr bstart ;;
    hf <- deref h ;;
    tick (Lock di_read_unlock) ;;;
    tick (Lock fi_write_unlock) ;;;
    tick (Lock si_read_unlock) ;;;
    fn <- deref (fo_open (h_i_fop hf)) ;;
    err <- call (Call_h fn (Args_open Aufs_file))
                (h_call fn (Args_open Aufs_file)) ;;
    tick (Lock si_noflush_read_lock) ;;;
    tick (Lock fi_write_lock) ;;;
    tick (Lock di_read_lock_child) ;;;
    if err =? 0 then
      au_init_fop_sp ;;;
      ret err
    else
      call_void Call_au_finfo_fin au_finfo_fin ;;;
      ret err.

Definition au_do_open_sp (sb : super_block) : M Z :=
  err <- au_do_open_sp_cpup sb ;;
  if negb (err =? 0) then ret err
  else au_do_open_sp_native.

(** The branches [lo <= j < hi] of the stack are all read-only. *)
Definition all_rdonly (sb : super_block) (lo hi : Z) : Prop :=
  forall j br, lo <= j < hi -> sb !! Z.to_nat j = Some br ->
    au_br_rdonly br = true.

(** [b] is the first branch above [bend] that is not read-only. *)
Definition first_writable (sb : super_block) (bend b : Z) : Prop :=
  0 <= b < bend /\
  (exists br, sb !! Z.to_nat b = Some br /\ au_br_rdonly br = false) /\
  all_rdonly sb 0 b.

(** The dentry's start branch is a branch of the stack and is read-only. *)
Definition start_rdonly (sb : super_block) (w : world) : Prop :=
  0 <= d_bstart w /\
  exists br, sb !! Z.to_nat (d_bstart w) = Some br /\ au_br_rdonly br = true.

(** The state in which [au_cpup_sp] calls [au_pin], and the calls made
    before: none when the parent is in the target branch, the ancestor
    copy-up (which succeeded) when it is not. *)
Definition before_pin (b : Z) (w w0 : world) (t0 : list event) : Prop :=
  (is_Some (dp_hdentry w !! b) /\ w0 = w /\ t0 = []) \/
  (dp_hdentry w !! b = None /\ fst (au_cpup_dirs b w) = 0 /\
   w0 = snd (au_cpup_dirs b w) /\ t0 = [Call_au_cpup_dirs b]).

(** The three ways through [au_cpup_sp], between taking and dropping the
    parent's lock: the value returned, the world left, the calls made. *)
Inductive cpup_path (b : Z) (w : world) : Z -> world -> list event -> Prop :=
| cpup_dirs_failed :
    dp_hdentry w !! b = None ->
    fst (au_cpup_dirs b w) <> 0 ->
    cpup_path b w (fst (au_cpup_dirs b w)) (snd (au_cpup_dirs b w))
      [Call_au_cpup_dirs b]
| cpup_pin_failed w0 t0 :
    before_pin b w w0 t0 ->
    fst (au_pin b w0) <> 0 ->
    cpup_path b w (fst (au_pin b w0)) (snd (au_pin b w0))
      (t0 ++ [Call_au_pin b])
| cpup_simple_called w0 t0 :
    before_pin b w w0 t0 ->
    fst (au_pin b w0) = 0 ->
    cpup_path b w
      (fst (au_sio_cpup_simple b (snd (au_pin b w0))))
      (au_unpin (snd (au_sio_cpup_simple b (snd (au_pin b w0)))))
      (t0 ++ [Call_au_pin b; Call_au_sio_cpup_simple b; Call_au_unpin]).

(** Some step of the copy-up to [b] fails with [e] in world [w]. *)
Definition cpup_step_fails (b : Z) (w : world) (e : Z) : Prop :=
  e <> 0 /\ exists w' t, cpup_path b w e w' t.

End Code.

(** *** au_init_special_fop, au_special_file *)

(** The inode members the mode switches read or write. *)
Record inode := { i_fop : option fop_addr }.

(** [au_init_special_fop], after the call of [init_special_inode] has
    produced [ino]: the inode it leaves, and whether [AuDebugOn(1)] was
    reached. *)
Definition au_init_special_fop (ino : inode) (mode : Z) : inode * bool :=
  let t := Z.land mode S_IFMT in
  if t =? S_IFIFO then ({| i_fop := Some (addr_au_sp_fop AuSp_FIFO) |}, false)
  else if (t =? S_IFCHR) || (t =? S_IFBLK) || (t =? S_IFSOCK) then (ino, false)
  else (ino, true).

Definition au_special_file (mode : Z) : Z :=
  if Z.land mode S_IFMT =? S_IFIFO then 1 else 0.

(** ** A reference environment *)

(** The answers of the environment in the reference model: the error code
    each collaborator returns (0 for success), and the value each branch
    entry point returns. *)
Record oracle := {
  o_cpup_dirs : Z;
  o_pin : Z;
  o_cpup_simple : Z;
  o_open_nondir : Z;
  o_h : fptr -> h_args -> Z
}.

Definition with_dentry (bstart : Z) (hd hp : gmap Z Z) (w : world) : world :=
  {| d_bstart := bstart; d_hdentry := hd; dp_hdentry := hp;
     f_mode := f_mode w; f_flags := f_flags w; f_op := f_op w;
     fi_bstart := fi_bstart w; fi_hfile := fi_hfile w |}.

Definition with_finfo (bstart : Z) (hf : gmap Z h_file) (w : world) : world :=
  {| d_bstart := d_bstart w; d_hdentry := d_hdentry w;
     dp_hdentry := dp_hdentry w; f_mode := f_mode w; f_flags := f_flags w;
     f_op := f_op w; fi_bstart := bstart; fi_hfile := hf |}.

(** The operation tables of a pipe in the branch filesystem. *)
Definition pipe_rdwr_fops : file_operations :=
  {| fo_open := Some (addr_native 0); fo_aio_read := Some (addr_native 1);
     fo_aio_write := Some (addr_native 2); fo_release := Some (addr_native 3);
     fo_others := [Some (addr_native 4)] |}.

Definition pipe_write_fops : file_operations :=
  {| fo_open := Some (addr_native 5); fo_aio_read := None;
     fo_aio_write := Some (addr_native 2); fo_release := Some (addr_native 6);
     fo_others := [Some (addr_native 4)] |}.

Definition pipe_h_file : h_file :=
  {| h_f_op := Some pipe_rdwr_fops; h_i_fop := pipe_rdwr_fops |}.

(** Modelled from the spec: the collaborators of sections 4.1, 4.2 and 6,
    none of which is defined in f_op_sp.c.  A branch is writable when its
    permission is positive and read-only otherwise.  The directory-only
    copy-up gives the parent an entry in the target branch; the simple
    copy-up creates the entry in the target branch and moves the start
    branch there; the generic open stores a handle in the slot of the start
    branch; the teardowns detach the handles.  Each step fails, changing
    nothing, when the oracle says so. *)
Definition model (o : oracle) : Collaborators := {|
  au_br_rdonly := fun br => negb (0 <? br_perm br);
  au_br_writable := fun perm => 0 <? perm;
  au_cpup_dirs := fun b w =>
    if o_cpup_dirs o =? 0
    then (0, with_dentry (d_bstart w) (d_hdentry w) (<[b:=1]> (dp_hdentry w)) w)
    else (o_cpup_dirs o, w);
  au_pin := fun b w => (o_pin o, w);
  au_sio_cpup_simple := fun b w =>
    if o_cpup_simple o =? 0
    then (0, with_dentry b (<[b:=1]> (d_hdentry w)) (dp_hdentry w) w)
    else (o_cpup_simple o, w);
  au_unpin := fun w => w;
  au_do_open_nondir := fun w =>
    if o_open_nondir o =? 0
    then (0, with_finfo (d_bstart w) {[ d_bstart w := pipe_h_file ]} w)
    else (o_open_nondir o, w);
  au_finfo_fin := fun w => with_finfo (fi_bstart w) ∅ w;
  aufs_release_nondir := fun w => (0, with_finfo (fi_bstart w) ∅ w);
  h_call := fun fn a w => (o_h o fn a, w);
  file_accessed := fun b w => w;
  file_update_time := fun b w => w;
  di_relock := fun w => w
|}.

Definition all_ok : oracle :=
  {| o_cpup_dirs := 0; o_pin := 0; o_cpup_simple := 0; o_open_nondir := 0;
     o_h := fun _ _ => 0 |}.

(** The scenario of the specification: a writable branch on top of a
    read-only one that holds the pipe; the parent directory exists in
    both. *)
Definition rw_ro : super_block :=
  [ {| br_id := 0; br_perm := 1 |}; {| br_id := 1; br_perm := 0 |} ].

Definition ro_ro : super_block :=
  [ {| br_id := 0; br_perm := 0 |}; {| br_id := 1; br_perm := 0 |} ].

Definition fifo_in_lower (mode : Z) : kstate :=
  {| ks_world := {| d_bstart := 1; d_hdentry := {[ 1 := 7 ]};
                    dp_hdentry := {[ 0 := 8; 1 := 9 ]};
                    f_mode := mode; f_flags := 0; f_op := None;
                    fi_bstart := -1; fi_hfile := ∅ |};
     ks_sp_fop := au_sp_fop_static |}.

Definition opened_at (b : Z) (h : h_file) : kstate :=
  {| ks_world := {| d_bstart := b; d_hdentry := {[ b := 7 ]};
                    dp_hdentry := {[ b := 8 ]};
                    f_mode := 3; f_flags := 0;
                    f_op := Some (addr_au_sp_fop AuSp_FIFO_RW);
                    fi_bstart := b; fi_hfile := {[ b := h ]} |};
     ks_sp_fop := au_sp_fop_static |}.

(** Modelled from the spec: what sections 4.1 and 4.2 promise of the
    collaborators that are not defined in f_op_sp.c.  The ancestor copy-up,
    the pin and its release leave the start branches alone; the simple
    copy-up moves the dentry's start branch to the target when it succeeds
    and leaves it alone when it fails (no partial branch-index update); the
    generic open, when it succeeds, opens the dentry's start branch and
    stores the handle in that slot of the file; the native open does not
    touch the branch bookkeeping of aufs. *)
Record spec_contract `{X : Collaborators} : Prop := {
  cpup_dirs_keeps : forall b w,
    d_bstart (snd (au_cpup_dirs b w)) = d_bstart w /\
    fi_bstart (snd (au_cpup_dirs b w)) = fi_bstart w;
  pin_keeps : forall b w,
    d_bstart (snd (au_pin b w)) = d_bstart w /\
    fi_bstart (snd (au_pin b w)) = fi_bstart w;
  unpin_keeps : forall w,
    d_bstart (au_unpin w) = d_bstart w /\
    fi_bstart (au_unpin w) = fi_bstart w;
  cpup_simple_moves : forall b w,
    fst (au_sio_cpup_simple b w) = 0 ->
    d_bstart (snd (au_sio_cpup_simple b w)) = b;
  cpup_simple_keeps : forall b w,
    fst (au_sio_cpup_simple b w) <> 0 ->
    d_bstart (snd (au_sio_cpup_simple b w)) = d_bstart w;
  cpup_simple_file : forall b w,
    fi_bstart (snd (au_sio_cpup_simple b w)) = fi_bstart w;
  open_nondir_opens : forall w,
    fst (au_do_open_nondir w) = 0 ->
    d_bstart (snd (au_do_open_nondir w)) = d_bstart w /\
    fi_bstart (snd (au_do_open_nondir w)) = d_bstart w /\
    is_Some (fi_hfile (snd (au_do_open_nondir w)) !! d_bstart w);
  h_open_keeps : forall fn w,
    d_bstart (snd (h_call fn (Args_open Aufs_file) w)) = d_bstart w /\
    fi_bstart (snd (h_call fn (Args_open Aufs_file) w)) = fi_bstart w
}.
Arguments spec_contract X : clear implicits.

(** No other task changes the dentry's start branch while this one has
    dropped the dentry lock. *)
Definition quiet_relock `{X : Collaborators} : Prop :=
  forall w, d_bstart (di_relock w) = d_bstart w /\
            fi_bstart (di_relock w) = fi_bstart w.
Arguments quiet_relock X : clear implicits.

(** [x] with the events [t] in front of its trace. *)
Definition pre {A} (t : list event) (x : result A * kstate * list event)
  : result A * kstate * list event :=
  (ret_of x, state_of x, t ++ trace_of x).

(** ** Predicates, runs and inputs used in the statements *)

(** What a computation may do: [R] relates the world before and after, [T]
    the table before and after, [E] holds of every event and [C] of the
    crash, if there is one. *)
Definition respects {A} (R : relation world) (T : relation (list au_sp_fop))
    (E : event -> Prop) (C : crash -> Prop) (m : M A) : Prop :=
  forall s,
    R (ks_world s) (world_of (m s)) /\
    T (ks_sp_fop s) (ks_sp_fop (state_of (m s))) /\
    Forall E (trace_of (m s)) /\
    (forall c, ret_of (m s) = Crash c -> C c).

(** The members of the world other than [file->f_op]. *)
Definition but_f_op (w : world) :=
  (d_bstart w, d_hdentry w, dp_hdentry w, f_mode w, f_flags w, fi_bstart w,
   fi_hfile w).

Definition same_but_f_op : relation world :=
  fun w w' => but_f_op w' = but_f_op w.

(** A slot whose flag is set keeps its flag and its table. *)
Definition done_frozen : relation (list au_sp_fop) :=
  fun tbl tbl' =>
    length tbl' = length tbl /\
    forall j p, tbl !! j = Some p -> sp_done p = true ->
      exists p', tbl' !! j = Some p' /\ sp_done p' = true /\
                 sp_fop p' = sp_fop p.

(** The events of [au_init_fop_sp]. *)
Definition init_event (e : event) : Prop :=
  match e with
  | Lock spin_lock_static | Lock spin_unlock_static
  | Lock (spin_lock_slot _) | Lock (spin_unlock_slot _)
  | Spin_lock_init _ | Fop_copy _ => True
  | _ => False
  end.

(** The events of the first block of [au_init_fop_sp]. *)
Definition first_event (e : event) : Prop :=
  match e with
  | Lock spin_lock_static | Lock spin_unlock_static | Spin_lock_init _ => True
  | _ => False
  end.

Definition not_BUG (c : crash) : Prop := c <> BUG.

Abbreviation init_respects :=
  (respects eq done_frozen init_event not_BUG).
Abbreviation first_respects :=
  (respects eq done_frozen first_event not_BUG).

(** The target of a call of one of the three copy-up steps. *)
Definition cpup_call (e : event) : option Z :=
  match e with
  | Call_au_cpup_dirs b | Call_au_pin b | Call_au_sio_cpup_simple b => Some b
  | _ => None
  end.

(** The events of [au_do_open_sp_native]: everything but the calls of
    [au_cpup_sp]. *)
Definition native_event (e : event) : Prop :=
  match e with
  | Call_au_cpup_dirs _ | Call_au_pin _ | Call_au_sio_cpup_simple _
  | Call_au_unpin | Call_dget_parent | Call_dput => False
  | _ => True
  end.

Definition any_world : relation world := fun _ _ => True.
Definition any_table : relation (list au_sp_fop) := fun _ _ => True.

(** The C test [mode & flag]. *)
Definition has_flag (mode flag : Z) : bool := negb (Z.land mode flag =? 0).

(** [au_init_fop_sp] for one file after the other, each file given by its
    world: the table left and the events. *)
Fixpoint run_inits (ws : list world) (tbl : list au_sp_fop)
  : list au_sp_fop * list event :=
  match ws with
  | [] => (tbl, [])
  | w :: ws' =>
      let r := au_init_fop_sp {| ks_world := w; ks_sp_fop := tbl |} in
      let r' := run_inits ws' (ks_sp_fop (state_of r)) in
      (fst r', trace_of r ++ snd r')
  end.

Definition slot_done (tbl : list au_sp_fop) (i : nat) : Prop :=
  exists p, tbl !! i = Some p /\ sp_done p = true.

(** ** Concurrent callers of au_init_fop_sp *)

(** Where a task stands in [au_init_fop_sp]: at the unguarded test of
    [au_sp_fop[0].done]; waiting for the function-static lock; at the
    unguarded test of its own slot's flag; waiting for that slot's
    spinlock; about to store [file->f_op]; past the function. *)
Inductive pc :=
| At_first_check | At_first_lock | At_check | At_lock | At_store | At_end.

(** A task: the file it opens (with its dentry, in a [world] of its own)
    and where it stands. *)
Record task := { t_world : world; t_pc : pc }.

(** The tasks and the table they share. *)
Record sys := { sys_tbl : list au_sp_fop; sys_tasks : list task }.

Definition task_state (t : task) (tbl : list au_sp_fop) : kstate :=
  {| ks_world := t_world t; ks_sp_fop := tbl |}.

Definition at_pc (c : pc) (t : task) : task :=
  {| t_world := t_world t; t_pc := c |}.

Definition put_task (k : nat) (t : task) (tbl : list au_sp_fop) (σ : sys)
  : sys :=
  {| sys_tbl := tbl; sys_tasks := <[k:=t]> (sys_tasks σ) |}.

(** One step of one task.  The unguarded tests read one flag; a block under
    a spinlock runs as a whole, since no other task is in a block under the
    same lock meanwhile. *)
Inductive step (σ : sys) : list event -> sys -> Prop :=
| step_first_check k t p :
    sys_tasks σ !! k = Some t -> t_pc t = At_first_check ->
    sys_tbl σ !! AuSp_FIFO = Some p ->
    step σ []
      (put_task k (at_pc (if sp_done p then At_check else At_first_lock) t)
         (sys_tbl σ) σ)
| step_first_locked k t s' tr :
    sys_tasks σ !! k = Some t -> t_pc t = At_first_lock ->
    au_init_fop_sp_first_locked (task_state t (sys_tbl σ))
      = (Ret tt, s', tr) ->
    step σ tr (put_task k (at_pc At_check t) (ks_sp_fop s') σ)
| step_check k t i p :
    sys_tasks σ !! k = Some t -> t_pc t = At_check ->
    au_sp_index (f_mode (t_world t)) = Some i ->
    sys_tbl σ !! i = Some p ->
    step σ []
      (put_task k (at_pc (if sp_done p then At_store else At_lock) t)
         (sys_tbl σ) σ)
| step_locked k t i s' tr :
    sys_tasks σ !! k = Some t -> t_pc t = At_lock ->
    au_sp_index (f_mode (t_world t)) = Some i ->
    au_init_fop_sp_locked i
      (fi_hfile (t_world t) !! fi_bstart (t_world t))
      (task_state t (sys_tbl σ)) = (Ret tt, s', tr) ->
    step σ tr (put_task k (at_pc At_store t) (ks_sp_fop s') σ)
| step_store k t i :
    sys_tasks σ !! k = Some t -> t_pc t = At_store ->
    au_sp_index (f_mode (t_world t)) = Some i ->
    step σ []
      (put_task k
         {| t_world := set_f_op (addr_au_sp_fop i) (t_world t);
            t_pc := At_end |}
         (sys_tbl σ) σ).

(** Any interleaving of the tasks' steps, with the events in order. *)
Inductive steps : sys -> list event -> sys -> Prop :=
| steps_refl σ : steps σ [] σ
| steps_step σ tr σ' tr' σ'' :
    step σ tr σ' -> steps σ' tr' σ'' -> steps σ (tr ++ tr') σ''.

(** A task past the test of its slot's flag has found, or has set, the
    flag; a task past the function holds the address of its slot. *)
Definition task_ok (tbl : list au_sp_fop) (t : task) : Prop :=
  forall i, au_sp_index (f_mode (t_world t)) = Some i ->
    (t_pc t = At_store \/ t_pc t = At_end -> slot_done tbl i) /\
    (t_pc t = At_end -> f_op (t_world t) = Some (addr_au_sp_fop i)).

Definition sys_ok (σ : sys) : Prop :=
  forall k t, sys_tasks σ !! k = Some t -> task_ok (sys_tbl σ) t.

(** A pipe opened for writing only, in branch 0. *)
Definition pipe_w_file : h_file :=
  {| h_f_op := Some pipe_write_fops; h_i_fop := pipe_write_fops |}.

Definition write_only_open : kstate :=
  {| ks_world := {| d_bstart := 0; d_hdentry := {[ 0 := 7 ]};
                    dp_hdentry := {[ 0 := 8 ]};
                    f_mode := FMODE_WRITE; f_flags := 1; f_op := None;
                    fi_bstart := 0; fi_hfile := {[ 0 := pipe_w_file ]} |};
     ks_sp_fop := au_sp_fop_static |}.

(** The operations [init_special_inode] gives a character device. *)
Definition def_chr_inode : inode := {| i_fop := Some (addr_other_fop 0) |}.

(** An oracle whose native entry points all return 5. *)
Definition io_5 : oracle :=
  {| o_cpup_dirs := 0; o_pin := 0; o_cpup_simple := 0; o_open_nondir := 0;
     o_h := fun _ _ => 5 |}.

(** One segment of five bytes at offset 0. *)
Definition kio_0 : kio_args :=
  {| kio_iov := [(0, 5)]; kio_nv := 1; kio_pos := 0 |}.

(** An oracle whose pin fails with -EACCES. *)
Definition pin_denied : oracle :=
  {| o_cpup_dirs := 0; o_pin := -13; o_cpup_simple := 0; o_open_nondir := 0;
     o_h := fun _ _ => 0 |}.

(** ** Invariants of the table, lock discipline and further inputs *)

(** The events of the copy-up block of [au_do_open_sp]. *)
Definition cpup_event (e : event) : Prop :=
  match e with
  | Lock di_read_unlock | Lock di_write_lock_child | Lock di_downgrade_lock
  | Lock di_write_lock_parent | Lock di_write_unlock
  | Call_dget_parent | Call_dput
  | Call_au_cpup_dirs _ | Call_au_pin _ | Call_au_sio_cpup_simple _
  | Call_au_unpin => True
  | _ => False
  end.

(** The events around the native open: the generic open, the three locks
    dropped, the branch's [open], the three locks taken again. *)
Definition opening (fn : fptr) : list event :=
  [Call_au_do_open_nondir; Lock di_read_unlock; Lock fi_write_unlock;
   Lock si_read_unlock; Call_h fn (Args_open Aufs_file);
   Lock si_noflush_read_lock; Lock fi_write_lock; Lock di_read_lock_child].

(** [m] keeps the relation [T] between the table before and after. *)
Abbreviation keeps_table T m :=
  (respects any_world T (fun _ => True) (fun _ => True) m).

(** Slot [AuSp_FIFO] holds the same operation table. *)
Definition fifo_kept : relation (list au_sp_fop) :=
  fun tbl tbl' =>
    forall p, tbl !! AuSp_FIFO = Some p ->
      exists p', tbl' !! AuSp_FIFO = Some p' /\ sp_fop p' = sp_fop p.

(** An operation table through which a read, a write or a release can only
    reach the entry points of this file. *)
Definition delegating (f : file_operations) : Prop :=
  fo_release f = Some addr_aufs_release_sp /\
  (fo_aio_read f = None \/ fo_aio_read f = Some addr_aufs_aio_read_sp) /\
  (fo_aio_write f = None \/ fo_aio_write f = Some addr_aufs_aio_write_sp).

(** Every slot of an access mode whose flag is set holds such a table. *)
Definition slots_delegate (tbl : list au_sp_fop) : Prop :=
  forall i p, i <> AuSp_FIFO -> tbl !! i = Some p -> sp_done p = true ->
    delegating (sp_fop p).

Definition keeps_delegate : relation (list au_sp_fop) :=
  fun tbl tbl' => slots_delegate tbl -> slots_delegate tbl'.

(** The spinlocks of the slots are initialised once the flag of
    [au_sp_fop[0]] is set. *)
Definition spin_ready (tbl : list au_sp_fop) : Prop :=
  slot_done tbl AuSp_FIFO ->
  forall i, (i < AuSp_Last)%nat ->
    exists p, tbl !! i = Some p /\ sp_spin p = true.

(** A task past the first block of [au_init_fop_sp]. *)
Definition past_first (c : pc) : bool :=
  match c with
  | At_first_check | At_first_lock => false
  | _ => true
  end.

(** No task is past the first block unless the flag of [au_sp_fop[0]] is
    set. *)
Definition first_done (σ : sys) : Prop :=
  forall k t, sys_tasks σ !! k = Some t -> past_first (t_pc t) = true ->
    slot_done (sys_tbl σ) AuSp_FIFO.

(** A third, writable branch under the two of [rw_ro]. *)
Definition rw_ro_rw : list au_branch :=
  rw_ro ++ [ {| br_id := 2; br_perm := 1 |} ].

(** One task at the top of [au_init_fop_sp], opening a pipe for writing
    on the table as the static initialiser leaves it. *)
Definition one_writer : sys :=
  {| sys_tbl := au_sp_fop_static;
     sys_tasks := [ {| t_world := ks_world write_only_open;
                       t_pc := At_first_check |} ] |}.

(** A second file opened for writing, after [write_only_open], that has no
    handle in any branch. *)
Definition second_writer : kstate :=
  {| ks_world := with_finfo (-1) ∅ (ks_world write_only_open);
     ks_sp_fop := ks_sp_fop (state_of (au_init_fop_sp write_only_open)) |}.

(** ** The locks a task holds *)

(** How a task holds a lock that has readers and writers. *)
Inductive rw_held := Not_held | Held_read | Held_write.

Global Instance rw_held_eq_dec : EqDecision rw_held.
Proof. solve_decision. Defined.

(** What a task holds while it runs the functions of this file: the locks
    of the superblock ([si_*]), of the file ([fi_*]), of the dentry
    ([di_read_unlock], [di_write_lock_child], [di_downgrade_lock],
    [di_read_lock_child]) and of its parent ([di_write_lock_parent], and
    [di_write_unlock], which this file calls on the parent only); the
    reference [dget_parent] gives and [dput] takes; the function-static
    spinlock of [au_init_fop_sp]; and the spinlock of a slot. *)
Record held := {
  on_si : rw_held;
  on_fi : rw_held;
  on_di : rw_held;
  on_parent : rw_held;
  parent_ref : bool;
  on_static : bool;
  on_slot : option nat
}.

Definition nothing_held : held :=
  {| on_si := Not_held; on_fi := Not_held; on_di := Not_held;
     on_parent := Not_held; parent_ref := false; on_static := false;
     on_slot := None |}.

(** What [au_do_open_sp] is entered with, as its first unlock of each lock
    shows: the superblock read-locked, the file write-locked, the dentry
    read-locked. *)
Definition open_entry : held :=
  {| on_si := Held_read; on_fi := Held_write; on_di := Held_read;
     on_parent := Not_held; parent_ref := false; on_static := false;
     on_slot := None |}.

(** Taking a lock that is not held; dropping one that is held that way. *)
Definition lock_take (want cur : rw_held) : option rw_held :=
  match cur with Not_held => Some want | _ => None end.

Definition lock_drop (how cur : rw_held) : option rw_held :=
  if decide (cur = how) then Some Not_held else None.

Definition set_si (h : held) (x : rw_held) : held :=
  {| on_si := x; on_fi := on_fi h; on_di := on_di h;
     on_parent := on_parent h; parent_ref := parent_ref h;
     on_static := on_static h; on_slot := on_slot h |}.
Definition set_fi (h : held) (x : rw_held) : held :=
  {| on_si := on_si h; on_fi := x; on_di := on_di h;
     on_parent := on_parent h; parent_ref := parent_ref h;
     on_static := on_static h; on_slot := on_slot h |}.
Definition set_di (h : held) (x : rw_held) : held :=
  {| on_si := on_si h; on_fi := on_fi h; on_di := x;
     on_parent := on_parent h; parent_ref := parent_ref h;
     on_static := on_static h; on_slot := on_slot h |}.
Definition set_parent (h : held) (x : rw_held) : held :=
  {| on_si := on_si h; on_fi := on_fi h; on_di := on_di h;
     on_parent := x; parent_ref := parent_ref h;
     on_static := on_static h; on_slot := on_slot h |}.
Definition set_ref (h : held) (x : bool) : held :=
  {| on_si := on_si h; on_fi := on_fi h; on_di := on_di h;
     on_parent := on_parent h; parent_ref := x;
     on_static := on_static h; on_slot := on_slot h |}.
Definition set_static (h : held) (x : bool) : held :=
  {| on_si := on_si h; on_fi := on_fi h; on_di := on_di h;
     on_parent := on_parent h; parent_ref := parent_ref h;
     on_static := x; on_slot := on_slot h |}.
Definition set_slot_lock (h : held) (x : option nat) : held :=
  {| on_si := on_si h; on_fi := on_fi h; on_di := on_di h;
     on_parent := on_parent h; parent_ref := parent_ref h;
     on_static := on_static h; on_slot := x |}.

(** One lock operation: [None] when it takes a lock the task holds or
    drops one it does not hold in that way. *)
Definition lock_step (h : held) (l : lock_op) : option held :=
  match l with
  | si_read_lock | si_noflush_read_lock =>
      set_si h <$> lock_take Held_read (on_si h)
  | si_read_unlock => set_si h <$> lock_drop Held_read (on_si h)
  | fi_read_lock => set_fi h <$> lock_take Held_read (on_fi h)
  | fi_read_unlock => set_fi h <$> lock_drop Held_read (on_fi h)
  | fi_write_lock => set_fi h <$> lock_take Held_write (on_fi h)
  | fi_write_unlock => set_fi h <$> lock_drop Held_write (on_fi h)
  | di_read_lock_child => set_di h <$> lock_take Held_read (on_di h)
  | di_read_unlock => set_di h <$> lock_drop Held_read (on_di h)
  | di_write_lock_child => set_di h <$> lock_take Held_write (on_di h)
  | di_downgrade_lock =>
      if decide (on_di h = Held_write) then Some (set_di h Held_read)
      else None
  | di_write_lock_parent => set_parent h <$> lock_take Held_write (on_parent h)
  | di_write_unlock => set_parent h <$> lock_drop Held_write (on_parent h)
  | spin_lock_static =>
      if on_static h then None else Some (set_static h true)
  | spin_unlock_static =>
      if on_static h then Some (set_static h false) else None
  | spin_lock_slot i =>
      match on_slot h with
      | None => Some (set_slot_lock h (Some i))
      | Some _ => None
      end
  | spin_unlock_slot i =>
      match on_slot h with
      | Some j => if (j =? i)%nat then Some (set_slot_lock h None) else None
      | None => None
      end
  end.

(** What is held where this file makes a call.  A branch entry point, a
    timestamp refresh and [aufs_release_nondir] are entered with none of
    the three aufs locks; the copy-up steps with the dentry and its parent
    write-locked and the parent referenced; the generic open and its undo
    with the locks [au_do_open_sp] was entered with; a spinlock is
    initialised under the function-static lock and a slot written under its
    own. *)
Definition called_under (h : held) (e : event) : bool :=
  match e with
  | Call_h _ _ | Call_file_accessed _ | Call_file_update_time _
  | Call_aufs_release_nondir =>
      bool_decide (on_si h = Not_held) && bool_decide (on_fi h = Not_held)
      && bool_decide (on_di h = Not_held)
  | Call_au_cpup_dirs _ | Call_au_pin _ | Call_au_sio_cpup_simple _
  | Call_au_unpin =>
      bool_decide (on_di h = Held_write)
      && bool_decide (on_parent h = Held_write) && parent_ref h
  | Call_au_do_open_nondir | Call_au_finfo_fin =>
      bool_decide (on_si h = Held_read) && bool_decide (on_fi h = Held_write)
      && bool_decide (on_di h = Held_read)
  | Spin_lock_init _ => on_static h
  | Fop_copy i =>
      match on_slot h with Some j => (j =? i)%nat | None => false end
  | _ => true
  end.

Definition held_step (h : held) (e : event) : option held :=
  match e with
  | Lock l => lock_step h l
  | Call_dget_parent => if parent_ref h then None else Some (set_ref h true)
  | Call_dput => if parent_ref h then Some (set_ref h false) else None
  | _ => if called_under h e then Some h else None
  end.

(** What is held after a trace, [None] if some event of the trace breaks
    the discipline. *)
Fixpoint run_held (h : held) (t : list event) : option held :=
  match t with
  | [] => Some h
  | e :: t' =>
      match held_step h e with
      | Some h' => run_held h' t'
      | None => None
      end
  end.

(** Entered holding [h], [m] keeps the discipline, and when it returns [a]
    it holds [h'] with [Q a h']. *)
Definition follows {A} (h : held) (m : M A) (Q : A -> held -> Prop) : Prop :=
  forall s, exists h',
    run_held h (trace_of (m s)) = Some h' /\
    forall a, ret_of (m s) = Ret a -> Q a h'.

(** [m] keeps the discipline and returns holding what it was entered
    with. *)
Abbreviation balanced h m := (follows h m (fun _ h' => h' = h)).

(** ** Laws of the monad *)

Section Laws.

Lemma bind_ret_l {A B} (a : A) (f : A -> M B) s : bind (ret a) f s = f a s.
Proof. unfold bind, ret. destruct (f a s) as [[r s'] t]. reflexivity. Qed.

Lemma bind_oops {A B} c (f : A -> M B) s :
  bind (oops c) f s = (Crash c, s, []).
Proof. reflexivity. Qed.

Lemma bind_tick {B} e (f : unit -> M B) s :
  bind (tick e) f s = pre [e] (f tt s).
Proof.
  unfold bind, tick, pre. destruct (f tt s) as [[r s'] t]. reflexivity.
Qed.

Lemma bind_gets {A B} (g : world -> A) (f : A -> M B) s :
  bind (gets g) f s = f (g (ks_world s)) s.
Proof. unfold bind, gets. destruct (f _ s) as [[r s'] t]. reflexivity. Qed.

Lemma bind_call {B} e g (f : Z -> M B) s :
  bind (call e g) f s
  = pre [e] (f (fst (g (ks_world s))) (on_world (fun w => snd (g w)) s)).
Proof.
  unfold bind, call, pre. destruct (f _ _) as [[r s'] t]. reflexivity.
Qed.

Lemma bind_call_void {B} e g (f : unit -> M B) s :
  bind (call_void e g) f s = pre [e] (f tt (on_world g s)).
Proof.
  unfold bind, call_void, pre. destruct (f _ _) as [[r s'] t]. reflexivity.
Qed.

Lemma bind_bind {A B C} (m : M A) (f : A -> M B) (g : B -> M C) s :
  bind (bind m f) g s = bind m (fun a => bind (f a) g) s.
Proof.
  unfold bind. destruct (m s) as [[[a|c] s1] t1]; [|reflexivity].
  destruct (f a s1) as [[[b|c] s2] t2]; [|reflexivity].
  destruct (g b s2) as [[r s3] t3]. by rewrite app_assoc.
Qed.

Lemma bind_if {A B} (c : bool) (m1 m2 : M A) (f : A -> M B) s :
  bind (if c then m1 else m2) f s
  = if c then bind m1 f s else bind m2 f s.
Proof. by destruct c. Qed.

Lemma bind_deref {A B} (p : option A) (f : A -> M B) s :
  bind (deref p) f s
  = match p with
    | Some a => f a s
    | None => (Crash NULL_deref, s, [])
    end.
Proof. destruct p; simpl; [apply bind_ret_l | reflexivity]. Qed.

Lemma bind_get_slot {B} i (f : au_sp_fop -> M B) s :
  bind (get_slot i) f s
  = match ks_sp_fop s !! i with
    | Some p => f p s
    | None => (Crash Out_of_bounds, s, [])
    end.
Proof.
  unfold bind, get_slot. destruct (ks_sp_fop s !! i) as [p|]; [|done].
  by destruct (f p s) as [[r s'] t].
Qed.

Lemma bind_set_slot {B} i p (f : unit -> M B) s :
  bind (set_slot i p) f s
  = f tt {| ks_world := ks_world s; ks_sp_fop := <[i:=p]> (ks_sp_fop s) |}.
Proof. unfold bind, set_slot. by destruct (f tt _) as [[r s'] t]. Qed.

(** When the first computation returns, [bind] runs the second on its
    state and joins the traces; when it crashes, so does the whole. *)
Lemma bind_Ret {A B} (m : M A) (f : A -> M B) s a :
  ret_of (m s) = Ret a ->
  bind m f s = pre (trace_of (m s)) (f a (state_of (m s))).
Proof.
  unfold bind, pre, ret_of, state_of, trace_of.
  destruct (m s) as [[r s1] t1]; simpl. intros ->.
  destruct (f a s1) as [[r s2] t2]. reflexivity.
Qed.

Lemma bind_Crash {A B} (m : M A) (f : A -> M B) s c :
  ret_of (m s) = Crash c ->
  bind m f s = (Crash c, state_of (m s), trace_of (m s)).
Proof.
  unfold bind, ret_of, state_of, trace_of.
  destruct (m s) as [[r s1] t1]; simpl. by intros ->.
Qed.

Lemma pre_pre {A} t1 t2 (x : result A * kstate * list event) :
  pre t1 (pre t2 x) = pre (t1 ++ t2) x.
Proof.
  unfold pre, ret_of, state_of, trace_of. simpl. by rewrite app_assoc.
Qed.

Lemma pre_nil {A} (x : result A * kstate * list event) : pre [] x = x.
Proof. by destruct x as [[r s] t]. Qed.

Lemma ret_of_pre {A} t (x : result A * kstate * list event) :
  ret_of (pre t x) = ret_of x.
Proof. reflexivity. Qed.

Lemma state_of_pre {A} t (x : result A * kstate * list event) :
  state_of (pre t x) = state_of x.
Proof. reflexivity. Qed.

Lemma world_of_pre {A} t (x : result A * kstate * list event) :
  world_of (pre t x) = world_of x.
Proof. reflexivity. Qed.

Lemma trace_of_pre {A} t (x : result A * kstate * list event) :
  trace_of (pre t x) = t ++ trace_of x.
Proof. reflexivity. Qed.

End Laws.

(** Push [bind] through the primitive computations of a function body. *)
Ltac mstep :=
  repeat first
    [ rewrite bind_bind | rewrite bind_ret_l | rewrite bind_tick
    | rewrite bind_gets | rewrite bind_call | rewrite bind_call_void
    | rewrite bind_oops | rewrite bind_deref | rewrite bind_if
    | rewrite bind_get_slot | rewrite bind_set_slot
    | rewrite pre_pre | progress cbv beta ].

(** Read the three components off a finished run. *)
Ltac mdone :=
  rewrite ?ret_of_pre, ?state_of_pre, ?world_of_pre, ?trace_of_pre;
  unfold pre, ret, oops, tick, call, call_void, gets, ret_of, state_of,
    world_of, trace_of, on_world; cbn [fst snd app ks_world ks_sp_fop].

(** ** The Copy-Up Coordinator: au_cpup_sp *)

Section Coordinator.
Context `{X : Collaborators}.


End Coordinator.

(** ** The delegate: read, write, release *)

Section Delegate.
Context `{X : Collaborators}.

Lemma au_sbr_Some sb (b : Z) br s :
  0 <= b -> sb !! Z.to_nat b = Some br -> au_sbr sb b s = (Ret br, s, []).
Proof.
  intros H0 Hb. unfold au_sbr.
  destruct (b <? 0) eqn:E; [lia|]. by rewrite Hb.
Qed.

Lemma bind_au_sbr {B} sb (b : Z) br (f : au_branch -> M B) s :
  0 <= b -> sb !! Z.to_nat b = Some br -> bind (au_sbr sb b) f s = f br s.
Proof.
  intros H0 Hb. rewrite (bind_Ret _ _ _ br); rewrite (au_sbr_Some _ _ br);
    try done.
  apply pre_nil.
Qed.

(** C7, amended.  Releasing an opened object (a handle in the slot of the
    start branch, with an operation table that has a release entry) calls
    the release entry of that handle's table, handing it the inode and file
    of aufs and not the branch-resident handle; then it calls
    [aufs_release_nondir] whatever the entry returned, on the state the
    entry left.  It calls no other branch entry point, and the value
    returned is the entry's. *)
Theorem aufs_release_sp_always_tears_down (s : kstate) hf fop fn :
  let w := ks_world s in
  fi_hfile w !! fi_bstart w = Some hf ->
  h_f_op hf = Some fop ->
  fo_release fop = Some fn ->
  let r := aufs_release_sp s in
  ret_of r = Ret (fst (h_call fn (Args_release Aufs_file) w)) /\
  trace_of r = [Lock fi_read_lock; Lock fi_read_unlock;
                Call_h fn (Args_release Aufs_file);
                Call_aufs_release_nondir] /\
  (forall fn' a, In (Call_h fn' a) (trace_of r) ->
     fn' = fn /\ a = Args_release Aufs_file) /\
  (forall fn' b,
     ~ In (Call_h fn' (Args_release (Branch_file b))) (trace_of r)) /\
  world_of r
  = snd (aufs_release_nondir (snd (h_call fn (Args_release Aufs_file) w))) /\
  ks_sp_fop (state_of r) = ks_sp_fop s.
Proof.
  intros w Hh Hop Hrel r. subst r w. unfold aufs_release_sp, au_h_fptr.
  mstep. rewrite Hh. cbv iota. mstep. rewrite Hop. cbv iota. mstep.
  rewrite Hrel. cbv iota. mstep. mdone.
  split; [done|]. split; [done|].
  assert (forall fn' a,
            In (Call_h fn' a)
               [Lock fi_read_lock; Lock fi_read_unlock;
                Call_h fn (Args_release Aufs_file);
                Call_aufs_release_nondir] ->
            fn' = fn /\ a = Args_release Aufs_file) as Hcalls.
  { intros fn' a Hin. simpl in Hin.
    destruct Hin as [Hin|[Hin|[Hin|[Hin|[]]]]]; try discriminate Hin.
    by injection Hin as <- <-. }
  split; [exact Hcalls|]. split; [|done].
  intros fn' b Hin. by destruct (Hcalls _ _ Hin) as [_ [=]].
Qed.

(** C2, amended.  A delegated write refreshes the modification time of the
    handle exactly when the branch entry point returned a positive count
    and the start branch is writable; a delegated read refreshes the access
    time under the same two conditions. *)
Theorem aufs_aio_sp_timestamps sb kio (s : kstate) br hf fop :
  let w := ks_world s in
  let b := fi_bstart w in
  0 <= b ->
  sb !! Z.to_nat b = Some br ->
  fi_hfile w !! b = Some hf ->
  h_f_op hf = Some fop ->
  (forall fn, fo_aio_write fop = Some fn ->
     let r := aufs_aio_write_sp sb kio s in
     let n := fst (h_call fn (Args_aio Aufs_file kio) w) in
     ret_of r = Ret n /\
     In (Call_h fn (Args_aio Aufs_file kio)) (trace_of r) /\
     (In (Call_file_update_time b) (trace_of r) <->
        0 < n /\ au_br_writable (br_perm br) = true)) /\
  (forall fn, fo_aio_read fop = Some fn ->
     let r := aufs_aio_read_sp sb kio s in
     let n := fst (h_call fn (Args_aio Aufs_file kio) w) in
     ret_of r = Ret n /\
     In (Call_h fn (Args_aio Aufs_file kio)) (trace_of r) /\
     (In (Call_file_accessed b) (trace_of r) <->
        0 < n /\ au_br_writable (br_perm br) = true)).
Proof.
  intros w b H0 Hbr Hh Hop. subst w b. split; intros fn Hfn r n; subst r n.
  - unfold aufs_aio_write_sp, au_h_fptr. mstep.
    rewrite (bind_au_sbr _ _ br) by done. mstep.
    rewrite Hh. cbv iota. mstep. rewrite Hop. cbv iota. mstep.
    rewrite Hfn. cbv iota. mstep.
    destruct (0 <? fst (h_call fn (Args_aio Aufs_file kio) (ks_world s))) eqn:E;
      destruct (au_br_writable (br_perm br)) eqn:W; simpl andb; cbv iota;
      mstep; mdone; simpl.
    all: split; [done|]; split; [tauto|].
    all: split; [intros HI|intros [Hn Hw]];
      [ repeat (destruct HI as [HI|HI]; try discriminate HI);
        try (split; [lia|done]); try contradiction
      | try lia; try discriminate Hw; tauto ].
  - unfold aufs_aio_read_sp, au_h_fptr. mstep.
    rewrite (bind_au_sbr _ _ br) by done. mstep.
    rewrite Hh. cbv iota. mstep. rewrite Hop. cbv iota. mstep.
    rewrite Hfn. cbv iota. mstep.
    destruct (0 <? fst (h_call fn (Args_aio Aufs_file kio) (ks_world s))) eqn:E;
      destruct (au_br_writable (br_perm br)) eqn:W; simpl andb; cbv iota;
      mstep; mdone; simpl.
    all: split; [done|]; split; [tauto|].
    all: split; [intros HI|intros [Hn Hw]];
      [ repeat (destruct HI as [HI|HI]; try discriminate HI);
        try (split; [lia|done]); try contradiction
      | try lia; try discriminate Hw; tauto ].
Qed.

End Delegate.

(** ** What the table initialisation may change *)

(** Close a goal [respects _ _ _ _ m] for a computation [m] that changes
    nothing and logs nothing. *)
Ltac respects_skip :=
  intros ?; split; [|split; [|split]]; simpl;
  [ reflexivity | reflexivity | constructor | try done ].

Section Respects.
Context {R : relation world} {T : relation (list au_sp_fop)}
  {E : event -> Prop} {C : crash -> Prop} `{!PreOrder R} `{!PreOrder T}.

Lemma respects_ret {A} (a : A) : respects R T E C (ret a).
Proof. respects_skip. Qed.

Lemma respects_oops {A} c : C c -> respects R T E C (@oops A c).
Proof. intros Hc. respects_skip. by intros ? [= <-]. Qed.

Lemma respects_tick e : E e -> respects R T E C (tick e).
Proof.
  intros He s. split; [|split; [|split]]; simpl;
    [reflexivity..|by repeat constructor|done].
Qed.

Lemma respects_gets {A} (g : world -> A) : respects R T E C (gets g).
Proof. respects_skip. Qed.

Lemma respects_get_slot i : C Out_of_bounds -> respects R T E C (get_slot i).
Proof.
  intros Hc s. unfold get_slot.
  destruct (ks_sp_fop s !! i); split; [|split; [|split]| |split; [|split]];
    simpl; try first [reflexivity | constructor]; try done.
  by intros ? [= <-].
Qed.

Lemma respects_deref {A} (p : option A) :
  C NULL_deref -> respects R T E C (deref p).
Proof. destruct p; [intros; apply respects_ret | apply respects_oops]. Qed.

Lemma respects_bind {A B} (m : M A) (f : A -> M B) :
  respects R T E C m -> (forall a, respects R T E C (f a)) ->
  respects R T E C (bind m f).
Proof.
  intros Hm Hf s. destruct (Hm s) as (HR & HT & HE & HC).
  destruct (ret_of (m s)) as [a|c] eqn:Hr.
  - rewrite (bind_Ret _ _ _ a Hr).
    destruct (Hf a (state_of (m s))) as (HR' & HT' & HE' & HC').
    rewrite world_of_pre, state_of_pre, trace_of_pre, ret_of_pre.
    split; [|split; [|split]]; [by etransitivity..|by apply Forall_app|done].
  - rewrite (bind_Crash _ _ _ c Hr).
    split; [|split; [|split]]; [done..|]. by intros ? [= <-]; apply HC.
Qed.

Lemma respects_mono {A} (R' : relation world) (E' : event -> Prop)
    (C' : crash -> Prop) (m : M A) :
  (forall w w', R' w w' -> R w w') ->
  (forall e, E' e -> E e) -> (forall c, C' c -> C c) ->
  respects R' T E' C' m -> respects R T E C m.
Proof.
  intros HRR HEE HCC Hm s. destruct (Hm s) as (HR & HT & HE & HC).
  split; [|split; [|split]]; [auto|done| |auto].
  eapply Forall_impl; [exact HE|done].
Qed.

End Respects.

#[local] Instance same_but_f_op_preorder : PreOrder same_but_f_op.
Proof.
  split; [by intros w|]. intros w1 w2 w3 H1 H2. unfold same_but_f_op in *.
  congruence.
Qed.

#[local] Instance done_frozen_preorder : PreOrder done_frozen.
Proof.
  split.
  - intros tbl. split; [done|]. intros j p Hj Hd. by exists p.
  - intros t1 t2 t3 [L1 H1] [L2 H2]. split; [congruence|].
    intros j p Hj Hd. destruct (H1 j p Hj Hd) as (p' & Hj' & Hd' & Hf').
    destruct (H2 j p' Hj' Hd') as (p'' & Hj'' & Hd'' & Hf'').
    exists p''. repeat split; [done..|congruence].
Qed.

#[local] Instance any_world_preorder : PreOrder any_world.
Proof. by split. Qed.

#[local] Instance any_table_preorder : PreOrder any_table.
Proof. by split. Qed.

Section Table.

(** Replacing the current contents of a slot by one that keeps a set flag
    and, under a set flag, the table. *)
Lemma done_frozen_insert tbl i p p' :
  tbl !! i = Some p ->
  (sp_done p = true -> sp_done p' = true /\ sp_fop p' = sp_fop p) ->
  done_frozen tbl (<[i:=p']> tbl).
Proof.
  intros Hi Hp. split; [apply length_insert|].
  intros j q Hj Hd. destruct (decide (i = j)) as [->|Hne].
  - exists p'. rewrite list_lookup_insert_eq by (by eapply lookup_lt_Some).
    assert (q = p) as -> by congruence. destruct (Hp Hd). done.
  - exists q. by rewrite list_lookup_insert_ne.
Qed.

Lemma respects_update_slot {B} i (g : au_sp_fop -> au_sp_fop) (k : M B) :
  (forall p, sp_done p = true ->
     sp_done (g p) = true /\ sp_fop (g p) = sp_fop p) ->
  first_respects k ->
  first_respects (p <- get_slot i ;; set_slot i (g p) ;;; k).
Proof.
  intros Hg Hk s. rewrite bind_get_slot.
  destruct (ks_sp_fop s !! i) as [p|] eqn:Hi.
  - rewrite bind_set_slot.
    set (s1 := {| ks_world := ks_world s;
                  ks_sp_fop := <[i:=g p]> (ks_sp_fop s) |}).
    destruct (Hk s1) as (HR & HT & HE & HC).
    split; [done|split; [|done]].
    etransitivity; [|exact HT]. simpl.
    eapply done_frozen_insert; [done|auto].
  - clear Hi. revert s. by apply respects_oops.
Qed.

Lemma spin_lock_init_all_respects l : first_respects (spin_lock_init_all l).
Proof.
  induction l as [|i l IH]; simpl.
  - apply respects_ret.
  - apply respects_update_slot; [by intros p Hp|].
    apply respects_bind; [by apply respects_tick|]. by intros _.
Qed.

Lemma au_init_fop_sp_first_respects : first_respects au_init_fop_sp_first.
Proof.
  unfold au_init_fop_sp_first, au_init_fop_sp_first_locked.
  apply respects_bind; [by apply respects_get_slot|]. intros p.
  destruct (negb (sp_done p)); [|apply respects_ret].
  apply respects_bind; [by apply respects_tick|]. intros _.
  apply respects_bind; [by apply respects_get_slot|]. intros p'.
  apply respects_bind; [|intros _; by apply respects_tick].
  destruct (negb (sp_done p')); [|apply respects_ret].
  apply respects_bind; [apply spin_lock_init_all_respects|]. intros _.
  intros s. rewrite bind_get_slot.
  destruct (ks_sp_fop s !! AuSp_FIFO) as [q|] eqn:Hq.
  - split; [reflexivity|split; [|split; [constructor|done]]]. simpl.
    by eapply done_frozen_insert.
  - clear Hq. revert s. by apply respects_oops.
Qed.

Lemma au_init_fop_sp_locked_respects i h :
  init_respects (au_init_fop_sp_locked i h).
Proof.
  unfold au_init_fop_sp_locked.
  apply respects_bind; [by apply respects_tick|]. intros _.
  intros s. rewrite bind_get_slot.
  destruct (ks_sp_fop s !! i) as [p|] eqn:Hi;
    [|clear; by apply respects_oops].
  destruct (sp_done p) eqn:Hd; simpl negb; cbv iota.
  - mstep. mdone.
    split; [reflexivity|split; [reflexivity|split]];
      [by repeat constructor|done].
  - destruct h as [hf|];
      [|clear; by apply respects_oops].
    mstep.
    destruct (h_f_op hf) as [fop|] eqn:Hf;
      [|clear; by apply respects_oops].
    mstep. mdone.
    split; [reflexivity|split; [|split; [by repeat constructor|done]]].
    eapply done_frozen_insert; [done|]. congruence.
Qed.

(** [au_init_fop_sp] changes nothing of the world but [file->f_op], keeps
    every slot whose flag is set, and logs table events only. *)
Lemma au_init_fop_sp_respects :
  respects same_but_f_op done_frozen init_event (fun _ => True)
    au_init_fop_sp.
Proof.
  unfold au_init_fop_sp.
  apply respects_bind;
    [eapply respects_mono; [| | |apply au_init_fop_sp_first_respects];
     [by intros w w' <-|by intros [[]| | | | | | | | | | | | | |]|done]|].
  intros _.
  apply respects_bind; [apply respects_gets|]. intros mode.
  destruct (au_sp_index mode) as [i|]; [|by apply respects_oops].
  apply respects_bind; [by apply respects_get_slot|]. intros p.
  apply respects_bind.
  - destruct (negb (sp_done p)); [|apply respects_ret].
    apply respects_bind; [apply respects_gets|]. intros b.
    apply respects_bind; [apply respects_gets|]. intros h.
    eapply respects_mono; [| | |apply au_init_fop_sp_locked_respects];
      [by intros w w' <-|done..].
  - intros _ s.
    split; [reflexivity|split; [reflexivity|split; [constructor|done]]].
Qed.

End Table.

(** ** The open path *)

Section Open.
Context `{X : Collaborators}.

(** The loop of [au_do_open_sp] ends within its bound, changes nothing, and
    leaves in [bcpup] the first branch that is not read-only, or -1. *)
Lemma scan_bcpup_run sb (bend : Z) fuel (i : Z) s :
  0 <= i -> bend <= Z.of_nat (length sb) ->
  (Z.to_nat (bend - i) <= fuel)%nat ->
  exists b, scan_bcpup fuel sb i bend s = (Ret b, s, []) /\
    ((b = -1 /\ all_rdonly sb i bend) \/
     (i <= b < bend /\
      (exists br, sb !! Z.to_nat b = Some br /\ au_br_rdonly br = false) /\
      all_rdonly sb i b)).
Proof.
  revert i. induction fuel as [|n IH]; intros i Hi Hlen Hfuel.
  - exists (-1). simpl. destruct (i <? bend) eqn:E; [lia|].
    split; [done|]. left. split; [done|]. intros j br Hj. lia.
  - simpl. destruct (i <? bend) eqn:E.
    + assert (Z.to_nat i < length sb)%nat as Hlt by lia.
      destruct (lookup_lt_is_Some_2 _ _ Hlt) as [br Hbr].
      rewrite (bind_au_sbr _ _ br) by done.
      destruct (au_br_rdonly br) eqn:Hro; simpl negb; cbv iota.
      * destruct (IH (i + 1)) as (b & Hrun & Hb); [lia..|].
        exists b. split; [done|].
        assert (all_rdonly sb i (i + 1)) as H1.
        { intros j br' Hj Hl. assert (j = i) as -> by lia. congruence. }
        destruct Hb as [[-> Hall]|(Hr & Hw & Hall)]; [left|right].
        -- split; [done|]. intros j br' Hj Hl.
           destruct (decide (j = i)) as [->|]; [by apply (H1 i br'); [lia|]|].
           apply (Hall j br'); [lia|done].
        -- split; [lia|]. split; [done|]. intros j br' Hj Hl.
           destruct (decide (j = i)) as [->|]; [by apply (H1 i br'); [lia|]|].
           apply (Hall j br'); [lia|done].
      * exists i. split; [done|]. right. split; [lia|]. split; [by exists br|].
        intros j br' Hj. lia.
    + exists (-1). split; [done|]. left. split; [done|]. intros j br Hj. lia.
Qed.

(** The bound the model gives the loop is never exhausted. *)
Lemma scan_bcpup_fuel sb (bend : Z) fuel (i : Z) s :
  (Z.to_nat (bend - i) <= fuel)%nat ->
  ret_of (scan_bcpup fuel sb i bend s) <> Crash Out_of_fuel.
Proof.
  revert i. induction fuel as [|n IH]; intros i Hfuel; simpl.
  - destruct (i <? bend) eqn:E; [lia|done].
  - destruct (i <? bend) eqn:E; [|done]. unfold au_sbr. mstep.
    destruct (i <? 0); [done|].
    destruct (sb !! Z.to_nat i) as [br|]; [|done]. mstep.
    destruct (au_br_rdonly br); cbn [negb]; [|done]. apply IH. lia.
Qed.

Lemma first_writable_unique sb bend b b' :
  first_writable sb bend b -> first_writable sb bend b' -> b = b'.
Proof.
  intros (Hr & (br & Hb & Hw) & Hall) (Hr' & (br' & Hb' & Hw') & Hall').
  destruct (Z.lt_trichotomy b b') as [Hlt|[->|Hlt]]; [|done|].
  - specialize (Hall' b br ltac:(lia) Hb). congruence.
  - specialize (Hall b' br' ltac:(lia) Hb'). congruence.
Qed.

(** The value of [bcpup] when the start branch is a read-only branch of
    the stack. *)
Lemma scan_bcpup_start sb s :
  start_rdonly sb (ks_world s) ->
  let bend := d_bstart (ks_world s) in
  exists b, scan_bcpup (Z.to_nat bend) sb 0 bend s = (Ret b, s, []) /\
    ((b = -1 /\ all_rdonly sb 0 bend) \/ first_writable sb bend b).
Proof.
  intros (H0 & br & Hbr & Hro) bend.
  apply lookup_lt_Some in Hbr.
  destruct (scan_bcpup_run sb bend (Z.to_nat bend) 0 s) as (b & Hrun & Hb);
    [lia..|].
  exists b. split; [done|]. destruct Hb as [?|(? & ? & ?)]; [by left|right].
  done.
Qed.

(** [au_cpup_sp] always returns: it takes the parent's lock, goes one of
    the three ways of [cpup_path], and drops the lock. *)
Lemma au_cpup_sp_path b s :
  exists e w' t,
    au_cpup_sp b s
    = (Ret e, {| ks_world := w'; ks_sp_fop := ks_sp_fop s |},
       [Call_dget_parent; Lock di_write_lock_parent] ++ t ++
       [Lock di_write_unlock; Call_dput]) /\
    cpup_path b (ks_world s) e w' t.
Proof.
  unfold au_cpup_sp. mstep.
  destruct (dp_hdentry (ks_world s) !! b) as [d|] eqn:Hd; mstep.
  - simpl negb. cbv iota. mstep.
    assert (before_pin b (ks_world s) (ks_world s) []) as Hbefore.
    { left. rewrite Hd. eauto. }
    destruct (fst (au_pin b (ks_world s)) =? 0) eqn:E; mstep; mdone.
    + eexists _, _, _.
      split; [|eapply cpup_simple_called; [exact Hbefore|lia]]. done.
    + eexists _, _, _.
      split; [|eapply cpup_pin_failed; [exact Hbefore|lia]]. done.
  - destruct (fst (au_cpup_dirs b (ks_world s)) =? 0) eqn:E0;
      simpl negb; cbv iota; mstep.
    + assert (before_pin b (ks_world s) (snd (au_cpup_dirs b (ks_world s)))
                [Call_au_cpup_dirs b]) as Hbefore.
      { right. repeat split; [done|lia]. }
      destruct (fst (au_pin b _) =? 0) eqn:E; mstep; mdone; simpl in E.
      * eexists _, _, _.
        split; [|eapply cpup_simple_called; [exact Hbefore|lia]]. done.
      * eexists _, _, _.
        split; [|eapply cpup_pin_failed; [exact Hbefore|lia]]. done.
    + mdone. eexists _, _, _.
      split; [|eapply cpup_dirs_failed; [done|lia]]. done.
Qed.

Lemma au_do_open_sp_cpup_erofs sb s :
  start_rdonly sb (ks_world s) ->
  all_rdonly sb 0 (d_bstart (ks_world s)) ->
  au_do_open_sp_cpup sb s = (Ret (- EROFS), s, []).
Proof.
  intros Hstart Hall.
  destruct (scan_bcpup_start sb s Hstart) as (b & Hrun & Hb).
  destruct Hstart as (H0 & br & Hbr & Hro).
  unfold au_do_open_sp_cpup. mstep. rewrite (bind_au_sbr _ _ br) by done.
  rewrite Hro. rewrite (bind_Ret _ _ _ b); rewrite Hrun; [|done].
  mdone. destruct Hb as [[-> _]|(Hr & (br' & Hb' & Hw) & _)]; [done|].
  specialize (Hall b br' Hr Hb'). congruence.
Qed.

Lemma au_do_open_sp_cpup_writable sb s br :
  0 <= d_bstart (ks_world s) ->
  sb !! Z.to_nat (d_bstart (ks_world s)) = Some br ->
  au_br_rdonly br = false ->
  au_do_open_sp_cpup sb s = (Ret 0, s, []).
Proof.
  intros H0 Hbr Hw. unfold au_do_open_sp_cpup. mstep.
  rewrite (bind_au_sbr _ _ br) by done. by rewrite Hw.
Qed.

(** The copy-up block when a writable branch lies above the read-only start
    branch: the dentry lock is dropped and taken exclusively, and
    [au_cpup_sp] runs for the first writable branch if that branch is still
    above the start branch. *)
Lemma au_do_open_sp_cpup_promote sb s b :
  start_rdonly sb (ks_world s) ->
  first_writable sb (d_bstart (ks_world s)) b ->
  let s1 := on_world di_relock s in
  (b < d_bstart (ks_world s1) ->
   exists e w' t,
     cpup_path b (ks_world s1) e w' t /\
     au_do_open_sp_cpup sb s
     = (Ret e, {| ks_world := w'; ks_sp_fop := ks_sp_fop s |},
        [Lock di_read_unlock; Lock di_write_lock_child;
         Call_dget_parent; Lock di_write_lock_parent] ++ t ++
        [Lock di_write_unlock; Call_dput; Lock di_downgrade_lock])) /\
  (d_bstart (ks_world s1) <= b ->
   au_do_open_sp_cpup sb s
   = (Ret 0, s1, [Lock di_read_unlock; Lock di_write_lock_child;
                  Lock di_downgrade_lock])).
Proof.
  intros Hstart Hfirst s1.
  destruct (scan_bcpup_start sb s Hstart) as (b' & Hrun & Hb).
  assert (b' = b) as ->.
  { destruct Hb as [[-> Hall]|Hb]; [|by eapply first_writable_unique].
    destruct Hfirst as (Hr & (br' & Hb' & Hw) & _).
    specialize (Hall b br' Hr Hb'). congruence. }
  destruct Hstart as (H0 & br & Hbr & Hro).
  assert ((0 <=? b) = true) as Hnn by (destruct Hfirst; lia).
  unfold au_do_open_sp_cpup. mstep. rewrite (bind_au_sbr _ _ br) by done.
  rewrite Hro. rewrite (bind_Ret _ _ _ b); rewrite Hrun; [|done].
  rewrite pre_nil. cbv beta. rewrite Hnn. mstep.
  change (state_of (Ret b, s, [])) with s. fold s1.
  split; intros Hguard;
    [assert ((b <? d_bstart (ks_world s1)) = true) as -> by lia
    |assert ((b <? d_bstart (ks_world s1)) = false) as -> by lia].
  - destruct (au_cpup_sp_path b s1) as (e & w' & t & Hcp & Hpath).
    exists e, w', t. split; [done|].
    rewrite (bind_Ret _ _ _ e); rewrite Hcp; [|done]. mstep. mdone.
    f_equal. simpl. by rewrite <- !app_assoc.
  - mstep. mdone. done.
Qed.

Lemma same_but_f_op_fields w w' :
  same_but_f_op w w' ->
  d_bstart w' = d_bstart w /\ f_mode w' = f_mode w /\
  fi_bstart w' = fi_bstart w /\ fi_hfile w' = fi_hfile w.
Proof. by intros [= -> _ _ -> _ -> ->]. Qed.

(** When [au_init_fop_sp] returns, the access mode had a slot and
    [file->f_op] points at that slot's table. *)
Lemma au_init_fop_sp_Ret s :
  ret_of (au_init_fop_sp s) = Ret tt ->
  exists i, au_sp_index (f_mode (ks_world s)) = Some i /\
            f_op (world_of (au_init_fop_sp s)) = Some (addr_au_sp_fop i).
Proof.
  unfold au_init_fop_sp.
  destruct (au_init_fop_sp_first_respects s) as (HR & _ & _ & _).
  destruct (ret_of (au_init_fop_sp_first s)) as [[]|c] eqn:Hfirst;
    [|by rewrite (bind_Crash _ _ _ c Hfirst)].
  rewrite (bind_Ret _ _ _ tt Hfirst), ret_of_pre, world_of_pre.
  set (s1 := state_of (au_init_fop_sp_first s)) in *.
  assert (f_mode (ks_world s1) = f_mode (ks_world s)) as Hmode.
  { by rewrite HR. }
  mstep. rewrite Hmode.
  destruct (au_sp_index (f_mode (ks_world s))) as [i|]; [|done].
  intros Hret. exists i. split; [done|]. revert Hret. mstep.
  destruct (ks_sp_fop s1 !! i) as [p|]; [|done]. mstep.
  destruct (negb (sp_done p)); unfold au_h_fptr; mstep; [|by mdone].
  set (m := au_init_fop_sp_locked i _).
  destruct (ret_of (m s1)) as [[]|c] eqn:Hm;
    [|by rewrite (bind_Crash _ _ _ c Hm)].
  rewrite (bind_Ret _ _ _ tt Hm). by mdone.
Qed.

(** The ways [au_do_open_sp_native] returns 0: the generic open, the
    native open and the table set-up all succeeded. *)
Lemma au_do_open_sp_native_ok s :
  let r := au_do_open_sp_native s in
  ret_of r = Ret 0 ->
  let w1 := snd (au_do_open_nondir (ks_world s)) in
  exists hf fn,
    fst (au_do_open_nondir (ks_world s)) = 0 /\
    fi_hfile w1 !! fi_bstart w1 = Some hf /\
    fo_open (h_i_fop hf) = Some fn /\
    fst (h_call fn (Args_open Aufs_file) w1) = 0 /\
    let s2 := {| ks_world := snd (h_call fn (Args_open Aufs_file) w1);
                 ks_sp_fop := ks_sp_fop s |} in
    ret_of (au_init_fop_sp s2) = Ret tt /\
    state_of r = state_of (au_init_fop_sp s2) /\
    trace_of r
    = [Call_au_do_open_nondir; Lock di_read_unlock; Lock fi_write_unlock;
       Lock si_read_unlock; Call_h fn (Args_open Aufs_file);
       Lock si_noflush_read_lock; Lock fi_write_lock; Lock di_read_lock_child]
      ++ trace_of (au_init_fop_sp s2).
Proof.
  intros r. subst r. unfold au_do_open_sp_native, au_h_fptr. mstep.
  destruct (fst (au_do_open_nondir (ks_world s)) =? 0) eqn:E0;
    cbn [negb]; [|mdone; intros [= ?]; lia].
  mstep. unfold on_world. cbn [ks_world ks_sp_fop]. cbv zeta.
  destruct (fi_hfile _ !! fi_bstart _) as [hf|] eqn:Hh; [|done].
  mstep. destruct (fo_open (h_i_fop hf)) as [fn|] eqn:Hfn; [|done].
  mstep. unfold on_world. cbn [ks_world ks_sp_fop].
  destruct (fst (h_call fn (Args_open Aufs_file) _) =? 0) eqn:E1;
    [|mstep; mdone; intros [= ?]; lia].
  mstep. unfold on_world. cbn [ks_world ks_sp_fop].
  set (s2 := {| ks_world := snd (h_call fn (Args_open Aufs_file) _);
                ks_sp_fop := ks_sp_fop s |}).
  intros Hret. exists hf, fn.
  split; [lia|]. split; [done|]. split; [done|]. split; [lia|].
  revert Hret. rewrite ret_of_pre, state_of_pre, trace_of_pre.
  destruct (ret_of (au_init_fop_sp s2)) as [[]|c] eqn:Hi;
    [|by rewrite (bind_Crash _ _ _ c Hi)].
  rewrite (bind_Ret _ _ _ tt Hi). intros _. mdone.
  split; [done|]. split; [done|]. by rewrite app_nil_r.
Qed.

Lemma before_pin_det b w w1 t1 w2 t2 :
  before_pin b w w1 t1 -> before_pin b w w2 t2 -> w1 = w2 /\ t1 = t2.
Proof.
  intros [([d Hd] & -> & ->)|(Hn & _ & -> & ->)]
         [([d' Hd'] & -> & ->)|(Hn' & _ & -> & ->)]; try done; congruence.
Qed.

(** [au_cpup_sp] goes exactly one way. *)
Lemma cpup_path_det b w e1 w1 t1 e2 w2 t2 :
  cpup_path b w e1 w1 t1 -> cpup_path b w e2 w2 t2 ->
  e1 = e2 /\ w1 = w2 /\ t1 = t2.
Proof.
  intros H1 H2.
  destruct H1 as [Hn1 Hf1|wa ta Ha Hf1|wa ta Ha Hf1];
    destruct H2 as [Hn2 Hf2|wb tb Hb Hf2|wb tb Hb Hf2]; try done.
  all: try (destruct Ha as [([d Hd] & -> & ->)|(Hn & Hz & -> & ->)];
            congruence).
  all: try (destruct Hb as [([d Hd] & -> & ->)|(Hn & Hz & -> & ->)];
            congruence).
  all: destruct (before_pin_det _ _ _ _ _ _ Ha Hb) as [-> ->];
       try done; congruence.
Qed.

Lemma before_pin_contract b w w0 t0 :
  spec_contract X -> before_pin b w w0 t0 ->
  d_bstart w0 = d_bstart w /\ fi_bstart w0 = fi_bstart w.
Proof.
  intros HX [(_ & -> & _)|(_ & _ & -> & _)]; [done|].
  apply (cpup_dirs_keeps HX).
Qed.

(** Under the contract a copy-up that returns 0 has moved the dentry's
    start branch to the target, and one that fails has left it alone; the
    file's start branch is untouched either way. *)
Lemma cpup_path_contract b w e w' t :
  spec_contract X -> cpup_path b w e w' t ->
  fi_bstart w' = fi_bstart w /\
  (e = 0 -> d_bstart w' = b) /\
  (e <> 0 -> d_bstart w' = d_bstart w).
Proof.
  intros HX [Hn Hf|w0 t0 Hb Hf|w0 t0 Hb Hf].
  - destruct (cpup_dirs_keeps HX b w) as [Hd Hfi].
    split; [done|]. split; [done|]. done.
  - destruct (before_pin_contract _ _ _ _ HX Hb) as [Hd Hfi].
    destruct (pin_keeps HX b w0) as [Hd' Hfi'].
    split; [congruence|]. split; [done|]. congruence.
  - destruct (before_pin_contract _ _ _ _ HX Hb) as [Hd Hfi].
    destruct (pin_keeps HX b w0) as [Hd' Hfi'].
    set (w1 := snd (au_pin b w0)) in *.
    destruct (unpin_keeps HX (snd (au_sio_cpup_simple b w1))) as [Hd2 Hfi2].
    pose proof (cpup_simple_file HX b w1) as Hfi3.
    split; [congruence|]. split; intros He.
    + rewrite Hd2. by apply (cpup_simple_moves HX).
    + rewrite Hd2, (cpup_simple_keeps HX b w1 He). congruence.
Qed.

(** Every way through [au_cpup_sp] calls [au_cpup_dirs] or [au_pin] on the
    target, all its copy-up calls name the target, and the simple copy-up is
    called once when the result is 0. *)
Lemma cpup_path_calls b w e w' t :
  cpup_path b w e w' t ->
  (In (Call_au_cpup_dirs b) t \/ In (Call_au_pin b) t) /\
  (forall ev b', In ev t -> cpup_call ev = Some b' -> b' = b) /\
  Forall (fun ev => ~ native_event ev) t /\
  (e = 0 -> count_occ event_eq_dec t (Call_au_sio_cpup_simple b) = 1%nat).
Proof.
  assert (forall w0 t0, before_pin b w w0 t0 ->
            t0 = [] \/ t0 = [Call_au_cpup_dirs b]) as Hbefore.
  { intros w0 t0 [(_ & _ & ->)|(_ & _ & _ & ->)]; auto. }
  assert (forall t1,
    (forall ev, In ev t1 -> ev = Call_au_cpup_dirs b \/ ev = Call_au_pin b \/
       ev = Call_au_sio_cpup_simple b \/ ev = Call_au_unpin) ->
    (forall ev b', In ev t1 -> cpup_call ev = Some b' -> b' = b) /\
    Forall (fun ev => ~ native_event ev) t1) as Hshape.
  { intros t1 Hin. split.
    - intros ev b' Hev Hc.
      destruct (Hin ev Hev) as [-> | [-> | [-> | ->]]]; simpl in Hc; congruence.
    - apply Forall_forall. intros ev Hev. apply list_elem_of_In in Hev.
      destruct (Hin ev Hev) as [-> | [-> | [-> | ->]]]; simpl; tauto. }
  intros [Hn Hf|w0 t0 Hb Hf|w0 t0 Hb Hf].
  - split; [left; simpl; auto|].
    destruct (Hshape [Call_au_cpup_dirs b]) as [H1 H2];
      [simpl; intuition|]. done.
  - destruct (Hbefore _ _ Hb) as [-> | ->]; cbn [app In].
    + split; [tauto|].
      destruct (Hshape [Call_au_pin b]) as [H1 H2]; [simpl; intuition|].
      done.
    + split; [tauto|].
      destruct (Hshape [Call_au_cpup_dirs b; Call_au_pin b]) as [H1 H2];
        [simpl; intuition|]. done.
  - destruct (Hbefore _ _ Hb) as [-> | ->]; cbn [app In].
    + split; [tauto|].
      destruct (Hshape [Call_au_pin b; Call_au_sio_cpup_simple b;
                        Call_au_unpin]) as [H1 H2]; [simpl; intuition|].
      split; [done|]. split; [done|]. intros _.
      repeat first
        [ rewrite count_occ_cons_neq by discriminate
        | rewrite count_occ_cons_eq by reflexivity ]. done.
    + split; [tauto|].
      destruct (Hshape [Call_au_cpup_dirs b; Call_au_pin b;
                        Call_au_sio_cpup_simple b; Call_au_unpin])
        as [H1 H2]; [simpl; intuition|].
      split; [done|]. split; [done|]. intros _.
      repeat first
        [ rewrite count_occ_cons_neq by discriminate
        | rewrite count_occ_cons_eq by reflexivity ]. done.
Qed.

Lemma respects_call {R T E C} `{!PreOrder T} e g :
  (forall w, R w (snd (g w))) -> E e -> respects R T E C (call e g).
Proof.
  intros HR He s. split; [|split; [|split]]; simpl;
    [apply HR|reflexivity|by repeat constructor|done].
Qed.

Lemma respects_call_void {R T E C} `{!PreOrder T} e g :
  (forall w, R w (g w)) -> E e -> respects R T E C (call_void e g).
Proof.
  intros HR He s. split; [|split; [|split]]; simpl;
    [apply HR|reflexivity|by repeat constructor|done].
Qed.

Lemma respects_events {A} R T (E E' : event -> Prop) C (m : M A) :
  (forall e, E e -> E' e) ->
  respects R T E C m -> respects any_world any_table E' (fun _ => True) m.
Proof.
  intros HE Hm s. destruct (Hm s) as (_ & _ & Hev & _).
  split; [done|]. split; [done|]. split; [|done].
  eapply Forall_impl; [exact Hev|done].
Qed.

(** [au_do_open_sp_native] makes no call of the copy-up. *)
Lemma au_do_open_sp_native_events s :
  Forall native_event (trace_of (au_do_open_sp_native s)).
Proof.
  cut (respects any_world any_table native_event (fun _ => True)
         au_do_open_sp_native); [intros H; apply H|].
  unfold au_do_open_sp_native, au_h_fptr.
  apply respects_bind; [by apply respects_call|]. intros err.
  destruct (negb (err =? 0)); [apply respects_ret|].
  apply respects_bind; [apply respects_gets|]. intros b.
  apply respects_bind; [apply respects_gets|]. intros h.
  apply respects_bind; [by apply respects_deref|]. intros hf.
  do 3 (apply respects_bind; [by apply respects_tick|]; intros _).
  apply respects_bind; [by apply respects_deref|]. intros fn.
  apply respects_bind; [by apply respects_call|]. intros err'.
  do 3 (apply respects_bind; [by apply respects_tick|]; intros _).
  destruct (err' =? 0).
  - apply respects_bind; [|intros; apply respects_ret].
    eapply respects_events; [|apply au_init_fop_sp_respects].
    by intros [[]| | | | | | | | | | | | | |].
  - apply respects_bind; [by apply respects_call_void|].
    intros; apply respects_ret.
Qed.

(** [au_do_open_sp] once the copy-up block has returned. *)
Lemma au_do_open_sp_after_cpup sb s e s1 t1 :
  au_do_open_sp_cpup sb s = (Ret e, s1, t1) ->
  au_do_open_sp sb s
  = if e =? 0 then pre t1 (au_do_open_sp_native s1) else (Ret e, s1, t1).
Proof.
  intros Hc. unfold au_do_open_sp.
  rewrite (bind_Ret _ _ _ e); rewrite Hc; [|done].
  cbn [trace_of state_of fst snd]. destruct (e =? 0); cbn [negb]; [done|].
  mdone. by rewrite app_nil_r.
Qed.

Lemma au_do_open_sp_erofs_run sb s :
  start_rdonly sb (ks_world s) ->
  all_rdonly sb 0 (d_bstart (ks_world s)) ->
  au_do_open_sp sb s = (Ret (- EROFS), s, []).
Proof.
  intros Hstart Hall.
  by rewrite (au_do_open_sp_after_cpup _ _ _ _ _
                (au_do_open_sp_cpup_erofs sb s Hstart Hall)).
Qed.

(** C3.  When the start branch is read-only and so is every branch above
    it, [au_do_open_sp] returns -EROFS having called nothing and changed
    nothing: a handle array that was empty is still empty. *)
Theorem au_do_open_sp_erofs sb s :
  start_rdonly sb (ks_world s) ->
  all_rdonly sb 0 (d_bstart (ks_world s)) ->
  au_do_open_sp sb s = (Ret (- EROFS), s, []) /\
  (fi_hfile (ks_world s) = ∅ ->
   fi_hfile (world_of (au_do_open_sp sb s)) = ∅).
Proof.
  intros Hstart Hall. by rewrite (au_do_open_sp_erofs_run sb s Hstart Hall).
Qed.

(** A successful [au_do_open_sp_native] leaves the dentry's start branch
    alone and makes it the file's. *)
Lemma au_do_open_sp_native_bstart s :
  spec_contract X ->
  ret_of (au_do_open_sp_native s) = Ret 0 ->
  d_bstart (world_of (au_do_open_sp_native s)) = d_bstart (ks_world s) /\
  fi_bstart (world_of (au_do_open_sp_native s)) = d_bstart (ks_world s).
Proof.
  intros HX Hret.
  destruct (au_do_open_sp_native_ok s Hret)
    as (hf & fn & Hnd & _ & _ & _ & _ & Hst & _).
  destruct (au_init_fop_sp_respects
    {| ks_world := snd (h_call fn (Args_open Aufs_file)
                          (snd (au_do_open_nondir (ks_world s))));
       ks_sp_fop := ks_sp_fop s |}) as (HR & _).
  apply same_but_f_op_fields in HR as (Hd & _ & Hf & _).
  unfold world_of, state_of in *. rewrite Hst, Hd, Hf. cbn [ks_world].
  destruct (h_open_keeps HX fn (snd (au_do_open_nondir (ks_world s))))
    as [-> ->].
  destruct (open_nondir_opens HX (ks_world s) Hnd) as (-> & -> & _). done.
Qed.

(** With a writable branch [b] above the read-only start branch, every
    copy-up call of [au_do_open_sp] names [b] and is made only if [b] is
    above the start branch read back under the exclusive dentry lock, in
    which case the copy-up does start. *)
Lemma au_do_open_sp_promote_calls sb s b :
  start_rdonly sb (ks_world s) ->
  first_writable sb (d_bstart (ks_world s)) b ->
  let t := trace_of (au_do_open_sp sb s) in
  (forall ev b', In ev t -> cpup_call ev = Some b' ->
     b' = b /\ b < d_bstart (di_relock (ks_world s))) /\
  (b < d_bstart (di_relock (ks_world s)) ->
   In (Call_au_cpup_dirs b) t \/ In (Call_au_pin b) t).
Proof.
  intros Hstart Hfirst t. subst t.
  assert (forall t, Forall native_event t ->
            forall ev b', In ev t -> cpup_call ev = Some b' -> False) as Hnat.
  { intros t Ht ev b' Hin Hc. rewrite Forall_forall in Ht.
    apply list_elem_of_In in Hin. specialize (Ht ev Hin).
    by destruct ev. }
  assert (forall l, In l [Lock di_read_unlock; Lock di_write_lock_child;
                          Call_dget_parent; Lock di_write_lock_parent;
                          Lock di_write_unlock; Call_dput;
                          Lock di_downgrade_lock] ->
            cpup_call l = None) as Hlocks.
  { intros l Hin. simpl in Hin. by repeat destruct Hin as [<-|Hin]. }
  destruct (au_do_open_sp_cpup_promote sb s b Hstart Hfirst) as [Hup Hno].
  destruct (Z.lt_ge_cases b (d_bstart (di_relock (ks_world s))))
    as [Hlt|Hge].
  - destruct (Hup Hlt) as (e & w' & t & Hpath & Hrun).
    rewrite (au_do_open_sp_after_cpup _ _ _ _ _ Hrun).
    destruct (cpup_path_calls _ _ _ _ _ Hpath) as (Hcalled & Htarget & _).
    assert (forall t', Forall native_event t' -> forall ev b',
      In ev (([Lock di_read_unlock; Lock di_write_lock_child;
               Call_dget_parent; Lock di_write_lock_parent] ++ t ++
              [Lock di_write_unlock; Call_dput; Lock di_downgrade_lock])
             ++ t') -> cpup_call ev = Some b' -> b' = b) as Htarget'.
    { intros t' Ht' ev b'. rewrite !in_app_iff.
      intros [[Hin|[Hin|Hin]]|Hin] Hc.
      - rewrite Hlocks in Hc; [done|]. simpl in *. tauto.
      - by eapply Htarget.
      - rewrite Hlocks in Hc; [done|]. simpl in *. tauto.
      - by destruct (Hnat _ Ht' _ _ Hin Hc). }
    destruct (e =? 0).
    + rewrite trace_of_pre. split.
      * intros ev b' Hin Hc. split; [|done].
        eapply Htarget'; [apply au_do_open_sp_native_events|done..].
      * intros _. rewrite !in_app_iff. tauto.
    + cbn [trace_of snd]. split.
      * intros ev b' Hin Hc. split; [|done].
        apply (Htarget' [] ltac:(constructor) ev);
          [by rewrite app_nil_r|done].
      * intros _. rewrite !in_app_iff. tauto.
  - rewrite (au_do_open_sp_after_cpup _ _ _ _ _ (Hno Hge)).
    cbn [Z.eqb]. rewrite trace_of_pre. split; [|lia].
    intros ev b'. rewrite in_app_iff. intros [Hin|Hin] Hc.
    + rewrite Hlocks in Hc; [done|]. simpl in *. tauto.
    + by destruct (Hnat _ (au_do_open_sp_native_events _) _ _ Hin Hc).
Qed.

(** C1.  When the start branch is read-only, the loop of [au_do_open_sp]
    leaves in [bcpup] the first branch above it that is not read-only, or
    -1 when there is none.  In the second case the open fails with -EROFS.
    In the first every copy-up call names that branch, and when the open
    returns 0 both start branches are equal and never below that branch;
    they are that branch whenever it was still above the start branch once
    the dentry lock was retaken, in particular when no other task moved
    the start branch meanwhile. *)
Theorem au_do_open_sp_first_writable sb s :
  spec_contract X ->
  start_rdonly sb (ks_world s) ->
  let w := ks_world s in
  let r := au_do_open_sp sb s in
  (exists b,
     scan_bcpup (Z.to_nat (d_bstart w)) sb 0 (d_bstart w) s = (Ret b, s, []) /\
     ((b = -1 /\ all_rdonly sb 0 (d_bstart w)) \/
      first_writable sb (d_bstart w) b)) /\
  (all_rdonly sb 0 (d_bstart w) -> ret_of r = Ret (- EROFS)) /\
  (forall b, first_writable sb (d_bstart w) b ->
     (forall ev b', In ev (trace_of r) -> cpup_call ev = Some b' -> b' = b) /\
     (b < d_bstart (di_relock w) ->
      In (Call_au_cpup_dirs b) (trace_of r) \/
      In (Call_au_pin b) (trace_of r)) /\
     (ret_of r = Ret 0 ->
      fi_bstart (world_of r) = d_bstart (world_of r) /\
      d_bstart (world_of r) <= b /\
      (b < d_bstart (di_relock w) -> d_bstart (world_of r) = b) /\
      (quiet_relock X -> d_bstart (world_of r) = b))).
Proof.
  intros HX Hstart w r. subst r.
  split; [exact (scan_bcpup_start sb s Hstart)|]. split.
  { intros Hall. by rewrite (au_do_open_sp_erofs_run sb s Hstart Hall). }
  intros b Hfirst.
  assert (forall t, Forall native_event t ->
            forall ev b', In ev t -> cpup_call ev = Some b' -> False) as Hnat.
  { intros t Ht ev b' Hin Hc. rewrite Forall_forall in Ht.
    apply list_elem_of_In in Hin. specialize (Ht ev Hin).
    by destruct ev. }
  destruct (au_do_open_sp_cpup_promote sb s b Hstart Hfirst) as [Hup Hno].
  destruct (Z.lt_ge_cases b (d_bstart (di_relock w))) as [Hlt|Hge].
  - destruct (Hup Hlt) as (e & w' & t & Hpath & Hrun).
    rewrite (au_do_open_sp_after_cpup _ _ _ _ _ Hrun).
    destruct (cpup_path_calls _ _ _ _ _ Hpath) as (Hcalled & Htarget & _).
    destruct (cpup_path_contract _ _ _ _ _ HX Hpath) as (Hfi & Hmoved & _).
    set (s1 := {| ks_world := w'; ks_sp_fop := ks_sp_fop s |}).
    assert (forall t', In (Call_au_cpup_dirs b)
        (([Lock di_read_unlock; Lock di_write_lock_child; Call_dget_parent;
           Lock di_write_lock_parent] ++ t ++
          [Lock di_write_unlock; Call_dput; Lock di_downgrade_lock]) ++ t') \/
      In (Call_au_pin b)
        (([Lock di_read_unlock; Lock di_write_lock_child; Call_dget_parent;
           Lock di_write_lock_parent] ++ t ++
          [Lock di_write_unlock; Call_dput; Lock di_downgrade_lock]) ++ t'))
      as Hcalled'.
    { intros t'. rewrite !in_app_iff. tauto. }
    assert (forall t', Forall native_event t' -> forall ev b',
      In ev (([Lock di_read_unlock; Lock di_write_lock_child;
               Call_dget_parent; Lock di_write_lock_parent] ++ t ++
              [Lock di_write_unlock; Call_dput; Lock di_downgrade_lock])
             ++ t') -> cpup_call ev = Some b' -> b' = b) as Htarget'.
    { intros t' Ht' ev b'. rewrite !in_app_iff. intros [[Hin|[Hin|Hin]]|Hin] Hc.
      - simpl in Hin. by repeat destruct Hin as [<-|Hin].
      - by eapply Htarget.
      - simpl in Hin. by repeat destruct Hin as [<-|Hin].
      - by destruct (Hnat _ Ht' _ _ Hin Hc). }
    destruct (e =? 0) eqn:E.
    + apply Z.eqb_eq in E. subst e. specialize (Hmoved eq_refl).
      rewrite trace_of_pre, ret_of_pre, world_of_pre.
      split; [apply Htarget', au_do_open_sp_native_events|].
      split; [done|]. intros Hret.
      destruct (au_do_open_sp_native_bstart s1 HX Hret) as [-> ->].
      cbn [s1 ks_world]. rewrite Hmoved. repeat split; [lia|done..].
    + cbn [trace_of ret_of fst snd].
      split; [intros ev b'; specialize (Htarget' [] ltac:(constructor) ev b');
              by rewrite app_nil_r in Htarget'|].
      split; [intros _; specialize (Hcalled' []);
              by rewrite app_nil_r in Hcalled'|].
      intros [= ->]. done.
  - rewrite (au_do_open_sp_after_cpup _ _ _ _ _ (Hno Hge)).
    cbn [Z.eqb]. rewrite trace_of_pre, ret_of_pre, world_of_pre.
    split.
    { intros ev b'. rewrite in_app_iff. intros [Hin|Hin] Hc.
      - simpl in Hin. by repeat destruct Hin as [<-|Hin].
      - by destruct (Hnat _ (au_do_open_sp_native_events _) _ _ Hin Hc). }
    split; [lia|]. intros Hret.
    destruct (au_do_open_sp_native_bstart _ HX Hret) as [-> ->].
    cbn [on_world ks_world]. fold w. repeat split; [lia|lia|].
    intros Hq. destruct (Hq w). destruct Hfirst. lia.
Qed.

(** C4.  With no other task moving the start branch, if a step of the
    copy-up to the first writable branch fails with [e] -- the ancestor
    copy-up, the pin, or the simple copy-up -- then [au_do_open_sp] returns
    [e] without calling the generic or the native open, both start
    branches and the table are as before, and opening again attempts the
    copy-up to the same branch. *)
Theorem au_do_open_sp_cpup_failure sb s b e :
  spec_contract X ->
  quiet_relock X ->
  start_rdonly sb (ks_world s) ->
  first_writable sb (d_bstart (ks_world s)) b ->
  cpup_step_fails b (di_relock (ks_world s)) e ->
  let w := ks_world s in
  let r := au_do_open_sp sb s in
  ret_of r = Ret e /\
  ~ In Call_au_do_open_nondir (trace_of r) /\
  (forall fn a, ~ In (Call_h fn a) (trace_of r)) /\
  d_bstart (world_of r) = d_bstart w /\
  fi_bstart (world_of r) = fi_bstart w /\
  ks_sp_fop (state_of r) = ks_sp_fop s /\
  (let r2 := au_do_open_sp sb (state_of r) in
   In (Call_au_cpup_dirs b) (trace_of r2) \/
   In (Call_au_pin b) (trace_of r2)).
Proof.
  intros HX Hq Hstart Hfirst (Hne & w0 & t0 & Hfail) w r. subst r w.
  assert (b < d_bstart (di_relock (ks_world s))) as Hlt.
  { rewrite (proj1 (Hq (ks_world s))). by destruct Hfirst as [[_ ?] _]. }
  destruct (au_do_open_sp_cpup_promote sb s b Hstart Hfirst) as [Hup _].
  destruct (Hup Hlt) as (e' & w' & t & Hpath & Hrun).
  destruct (cpup_path_det _ _ _ _ _ _ _ _ Hpath Hfail) as (-> & -> & ->).
  rewrite (au_do_open_sp_after_cpup _ _ _ _ _ Hrun).
  assert ((e =? 0) = false) as -> by lia.
  destruct (cpup_path_calls _ _ _ _ _ Hpath) as (_ & _ & Hev & _).
  destruct (cpup_path_contract _ _ _ _ _ HX Hpath) as (Hfi & _ & Hkept).
  specialize (Hkept Hne). cbn [on_world ks_world] in Hkept, Hfi.
  cbn [ret_of trace_of state_of world_of fst snd ks_world ks_sp_fop].
  assert (forall ev, native_event ev ->
    In ev ([Lock di_read_unlock; Lock di_write_lock_child; Call_dget_parent;
            Lock di_write_lock_parent] ++ t0 ++
           [Lock di_write_unlock; Call_dput; Lock di_downgrade_lock]) ->
    exists l, ev = Lock l) as Hlocks.
  { intros ev Hnat. rewrite !in_app_iff. intros [Hin|[Hin|Hin]].
    - simpl in Hin. repeat destruct Hin as [<-|Hin]; by eauto.
    - rewrite Forall_forall in Hev. apply list_elem_of_In in Hin.
      by destruct (Hev ev Hin).
    - simpl in Hin. repeat destruct Hin as [<-|Hin]; by eauto. }
  split; [done|].
  split; [by intros [l [=]]%Hlocks|].
  split; [by intros fn a [l [=]]%Hlocks|].
  split; [by rewrite Hkept, (proj1 (Hq (ks_world s)))|].
  split; [by rewrite Hfi, (proj2 (Hq (ks_world s)))|]. split; [done|].
  set (s' := {| ks_world := w0; ks_sp_fop := ks_sp_fop s |}).
  assert (d_bstart (ks_world s') = d_bstart (ks_world s)) as Hsame
    by (by cbn; rewrite Hkept, (proj1 (Hq (ks_world s)))).
  assert (start_rdonly sb (ks_world s')) as Hstart'
    by (unfold start_rdonly; by rewrite Hsame).
  assert (first_writable sb (d_bstart (ks_world s')) b) as Hfirst'
    by (by rewrite Hsame).
  destruct (au_do_open_sp_promote_calls sb s' b Hstart' Hfirst')
    as (_ & Hcalled).
  apply Hcalled. rewrite (proj1 (Hq (ks_world s'))), Hsame.
  by destruct Hfirst as [[_ ?] _].
Qed.

Lemma native_event_no_cpup_call t :
  Forall native_event t -> forall ev, In ev t -> cpup_call ev = None.
Proof.
  intros Ht ev Hin. rewrite Forall_forall in Ht.
  apply list_elem_of_In in Hin. specialize (Ht ev Hin). by destruct ev.
Qed.

(** Every copy-up call of [au_do_open_sp] names the first writable branch
    above a read-only start branch, and is made only if that branch is
    above the start branch read back under the exclusive dentry lock. *)
Lemma au_do_open_sp_cpup_guard sb s ev b :
  In ev (trace_of (au_do_open_sp sb s)) -> cpup_call ev = Some b ->
  start_rdonly sb (ks_world s) /\
  first_writable sb (d_bstart (ks_world s)) b /\
  b < d_bstart (di_relock (ks_world s)).
Proof.
  intros Hin Hc.
  assert (forall t, Forall native_event t -> In ev t -> False) as Hnat.
  { intros t Ht Hin'.
    pose proof (native_event_no_cpup_call _ Ht _ Hin'). congruence. }
  destruct (decide (0 <= d_bstart (ks_world s))) as [H0|Hneg]; cycle 1.
  { revert Hin. unfold au_do_open_sp, au_do_open_sp_cpup, au_sbr. mstep.
    destruct (d_bstart (ks_world s) <? 0) eqn:E; [|lia]. by mstep. }
  destruct (sb !! Z.to_nat (d_bstart (ks_world s))) as [br|] eqn:Hbr; cycle 1.
  { revert Hin. unfold au_do_open_sp, au_do_open_sp_cpup, au_sbr. mstep.
    destruct (d_bstart (ks_world s) <? 0) eqn:E; [lia|]. rewrite Hbr.
    by mstep. }
  destruct (au_br_rdonly br) eqn:Hro; cycle 1.
  { revert Hin.
    rewrite (au_do_open_sp_after_cpup _ _ _ _ _
               (au_do_open_sp_cpup_writable sb s br H0 Hbr Hro)).
    cbn [Z.eqb]. rewrite pre_nil. intros Hin.
    destruct (Hnat _ (au_do_open_sp_native_events s) Hin). }
  assert (start_rdonly sb (ks_world s)) as Hstart by (split; eauto).
  split; [done|].
  destruct (scan_bcpup_start sb s Hstart) as (b0 & _ & [[_ Hall]|Hfirst]).
  { revert Hin. by rewrite (au_do_open_sp_erofs_run sb s Hstart Hall). }
  destruct (au_do_open_sp_promote_calls sb s b0 Hstart Hfirst)
    as [Htarget _].
  by destruct (Htarget ev b Hin Hc) as [-> ?].
Qed.

(** An open whose start branch is not read-only makes no copy-up call. *)
Lemma au_do_open_sp_writable_no_cpup sb s br :
  0 <= d_bstart (ks_world s) ->
  sb !! Z.to_nat (d_bstart (ks_world s)) = Some br ->
  au_br_rdonly br = false ->
  forall ev, In ev (trace_of (au_do_open_sp sb s)) -> cpup_call ev = None.
Proof.
  intros H0 Hbr Hw ev Hin.
  destruct (cpup_call ev) as [b|] eqn:Hc; [|done].
  destruct (au_do_open_sp_cpup_guard sb s ev b Hin Hc)
    as ((_ & br' & Hbr' & Hro) & _). congruence.
Qed.

(** The calls of the simple copy-up on one way through [au_cpup_sp]: one,
    for the target, when the pin was acquired; none otherwise. *)
Lemma cpup_path_simple b w e w' t b' :
  cpup_path b w e w' t ->
  (count_occ event_eq_dec t (Call_au_sio_cpup_simple b') <= 1)%nat /\
  (count_occ event_eq_dec t (Call_au_sio_cpup_simple b') = 1%nat <->
     b' = b /\
     exists w0 t0, before_pin b w w0 t0 /\ fst (au_pin b w0) = 0).
Proof.
  assert (forall w0 t0, before_pin b w w0 t0 ->
            count_occ event_eq_dec t0 (Call_au_sio_cpup_simple b') = 0%nat)
    as Hbefore.
  { intros w0 t0 [(_ & _ & ->)|(_ & _ & _ & ->)]; [done|].
    by rewrite count_occ_cons_neq by discriminate. }
  intros [Hn Hf|w0 t0 Hb Hf|w0 t0 Hb Hf].
  - rewrite count_occ_cons_neq by discriminate. cbn [count_occ].
    split; [lia|]. split; [lia|].
    intros (_ & w0 & t0 & [(Hs & _)|(_ & Hz & _)] & _);
      [rewrite Hn in Hs; by destruct Hs|done].
  - rewrite count_occ_app, (Hbefore _ _ Hb).
    rewrite count_occ_cons_neq by discriminate. cbn [count_occ Nat.add].
    split; [lia|]. split; [lia|].
    intros (_ & w1 & t1 & Hb' & Hz).
    destruct (before_pin_det _ _ _ _ _ _ Hb Hb') as [-> _]. done.
  - rewrite count_occ_app, (Hbefore _ _ Hb).
    rewrite count_occ_cons_neq by discriminate.
    destruct (decide (b' = b)) as [->|Hne].
    + rewrite count_occ_cons_eq by reflexivity.
      rewrite count_occ_cons_neq by discriminate. cbn [count_occ Nat.add].
      split; [lia|]. split; [eauto|done].
    + rewrite count_occ_cons_neq by congruence.
      rewrite count_occ_cons_neq by discriminate. cbn [count_occ Nat.add].
      split; [lia|]. split; [lia|]. by intros [? _].
Qed.

(** The open when the first writable branch is still above the start branch
    read back under the exclusive dentry lock: [au_cpup_sp] runs for that
    branch between the lock operations, and the open goes on only if it
    returned 0. *)
Lemma au_do_open_sp_promote_run sb s b :
  start_rdonly sb (ks_world s) ->
  first_writable sb (d_bstart (ks_world s)) b ->
  b < d_bstart (di_relock (ks_world s)) ->
  exists e w' t t',
    cpup_path b (di_relock (ks_world s)) e w' t /\
    trace_of (au_do_open_sp sb s)
    = [Lock di_read_unlock; Lock di_write_lock_child;
       Call_dget_parent; Lock di_write_lock_parent] ++ t ++
      [Lock di_write_unlock; Call_dput; Lock di_downgrade_lock] ++ t' /\
    Forall native_event t' /\
    (e <> 0 -> ret_of (au_do_open_sp sb s) = Ret e /\ t' = []).
Proof.
  intros Hstart Hfirst Hlt.
  destruct (au_do_open_sp_cpup_promote sb s b Hstart Hfirst) as [Hup _].
  destruct (Hup Hlt) as (e & w' & t & Hpath & Hrun).
  rewrite (au_do_open_sp_after_cpup _ _ _ _ _ Hrun).
  exists e, w', t. destruct (e =? 0) eqn:E.
  - eexists. split; [exact Hpath|]. rewrite trace_of_pre.
    split; [by rewrite <- !app_assoc|].
    split; [apply au_do_open_sp_native_events|lia].
  - exists []. split; [exact Hpath|]. cbn [trace_of snd].
    split; [by rewrite app_nil_r|]. split; [constructor|done].
Qed.

(** An open calls the simple copy-up at most once for any branch, and
    exactly once for [b] when [b] is the first writable branch above a
    read-only start branch, is still above the start branch read back under
    the exclusive lock, and the pin on it was acquired. *)
Lemma au_do_open_sp_simple_count sb s b :
  let n := count_occ event_eq_dec (trace_of (au_do_open_sp sb s))
             (Call_au_sio_cpup_simple b) in
  (n <= 1)%nat /\
  (n = 1%nat <->
     start_rdonly sb (ks_world s) /\
     first_writable sb (d_bstart (ks_world s)) b /\
     b < d_bstart (di_relock (ks_world s)) /\
     exists w0 t0, before_pin b (di_relock (ks_world s)) w0 t0 /\
                   fst (au_pin b w0) = 0).
Proof.
  intros n. subst n.
  assert (forall t, Forall native_event t ->
            count_occ event_eq_dec t (Call_au_sio_cpup_simple b) = 0%nat)
    as Hnat.
  { intros t Ht. apply count_occ_not_In. intros Hin.
    pose proof (native_event_no_cpup_call _ Ht _ Hin). done. }
  assert (start_rdonly sb (ks_world s) ->
          first_writable sb (d_bstart (ks_world s)) b ->
          b < d_bstart (di_relock (ks_world s)) ->
          exists e w' t,
            cpup_path b (di_relock (ks_world s)) e w' t /\
            count_occ event_eq_dec (trace_of (au_do_open_sp sb s))
              (Call_au_sio_cpup_simple b)
            = count_occ event_eq_dec t (Call_au_sio_cpup_simple b))
    as Hshape.
  { intros Hstart Hfirst Hlt.
    destruct (au_do_open_sp_promote_run sb s b Hstart Hfirst Hlt)
      as (e & w' & t & t' & Hpath & -> & Ht' & _).
    exists e, w', t. split; [done|].
    rewrite !count_occ_app, (Hnat _ Ht').
    rewrite !count_occ_cons_neq by discriminate. cbn [count_occ]. lia. }
  assert ((0 < count_occ event_eq_dec (trace_of (au_do_open_sp sb s))
                 (Call_au_sio_cpup_simple b))%nat ->
          start_rdonly sb (ks_world s) /\
          first_writable sb (d_bstart (ks_world s)) b /\
          b < d_bstart (di_relock (ks_world s))) as Hguard.
  { intros Hpos. apply (count_occ_In event_eq_dec) in Hpos.
    by apply (au_do_open_sp_cpup_guard sb s _ b Hpos). }
  split; [|split].
  - destruct (decide (0 < count_occ event_eq_dec
                           (trace_of (au_do_open_sp sb s))
                           (Call_au_sio_cpup_simple b))%nat) as [Hpos|]; [|lia].
    destruct (Hguard Hpos) as (Hstart & Hfirst & Hlt).
    destruct (Hshape Hstart Hfirst Hlt) as (e & w' & t & Hpath & ->).
    apply (cpup_path_simple _ _ _ _ _ b Hpath).
  - intros H1. destruct (Hguard ltac:(lia)) as (Hstart & Hfirst & Hlt).
    do 3 (split; [done|]).
    destruct (Hshape Hstart Hfirst Hlt) as (e & w' & t & Hpath & Heq).
    rewrite Heq in H1.
    by destruct (proj1 (proj2 (cpup_path_simple _ _ _ _ _ b Hpath)) H1).
  - intros (Hstart & Hfirst & Hlt & Hpin).
    destruct (Hshape Hstart Hfirst Hlt) as (e & w' & t & Hpath & ->).
    by apply (cpup_path_simple _ _ _ _ _ b Hpath).
Qed.

(** C5.  In the open path every call of a copy-up step names the first
    writable branch above the read-only start branch and is made only when
    that branch is still above the start branch read back under the
    exclusive dentry lock; an open that finds the start branch already at
    the target after taking that lock (another task finished the same
    copy-up first) makes no copy-up call.  When the target is still above,
    the copy-up is performed: [au_cpup_sp] runs for it between the lock
    operations, and the open goes on only if it returned 0.  An open calls
    the simple copy-up at most once, and exactly once when the target is
    still above and the pin on it was acquired.  Any open of a dentry whose
    start branch is that target makes no copy-up call; and an open that
    copied up and returned 0 has left the start branch there. *)
Theorem au_do_open_sp_cpup_once sb s :
  let w := ks_world s in
  let r := au_do_open_sp sb s in
  (forall ev b, In ev (trace_of r) -> cpup_call ev = Some b ->
     first_writable sb (d_bstart w) b /\ b < d_bstart (di_relock w)) /\
  (forall b, first_writable sb (d_bstart w) b ->
     d_bstart (di_relock w) <= b ->
     forall ev, In ev (trace_of r) -> cpup_call ev = None) /\
  (forall b, start_rdonly sb w -> first_writable sb (d_bstart w) b ->
     b < d_bstart (di_relock w) ->
     exists e w' t t',
       cpup_path b (di_relock w) e w' t /\
       trace_of r
       = [Lock di_read_unlock; Lock di_write_lock_child;
          Call_dget_parent; Lock di_write_lock_parent] ++ t ++
         [Lock di_write_unlock; Call_dput; Lock di_downgrade_lock] ++ t' /\
       Forall native_event t' /\
       (e <> 0 -> ret_of r = Ret e /\ t' = [])) /\
  (forall b,
     (count_occ event_eq_dec (trace_of r) (Call_au_sio_cpup_simple b)
        <= 1)%nat /\
     (count_occ event_eq_dec (trace_of r) (Call_au_sio_cpup_simple b) = 1%nat
      <-> start_rdonly sb w /\ first_writable sb (d_bstart w) b /\
          b < d_bstart (di_relock w) /\
          exists w0 t0, before_pin b (di_relock w) w0 t0 /\
                        fst (au_pin b w0) = 0)) /\
  (forall b s2, first_writable sb (d_bstart w) b ->
     d_bstart (ks_world s2) = b ->
     forall ev, In ev (trace_of (au_do_open_sp sb s2)) ->
       cpup_call ev = None) /\
  (spec_contract X ->
   forall b, start_rdonly sb w -> first_writable sb (d_bstart w) b ->
     b < d_bstart (di_relock w) -> ret_of r = Ret 0 ->
     count_occ event_eq_dec (trace_of r) (Call_au_sio_cpup_simple b) = 1%nat /\
     d_bstart (world_of r) = b /\
     forall s2, d_bstart (ks_world s2) = d_bstart (world_of r) ->
       forall ev, In ev (trace_of (au_do_open_sp sb s2)) ->
         cpup_call ev = None).
Proof.
  intros w r. subst w r.
  assert (forall b s2, first_writable sb (d_bstart (ks_world s)) b ->
            d_bstart (ks_world s2) = b ->
            forall ev, In ev (trace_of (au_do_open_sp sb s2)) ->
              cpup_call ev = None) as Hsecond.
  { intros b s2 (Hr & (br & Hbr & Hw) & _) Hs2.
    apply (au_do_open_sp_writable_no_cpup sb s2 br); rewrite ?Hs2;
      [lia|done..]. }
  split; [|split; [|split; [|split; [|split; [exact Hsecond|]]]]].
  - intros ev b Hin Hc.
    by destruct (au_do_open_sp_cpup_guard sb s ev b Hin Hc) as (_ & ? & ?).
  - intros b Hfirst Hge ev Hin.
    destruct (cpup_call ev) as [b'|] eqn:Hc; [|done].
    destruct (au_do_open_sp_cpup_guard sb s ev b' Hin Hc) as (_ & Hf & Hlt).
    rewrite (first_writable_unique _ _ _ _ Hf Hfirst) in Hlt. lia.
  - intros b. apply au_do_open_sp_promote_run.
  - intros b. apply au_do_open_sp_simple_count.
  - intros HX b Hstart Hfirst Hlt.
    destruct (au_do_open_sp_cpup_promote sb s b Hstart Hfirst) as [Hup _].
    destruct (Hup Hlt) as (e & w' & t & Hpath & Hrun).
    rewrite (au_do_open_sp_after_cpup _ _ _ _ _ Hrun).
    destruct (cpup_path_calls _ _ _ _ _ Hpath) as (_ & _ & _ & Hcount).
    destruct (cpup_path_contract _ _ _ _ _ HX Hpath) as (_ & Hmoved & _).
    destruct (e =? 0) eqn:E; [|intros [= ->]; lia].
    apply Z.eqb_eq in E. subst e.
    rewrite ret_of_pre, trace_of_pre, world_of_pre. intros Hret.
    set (s1 := {| ks_world := w'; ks_sp_fop := ks_sp_fop s |}) in *.
    destruct (au_do_open_sp_native_bstart s1 HX Hret) as [Hd _].
    rewrite Hd. cbn [s1 ks_world]. rewrite (Hmoved eq_refl).
    split; [|split; [done|]].
    + rewrite !count_occ_app, (Hcount eq_refl).
      rewrite (proj1 (count_occ_not_In event_eq_dec
                        (trace_of (au_do_open_sp_native s1)) _)); [done|].
      intros Hin.
      pose proof (native_event_no_cpup_call _
                    (au_do_open_sp_native_events s1) _ Hin). done.
    + intros s2 Hs2. by apply (Hsecond b s2).
Qed.

End Open.

Section Mode.
Context `{X : Collaborators}.

Lemma world_of_state_of {A} (x : result A * kstate * list event) :
  world_of x = ks_world (state_of x).
Proof. reflexivity. Qed.

Lemma land_3_cases mode :
  let m := Z.land mode 3 in
  (m = 0 \/ m = 1 \/ m = 2 \/ m = 3) /\
  Z.land mode 1 = Z.land m 1 /\ Z.land mode 2 = Z.land m 2.
Proof.
  intros m. subst m. split.
  - assert (Z.land mode 3 = mode mod 4) as ->
      by (change 3 with (Z.ones 2); by rewrite Z.land_ones).
    pose proof (Z.mod_pos_bound mode 4 ltac:(lia)). lia.
  - by rewrite <- !Z.land_assoc.
Qed.

(** The switch of [au_init_fop_sp] in terms of the two flags. *)
Lemma au_sp_index_flags mode :
  au_sp_index mode =
    match has_flag mode FMODE_READ, has_flag mode FMODE_WRITE with
    | true, false => Some AuSp_FIFO_R
    | false, true => Some AuSp_FIFO_W
    | true, true => Some AuSp_FIFO_RW
    | false, false => None
    end.
Proof.
  unfold au_sp_index, has_flag, FMODE_READ, FMODE_WRITE.
  change (Z.lor 1 2) with 3.
  destruct (land_3_cases mode) as (Hm & -> & ->).
  by destruct Hm as [-> | [-> | [-> | ->]]].
Qed.

Lemma au_init_fop_sp_first_Ret s :
  length (ks_sp_fop s) = 4%nat -> ret_of (au_init_fop_sp_first s) = Ret tt.
Proof.
  destruct s as [w tbl]. cbn [ks_sp_fop]. intros Hlen.
  destruct tbl as [|p0 [|p1 [|p2 [|p3 [|]]]]]; try done.
  destruct p0 as [[] f0 l0];
    unfold au_init_fop_sp_first, au_init_fop_sp_first_locked; mstep; cbn;
    [done|]. by repeat (mstep; cbn).
Qed.

(** [au_init_fop_sp] reaches [BUG()] when neither flag is set, and only
    then. *)
Lemma au_init_fop_sp_BUG s :
  (au_sp_index (f_mode (ks_world s)) <> None ->
   ret_of (au_init_fop_sp s) <> Crash BUG) /\
  (au_sp_index (f_mode (ks_world s)) = None ->
   length (ks_sp_fop s) = 4%nat ->
   ret_of (au_init_fop_sp s) = Crash BUG /\
   f_op (world_of (au_init_fop_sp s)) = f_op (ks_world s)).
Proof.
  destruct (au_init_fop_sp_first_respects s) as (HR & _ & _ & HC).
  assert (f_mode (world_of (au_init_fop_sp_first s)) = f_mode (ks_world s))
    as Hmode by (by rewrite <- HR).
  unfold au_init_fop_sp. split.
  - intros Hidx.
    destruct (ret_of (au_init_fop_sp_first s)) as [[]|c] eqn:Hfirst;
      [|rewrite (bind_Crash _ _ _ c Hfirst); intros [= ->]; by apply (HC BUG)].
    rewrite (bind_Ret _ _ _ tt Hfirst), ret_of_pre. mstep.
    rewrite world_of_state_of in Hmode. rewrite Hmode.
    destruct (au_sp_index (f_mode (ks_world s))) as [i|]; [|done].
    mstep. destruct (_ !! i) as [p|]; [|done].
    destruct (negb (sp_done p)); unfold au_h_fptr; mstep; [|by mdone].
    set (m := au_init_fop_sp_locked i _).
    destruct (au_init_fop_sp_locked_respects i
                (fi_hfile (ks_world (state_of (au_init_fop_sp_first s)))
                 !! fi_bstart (ks_world (state_of (au_init_fop_sp_first s))))
                (state_of (au_init_fop_sp_first s))) as (_ & _ & _ & HC').
    fold m in HC'.
    destruct (ret_of (m _)) as [[]|c] eqn:Hm.
    + rewrite (bind_Ret _ _ _ tt Hm). by mdone.
    + rewrite (bind_Crash _ _ _ c Hm). intros [= ->]. by apply (HC' BUG).
  - intros Hidx Hlen.
    rewrite (bind_Ret _ _ _ tt (au_init_fop_sp_first_Ret s Hlen)).
    rewrite ret_of_pre, world_of_pre. mstep.
    rewrite world_of_state_of in Hmode. rewrite Hmode, Hidx. mdone.
    split; [done|]. by rewrite HR.
Qed.

(** When [au_do_open_sp] returns 0 the copy-up block returned 0 and the
    rest of the run is [au_do_open_sp_native]. *)
Lemma au_do_open_sp_Ret_0 sb s :
  ret_of (au_do_open_sp sb s) = Ret 0 ->
  exists s1 t1,
    au_do_open_sp_cpup sb s = (Ret 0, s1, t1) /\
    au_do_open_sp sb s = pre t1 (au_do_open_sp_native s1) /\
    ret_of (au_do_open_sp_native s1) = Ret 0.
Proof.
  destruct (au_do_open_sp_cpup sb s) as [[[e|c] s1] t1] eqn:Hc.
  - rewrite (au_do_open_sp_after_cpup _ _ _ _ _ Hc).
    destruct (e =? 0) eqn:E; [|intros [= ->]; lia].
    apply Z.eqb_eq in E. subst e. rewrite ret_of_pre. intros Hret.
    by exists s1, t1.
  - unfold au_do_open_sp. rewrite (bind_Crash _ _ _ c); by rewrite Hc.
Qed.

(** C10.  The switch on the access mode selects the read-only, write-only
    or read-write slot according to the two flags and reaches [BUG()] when
    neither is set; with a flag set [au_init_fop_sp] does not reach
    [BUG()], with none set it does, selecting no table; and every file for
    which [au_do_open_sp] returned 0 has a flag set and carries the table
    of its access mode. *)
Theorem au_init_fop_sp_access_mode :
  (forall mode,
     au_sp_index mode =
       match has_flag mode FMODE_READ, has_flag mode FMODE_WRITE with
       | true, false => Some AuSp_FIFO_R
       | false, true => Some AuSp_FIFO_W
       | true, true => Some AuSp_FIFO_RW
       | false, false => None
       end) /\
  (forall s,
     has_flag (f_mode (ks_world s)) FMODE_READ
     || has_flag (f_mode (ks_world s)) FMODE_WRITE = true ->
     ret_of (au_init_fop_sp s) <> Crash BUG) /\
  (forall s,
     has_flag (f_mode (ks_world s)) FMODE_READ
     || has_flag (f_mode (ks_world s)) FMODE_WRITE = false ->
     length (ks_sp_fop s) = 4%nat ->
     ret_of (au_init_fop_sp s) = Crash BUG /\
     f_op (world_of (au_init_fop_sp s)) = f_op (ks_world s)) /\
  (forall sb s,
     ret_of (au_do_open_sp sb s) = Ret 0 ->
     let w' := world_of (au_do_open_sp sb s) in
     has_flag (f_mode w') FMODE_READ || has_flag (f_mode w') FMODE_WRITE
       = true /\
     exists i, au_sp_index (f_mode w') = Some i /\
               f_op w' = Some (addr_au_sp_fop i)).
Proof.
  split; [apply au_sp_index_flags|]. split; [|split].
  - intros s Hflag. apply au_init_fop_sp_BUG. rewrite au_sp_index_flags.
    by destruct (has_flag _ FMODE_READ), (has_flag _ FMODE_WRITE).
  - intros s Hflag. apply au_init_fop_sp_BUG. rewrite au_sp_index_flags.
    by destruct (has_flag _ FMODE_READ), (has_flag _ FMODE_WRITE).
  - intros sb s Hret w'. subst w'.
    destruct (au_do_open_sp_Ret_0 sb s Hret) as (s1 & t1 & _ & -> & Hnat).
    rewrite world_of_pre.
    destruct (au_do_open_sp_native_ok s1 Hnat)
      as (hf & fn & _ & _ & _ & _ & Hinit & Hst & _).
    rewrite world_of_state_of, Hst, <- world_of_state_of.
    destruct (au_init_fop_sp_Ret _ Hinit) as (i & Hidx & Hop).
    destruct (au_init_fop_sp_respects
      {| ks_world := snd (h_call fn (Args_open Aufs_file)
                            (snd (au_do_open_nondir (ks_world s1))));
         ks_sp_fop := ks_sp_fop s1 |}) as (HR & _).
    apply same_but_f_op_fields in HR as (_ & Hmode & _).
    rewrite Hmode. split; [|by exists i].
    rewrite au_sp_index_flags in Hidx.
    by destruct (has_flag _ FMODE_READ), (has_flag _ FMODE_WRITE).
Qed.

End Mode.

Section Cache.

Lemma au_init_fop_sp_locked_done i h s p :
  ks_sp_fop s !! i = Some p -> sp_done p = true ->
  au_init_fop_sp_locked i h s
  = (Ret tt, s, [Lock (spin_lock_slot i); Lock (spin_unlock_slot i)]).
Proof.
  intros Hi Hd. unfold au_init_fop_sp_locked. mstep. rewrite Hi, Hd.
  cbn [negb]. mstep. by mdone.
Qed.

Lemma au_init_fop_sp_locked_copy i hf fop s p :
  ks_sp_fop s !! i = Some p -> sp_done p = false ->
  h_f_op hf = Some fop ->
  au_init_fop_sp_locked i (Some hf) s
  = (Ret tt,
     {| ks_world := ks_world s;
        ks_sp_fop := <[i := {| sp_done := true; sp_fop := au_sp_fop_of fop;
                               sp_spin := sp_spin p |}]> (ks_sp_fop s) |},
     [Lock (spin_lock_slot i); Fop_copy i; Lock (spin_unlock_slot i)]).
Proof.
  intros Hi Hd Hf. unfold au_init_fop_sp_locked. mstep. rewrite Hi, Hd.
  cbn [negb]. mstep. rewrite Hf. mstep. by mdone.
Qed.

(** One locked block copies into slot [i] at most once, not at all when the
    flag of slot [i] is set, and sets the flag when it copies. *)
Lemma au_init_fop_sp_locked_count j h s i :
  let r := au_init_fop_sp_locked j h s in
  let n := count_occ event_eq_dec (trace_of r) (Fop_copy i) in
  (n <= 1)%nat /\
  (slot_done (ks_sp_fop s) i -> n = 0%nat) /\
  (n = 1%nat -> slot_done (ks_sp_fop (state_of r)) i).
Proof.
  intros r n. subst r n. unfold au_init_fop_sp_locked. mstep.
  destruct (ks_sp_fop s !! j) as [p|] eqn:Hj; [|mdone; simpl; lia].
  destruct (sp_done p) eqn:Hd; cbn [negb]; mstep.
  { mdone. simpl. lia. }
  destruct h as [hf|]; [|mdone; simpl; lia].
  mstep. destruct (h_f_op hf) as [fop|]; [|mdone; simpl; lia].
  mstep. mdone.
  rewrite count_occ_cons_neq by discriminate.
  destruct (decide (j = i)) as [->|Hne].
  - rewrite count_occ_cons_eq by reflexivity.
    rewrite count_occ_cons_neq by discriminate.
    cbn [count_occ]. split; [lia|]. split.
    + intros (q & Hq & Hqd). congruence.
    + intros _. eexists. split.
      * rewrite list_lookup_insert_eq; [done|]. by eapply lookup_lt_Some.
      * done.
  - rewrite count_occ_cons_neq by congruence.
    rewrite count_occ_cons_neq by discriminate. cbn [count_occ]. split; [lia|].
    split; [done|lia].
Qed.

Lemma slot_done_frozen tbl tbl' i :
  done_frozen tbl tbl' -> slot_done tbl i -> slot_done tbl' i.
Proof.
  intros [_ H] (p & Hp & Hd). destruct (H i p Hp Hd) as (p' & ? & ? & _).
  by exists p'.
Qed.

(** [au_init_fop_sp] copies into slot [i] at most once, not at all when
    the flag of slot [i] is set, and sets the flag when it copies. *)
Lemma au_init_fop_sp_count s i :
  let r := au_init_fop_sp s in
  let n := count_occ event_eq_dec (trace_of r) (Fop_copy i) in
  (n <= 1)%nat /\
  (slot_done (ks_sp_fop s) i -> n = 0%nat) /\
  (n = 1%nat -> slot_done (ks_sp_fop (state_of r)) i).
Proof.
  intros r n. subst r n. unfold au_init_fop_sp.
  destruct (au_init_fop_sp_first_respects s) as (_ & HT & HE & _).
  assert (count_occ event_eq_dec (trace_of (au_init_fop_sp_first s))
            (Fop_copy i) = 0%nat) as Hfirst0.
  { apply count_occ_not_In. intros Hin. rewrite Forall_forall in HE.
    apply list_elem_of_In in Hin. by destruct (HE _ Hin). }
  destruct (ret_of (au_init_fop_sp_first s)) as [[]|c] eqn:Hfirst;
    [|rewrite (bind_Crash _ _ _ c Hfirst); cbn [trace_of snd];
      rewrite Hfirst0; split; [lia|split; [done|lia]]].
  rewrite (bind_Ret _ _ _ tt Hfirst), trace_of_pre, state_of_pre.
  rewrite count_occ_app, Hfirst0. cbn [Nat.add].
  set (s1 := state_of (au_init_fop_sp_first s)) in *.
  assert (slot_done (ks_sp_fop s) i -> slot_done (ks_sp_fop s1) i) as Hkeep
    by apply slot_done_frozen, HT.
  mstep. destruct (au_sp_index _) as [j|]; [|mdone; simpl; lia].
  mstep. destruct (ks_sp_fop s1 !! j) as [p|] eqn:Hj; [|mdone; simpl; lia].
  destruct (sp_done p) eqn:Hd; cbn [negb]; mstep; [mdone; simpl; lia|].
  unfold au_h_fptr. mstep.
  set (h := fi_hfile (ks_world s1) !! fi_bstart (ks_world s1)).
  destruct (au_init_fop_sp_locked_count j h s1 i) as (Hle & Hzero & Hone).
  destruct (ret_of (au_init_fop_sp_locked j h s1)) as [[]|c] eqn:Hl.
  - rewrite (bind_Ret _ _ _ tt Hl), trace_of_pre, state_of_pre.
    cbn [trace_of state_of fst snd on_world ks_sp_fop]. rewrite app_nil_r.
    split; [done|]. split; [auto|done].
  - rewrite (bind_Crash _ _ _ c Hl). cbn [trace_of state_of fst snd].
    split; [done|]. split; [auto|done].
Qed.

(** Over any sequence of opens a slot is copied into at most once, and
    never once its flag is set. *)
Lemma run_inits_count ws tbl i :
  let n := count_occ event_eq_dec (snd (run_inits ws tbl)) (Fop_copy i) in
  (n <= 1)%nat /\ (slot_done tbl i -> n = 0%nat).
Proof.
  revert tbl. induction ws as [|w ws IH]; intros tbl; cbn [run_inits snd].
  - cbn. lia.
  - rewrite count_occ_app.
    set (s := {| ks_world := w; ks_sp_fop := tbl |}).
    destruct (au_init_fop_sp_count s i) as (Hle & Hzero & Hone).
    destruct (IH (ks_sp_fop (state_of (au_init_fop_sp s)))) as (Hle' & Hzero').
    destruct (au_init_fop_sp_respects s) as (_ & HT & _).
    split.
    + destruct (decide (count_occ event_eq_dec
                          (trace_of (au_init_fop_sp s))
                          (Fop_copy i) = 1%nat)) as [H1|H1].
      * rewrite Hzero' by auto. lia.
      * lia.
    + intros Hd. rewrite Hzero by done. rewrite Hzero'; [done|].
      by eapply slot_done_frozen.
Qed.

Lemma au_init_fop_sp_first_locked_respects :
  respects eq done_frozen first_event not_BUG au_init_fop_sp_first_locked.
Proof.
  unfold au_init_fop_sp_first_locked.
  apply respects_bind; [by apply respects_tick|]. intros _.
  apply respects_bind; [by apply respects_get_slot|]. intros p'.
  apply respects_bind; [|intros _; by apply respects_tick].
  destruct (negb (sp_done p')); [|apply respects_ret].
  apply respects_bind; [apply spin_lock_init_all_respects|]. intros _.
  intros s. rewrite bind_get_slot.
  destruct (ks_sp_fop s !! AuSp_FIFO) as [q|] eqn:Hq.
  - split; [reflexivity|split; [|split; [constructor|done]]]. simpl.
    by eapply done_frozen_insert.
  - clear Hq. revert s. by apply respects_oops.
Qed.

(** A locked block that returns leaves the flag of its slot set. *)
Lemma au_init_fop_sp_locked_sets i h s s' tr :
  au_init_fop_sp_locked i h s = (Ret tt, s', tr) ->
  slot_done (ks_sp_fop s') i.
Proof.
  unfold au_init_fop_sp_locked. mstep.
  destruct (ks_sp_fop s !! i) as [p|] eqn:Hi; [|done].
  destruct (sp_done p) eqn:Hd; cbn [negb]; mstep.
  { mdone. intros [= <- _]. by exists p. }
  destruct h as [hf|]; [|done]. mstep.
  destruct (h_f_op hf) as [fop|]; [|done]. mstep. mdone.
  intros [= <- _]. eexists. split.
  - cbn. rewrite list_lookup_insert_eq; [done|]. by eapply lookup_lt_Some.
  - done.
Qed.

(** What one step does to the table and to the count of copies. *)
Lemma step_table σ tr σ' i :
  step σ tr σ' ->
  done_frozen (sys_tbl σ) (sys_tbl σ') /\
  (count_occ event_eq_dec tr (Fop_copy i) <= 1)%nat /\
  (slot_done (sys_tbl σ) i -> count_occ event_eq_dec tr (Fop_copy i) = 0%nat) /\
  (count_occ event_eq_dec tr (Fop_copy i) = 1%nat -> slot_done (sys_tbl σ') i).
Proof.
  intros [k t p Hk Hpc Hp|k t s' tr' Hk Hpc Hrun|k t j p Hk Hpc Hj Hp
         |k t j s' tr' Hk Hpc Hj Hrun|k t j Hk Hpc Hj]; cbn [put_task sys_tbl].
  - split; [reflexivity|]. cbn. lia.
  - destruct (au_init_fop_sp_first_locked_respects (task_state t (sys_tbl σ)))
      as (_ & HT & HE & _).
    rewrite Hrun in HT, HE. cbn in HT, HE. split; [done|].
    assert (count_occ event_eq_dec tr' (Fop_copy i) = 0%nat) as ->.
    { apply count_occ_not_In. intros Hin. rewrite Forall_forall in HE.
      apply list_elem_of_In in Hin. by destruct (HE _ Hin). }
    split; [lia|]. split; [done|lia].
  - split; [reflexivity|]. cbn. lia.
  - destruct (au_init_fop_sp_locked_respects j
                (fi_hfile (t_world t) !! fi_bstart (t_world t))
                (task_state t (sys_tbl σ))) as (_ & HT & _).
    destruct (au_init_fop_sp_locked_count j
                (fi_hfile (t_world t) !! fi_bstart (t_world t))
                (task_state t (sys_tbl σ)) i) as (Hle & Hzero & Hone).
    rewrite Hrun in HT, Hle, Hzero, Hone. cbn in HT, Hle, Hzero, Hone.
    done.
  - split; [reflexivity|]. cbn. lia.
Qed.

(** One step keeps every task in order. *)
Lemma step_ok σ tr σ' : step σ tr σ' -> sys_ok σ -> sys_ok σ'.
Proof.
  intros Hstep Hok.
  pose proof (fun i => proj1 (step_table σ tr σ' i Hstep)) as Hfrozen.
  assert (forall k t, sys_tasks σ !! k = Some t ->
            task_ok (sys_tbl σ') t) as Hold.
  { intros k t Hk i Hi. destruct (Hok k t Hk i Hi) as [H1 H2].
    split; [|done]. intros Hpc. eapply slot_done_frozen; [apply (Hfrozen i)|].
    auto. }
  assert (forall (k : nat) t', task_ok (sys_tbl σ') t' ->
            forall k0 t0, <[k:=t']> (sys_tasks σ) !! k0 = Some t0 ->
              task_ok (sys_tbl σ') t0) as Hput.
  { intros k t' Ht' k0 t0 Hk0.
    destruct (decide (k = k0)) as [->|Hne].
    - destruct (decide (k0 < length (sys_tasks σ))%nat) as [Hlt|Hge].
      + rewrite list_lookup_insert_eq in Hk0 by done.
        injection Hk0 as <-. exact Ht'.
      + rewrite list_insert_ge in Hk0 by lia. eapply Hold, Hk0.
    - rewrite list_lookup_insert_ne in Hk0 by done. eapply Hold, Hk0. }
  destruct Hstep as [k t p Hk Hpc Hp|k t s' tr' Hk Hpc Hrun|k t j p Hk Hpc Hj Hp
         |k t j s' tr' Hk Hpc Hj Hrun|k t j Hk Hpc Hj];
    intros k0 t0 Hk0; cbn [put_task sys_tbl sys_tasks] in *;
    (eapply (Hput k); [|exact Hk0]).
  - intros i Hi. cbn. destruct (sp_done p); (split; [intros [|]; done|done]).
  - intros i Hi. cbn. split; [intros [|]; done|done].
  - intros i Hi. cbn in *. assert (i = j) as -> by congruence.
    destruct (sp_done p) eqn:Hd; (split; [|done]); [|intros [|]; done].
    intros _. by exists p.
  - intros i Hi. cbn in *. assert (i = j) as -> by congruence.
    split; [|done]. intros _. eapply au_init_fop_sp_locked_sets, Hrun.
  - intros i Hi. cbn in *. assert (i = j) as -> by congruence.
    split; [|done]. intros _. destruct (Hok k t Hk j Hj) as [H1 _]. auto.
Qed.

(** Over any interleaving: slots whose flag is set keep their table, each
    slot is copied into at most once and never after its flag is set, and
    the tasks stay in order. *)
Lemma steps_table σ tr σ' i :
  steps σ tr σ' ->
  done_frozen (sys_tbl σ) (sys_tbl σ') /\
  (count_occ event_eq_dec tr (Fop_copy i) <= 1)%nat /\
  (slot_done (sys_tbl σ) i -> count_occ event_eq_dec tr (Fop_copy i) = 0%nat) /\
  (sys_ok σ -> sys_ok σ').
Proof.
  induction 1 as [σ|σ tr σ' tr' σ'' Hstep Hsteps IH].
  - split; [reflexivity|]. cbn. split; [lia|done].
  - destruct (step_table _ _ _ i Hstep) as (HT & Hle & Hzero & Hone).
    destruct IH as (HT' & Hle' & Hzero' & Hok').
    split; [by etransitivity|]. rewrite count_occ_app.
    split; [|split].
    + destruct (decide (count_occ event_eq_dec tr (Fop_copy i) = 1%nat))
        as [H1|H1]; [rewrite Hzero' by auto|]; lia.
    + intros Hd. rewrite Hzero by done. rewrite Hzero'; [done|].
      by eapply slot_done_frozen.
    + intros Hok. by eapply Hok', step_ok.
Qed.


Lemma steps_one σ tr σ' : step σ tr σ' -> steps σ tr σ'.
Proof.
  intros H. rewrite <- (app_nil_r tr). eapply steps_step; [done|constructor].
Qed.

Lemma steps_app σ tr σ' tr' σ'' :
  steps σ tr σ' -> steps σ' tr' σ'' -> steps σ (tr ++ tr') σ''.
Proof.
  induction 1 as [|σ0 t0 σ1 t1 σ2 Hstep Hsteps IH]; [done|].
  intros H. rewrite <- app_assoc. eapply steps_step; [done|auto].
Qed.

(** A task that runs alone takes the steps of [au_init_fop_sp]: whenever
    the function returns, the steps lead from its start to its end with the
    same events, table and file. *)
Lemma au_init_fop_sp_steps s s' tr :
  au_init_fop_sp s = (Ret tt, s', tr) ->
  steps
    {| sys_tbl := ks_sp_fop s;
       sys_tasks := [ {| t_world := ks_world s; t_pc := At_first_check |} ] |}
    tr
    {| sys_tbl := ks_sp_fop s';
       sys_tasks := [ {| t_world := ks_world s'; t_pc := At_end |} ] |}.
Proof.
  destruct s as [w tbl]. cbn [ks_world ks_sp_fop].
  unfold au_init_fop_sp, au_init_fop_sp_first. mstep. cbn [ks_sp_fop].
  destruct (tbl !! AuSp_FIFO) as [p0|] eqn:Hp0; [|done].
  (* the first block *)
  assert ((exists tbl1 tr1,
    steps {| sys_tbl := tbl;
             sys_tasks := [ {| t_world := w; t_pc := At_first_check |} ] |}
      tr1
      {| sys_tbl := tbl1;
         sys_tasks := [ {| t_world := w; t_pc := At_check |} ] |} /\
    (if negb (sp_done p0) then au_init_fop_sp_first_locked else ret tt)
      {| ks_world := w; ks_sp_fop := tbl |}
    = (Ret tt, {| ks_world := w; ks_sp_fop := tbl1 |}, tr1)) \/
    exists c, ret_of ((if negb (sp_done p0)
                       then au_init_fop_sp_first_locked else ret tt)
                        {| ks_world := w; ks_sp_fop := tbl |}) = Crash c)
    as Hfirst.
  { destruct (sp_done p0) eqn:Hd0; cbn [negb].
    - left. exists tbl, []. split; [|done].
      apply steps_one.
      pose proof (step_first_check
        {| sys_tbl := tbl;
           sys_tasks := [ {| t_world := w; t_pc := At_first_check |} ] |}
        0%nat _ p0 eq_refl eq_refl Hp0) as H.
      by rewrite Hd0 in H.
    - destruct (au_init_fop_sp_first_locked
                  {| ks_world := w; ks_sp_fop := tbl |})
        as [[[[]|c] [w1 tbl1]] tr1] eqn:Hrun; [left|right; by exists c].
      destruct (au_init_fop_sp_first_locked_respects
                  {| ks_world := w; ks_sp_fop := tbl |}) as (HR & _).
      rewrite Hrun in HR. cbn in HR.
      subst w1.
      exists tbl1, ([] ++ tr1 ++ []). rewrite app_nil_r. split; [|done].
      eapply steps_step.
      { pose proof (step_first_check
          {| sys_tbl := tbl;
             sys_tasks := [ {| t_world := w; t_pc := At_first_check |} ] |}
          0%nat _ p0 eq_refl eq_refl Hp0) as H.
        rewrite Hd0 in H. exact H. }
      apply steps_one.
      apply (step_first_locked
        {| sys_tbl := tbl;
           sys_tasks := [ {| t_world := w; t_pc := At_first_lock |} ] |}
        0%nat {| t_world := w; t_pc := At_first_lock |}
        {| ks_world := w; ks_sp_fop := tbl1 |} tr1 eq_refl eq_refl Hrun). }
  destruct Hfirst as [(tbl1 & tr1 & Hsteps1 & Hrun1)|[c Hc]];
    [|by rewrite (bind_Crash _ _ _ c Hc)].
  rewrite (bind_Ret _ _ _ tt); rewrite Hrun1; [|done].
  cbn [trace_of state_of fst snd]. mstep. cbn [ks_world ks_sp_fop].
  destruct (au_sp_index (f_mode w)) as [i|] eqn:Hidx; [|done].
  mstep. cbn [ks_sp_fop]. destruct (tbl1 !! i) as [p|] eqn:Hp; [|done].
  destruct (sp_done p) eqn:Hd; cbn [negb]; mstep; unfold au_h_fptr; mstep.
  - mdone. intros [= <- <-]. cbn [ks_world ks_sp_fop]. rewrite app_nil_r.
    rewrite <- (app_nil_r tr1). eapply steps_app; [exact Hsteps1|].
    change (@nil event) with (@nil event ++ [] ++ []).
    eapply steps_step.
    { pose proof (step_check
        {| sys_tbl := tbl1;
           sys_tasks := [ {| t_world := w; t_pc := At_check |} ] |}
        0%nat _ i p eq_refl eq_refl Hidx Hp) as H.
      rewrite Hd in H. exact H. }
    apply steps_one.
    apply (step_store
      {| sys_tbl := tbl1;
         sys_tasks := [ {| t_world := w; t_pc := At_store |} ] |}
      0%nat {| t_world := w; t_pc := At_store |} i eq_refl eq_refl Hidx).
  - cbn [ks_world].
    destruct (au_init_fop_sp_locked i (fi_hfile w !! fi_bstart w)
                {| ks_world := w; ks_sp_fop := tbl1 |})
      as [[[[]|c] [w2 tbl2]] tr2] eqn:Hrun2;
      [|rewrite (bind_Crash _ _ _ c); by rewrite Hrun2].
    rewrite (bind_Ret _ _ _ tt); rewrite Hrun2; [|done]. mdone.
    intros [= <- <-]. cbn [ks_world ks_sp_fop].
    destruct (au_init_fop_sp_locked_respects i (fi_hfile w !! fi_bstart w)
                {| ks_world := w; ks_sp_fop := tbl1 |}) as (HR & _).
    rewrite Hrun2 in HR. cbn in HR.
    subst w2.
    rewrite app_nil_r. eapply steps_app; [exact Hsteps1|].
    change tr2 with ([] ++ tr2). eapply steps_step.
    { pose proof (step_check
        {| sys_tbl := tbl1;
           sys_tasks := [ {| t_world := w; t_pc := At_check |} ] |}
        0%nat _ i p eq_refl eq_refl Hidx Hp) as H.
      rewrite Hd in H. exact H. }
    rewrite <- (app_nil_r tr2). eapply steps_step.
    { apply (step_locked
        {| sys_tbl := tbl1;
           sys_tasks := [ {| t_world := w; t_pc := At_lock |} ] |}
        0%nat {| t_world := w; t_pc := At_lock |} i
        {| ks_world := w; ks_sp_fop := tbl2 |} tr2 eq_refl eq_refl Hidx Hrun2). }
    apply steps_one.
    apply (step_store
      {| sys_tbl := tbl2;
         sys_tasks := [ {| t_world := w; t_pc := At_store |} ] |}
      0%nat {| t_world := w; t_pc := At_store |} i eq_refl eq_refl Hidx).
Qed.

(** When [au_init_fop_sp] returns, the slot of the access mode has its flag
    set and [file->f_op] points at its table. *)
Lemma au_init_fop_sp_installs s :
  ret_of (au_init_fop_sp s) = Ret tt ->
  exists i, au_sp_index (f_mode (ks_world s)) = Some i /\
            f_op (world_of (au_init_fop_sp s)) = Some (addr_au_sp_fop i) /\
            slot_done (ks_sp_fop (state_of (au_init_fop_sp s))) i.
Proof.
  intros Hret. destruct (au_init_fop_sp_Ret s Hret) as (i & Hidx & Hop).
  exists i. split; [done|]. split; [done|].
  revert Hret. unfold au_init_fop_sp.
  destruct (au_init_fop_sp_first_respects s) as (HR & _).
  assert (f_mode (world_of (au_init_fop_sp_first s)) = f_mode (ks_world s))
    as Hmode by (by rewrite <- HR).
  rewrite world_of_state_of in Hmode.
  destruct (ret_of (au_init_fop_sp_first s)) as [[]|c] eqn:Hfirst;
    [|by rewrite (bind_Crash _ _ _ c Hfirst)].
  rewrite (bind_Ret _ _ _ tt Hfirst), ret_of_pre, state_of_pre.
  set (s1 := state_of (au_init_fop_sp_first s)) in *.
  mstep. rewrite Hmode, Hidx. mstep.
  destruct (ks_sp_fop s1 !! i) as [p|] eqn:Hi; [|done].
  destruct (sp_done p) eqn:Hd; cbn [negb]; mstep.
  { intros _. mdone. by exists p. }
  unfold au_h_fptr. mstep.
  destruct (fi_hfile (ks_world s1) !! fi_bstart (ks_world s1)) as [hf|];
    [|unfold au_init_fop_sp_locked; mstep; rewrite Hi, Hd; by mstep].
  destruct (h_f_op hf) as [fop|] eqn:Hf;
    [|unfold au_init_fop_sp_locked; mstep; rewrite Hi, Hd; cbn [negb];
      mstep; rewrite Hf; by mstep].
  rewrite (bind_Ret _ _ _ tt);
    rewrite (au_init_fop_sp_locked_copy i hf fop s1 p Hi Hd Hf); [|done].
  intros _. mdone. eexists. split.
  - rewrite list_lookup_insert_eq; [done|]. by eapply lookup_lt_Some.
  - done.
Qed.

(** C6, amended.  The block under a slot's spinlock re-checks the flag:
    with the flag set it changes nothing; otherwise it stores the branch's
    table with [release] redirected, and [aio_read] and [aio_write]
    redirected where the branch has them, and sets the flag before the
    unlock.  With the flags set [au_init_fop_sp] takes no lock at all.
    Over any interleaving of concurrent callers, whose steps are those of
    the function, and over any sequence of opens, a slot whose flag is set
    keeps its table and each slot is copied into at most once.  Tasks of
    one access mode that have left the function hold the address of the
    same slot, whose flag is set, and two files of one access mode opened
    one after the other find the same table at that address. *)
Theorem au_init_fop_sp_once :
  (forall i h s p,
     ks_sp_fop s !! i = Some p -> sp_done p = true ->
     au_init_fop_sp_locked i h s
     = (Ret tt, s, [Lock (spin_lock_slot i); Lock (spin_unlock_slot i)])) /\
  (forall i hf fop s p,
     ks_sp_fop s !! i = Some p -> sp_done p = false ->
     h_f_op hf = Some fop ->
     au_init_fop_sp_locked i (Some hf) s
     = (Ret tt,
        {| ks_world := ks_world s;
           ks_sp_fop :=
             <[i := {| sp_done := true; sp_fop := au_sp_fop_of fop;
                       sp_spin := sp_spin p |}]> (ks_sp_fop s) |},
        [Lock (spin_lock_slot i); Fop_copy i; Lock (spin_unlock_slot i)])) /\
  (forall h,
     fo_release (au_sp_fop_of h) = Some addr_aufs_release_sp /\
     fo_aio_read (au_sp_fop_of h)
       = match fo_aio_read h with
         | Some _ => Some addr_aufs_aio_read_sp
         | None => None
         end /\
     fo_aio_write (au_sp_fop_of h)
       = match fo_aio_write h with
         | Some _ => Some addr_aufs_aio_write_sp
         | None => None
         end /\
     fo_open (au_sp_fop_of h) = fo_open h /\
     fo_others (au_sp_fop_of h) = fo_others h) /\
  (forall s i,
     slot_done (ks_sp_fop s) AuSp_FIFO ->
     au_sp_index (f_mode (ks_world s)) = Some i ->
     slot_done (ks_sp_fop s) i ->
     au_init_fop_sp s
     = (Ret tt, on_world (set_f_op (addr_au_sp_fop i)) s, [])) /\
  (forall s s' tr,
     au_init_fop_sp s = (Ret tt, s', tr) ->
     steps
       {| sys_tbl := ks_sp_fop s;
          sys_tasks :=
            [ {| t_world := ks_world s; t_pc := At_first_check |} ] |}
       tr
       {| sys_tbl := ks_sp_fop s';
          sys_tasks := [ {| t_world := ks_world s'; t_pc := At_end |} ] |}) /\
  (forall σ tr σ' i,
     steps σ tr σ' ->
     done_frozen (sys_tbl σ) (sys_tbl σ') /\
     (count_occ event_eq_dec tr (Fop_copy i) <= 1)%nat /\
     (slot_done (sys_tbl σ) i ->
      count_occ event_eq_dec tr (Fop_copy i) = 0%nat)) /\
  (forall σ tr σ',
     (forall k t, sys_tasks σ !! k = Some t -> t_pc t = At_first_check) ->
     steps σ tr σ' ->
     forall k1 t1 k2 t2 i,
       sys_tasks σ' !! k1 = Some t1 -> sys_tasks σ' !! k2 = Some t2 ->
       t_pc t1 = At_end -> t_pc t2 = At_end ->
       au_sp_index (f_mode (t_world t1)) = Some i ->
       au_sp_index (f_mode (t_world t2)) = Some i ->
       f_op (t_world t1) = Some (addr_au_sp_fop i) /\
       f_op (t_world t2) = Some (addr_au_sp_fop i) /\
       slot_done (sys_tbl σ') i) /\
  (forall s,
     done_frozen (ks_sp_fop s) (ks_sp_fop (state_of (au_init_fop_sp s)))) /\
  (forall ws tbl i,
     (count_occ event_eq_dec (snd (run_inits ws tbl)) (Fop_copy i) <= 1)%nat /\
     (slot_done tbl i ->
      count_occ event_eq_dec (snd (run_inits ws tbl)) (Fop_copy i) = 0%nat)) /\
  (forall s1 s2 i,
     let r1 := au_init_fop_sp s1 in
     let r2 := au_init_fop_sp s2 in
     au_sp_index (f_mode (ks_world s1)) = Some i ->
     au_sp_index (f_mode (ks_world s2)) = Some i ->
     ret_of r1 = Ret tt -> ret_of r2 = Ret tt ->
     done_frozen (ks_sp_fop (state_of r1)) (ks_sp_fop s2) ->
     f_op (world_of r1) = Some (addr_au_sp_fop i) /\
     f_op (world_of r2) = Some (addr_au_sp_fop i) /\
     exists p1 p2,
       ks_sp_fop (state_of r1) !! i = Some p1 /\
       ks_sp_fop (state_of r2) !! i = Some p2 /\
       sp_fop p2 = sp_fop p1).
Proof.
  split; [exact au_init_fop_sp_locked_done|].
  split; [exact au_init_fop_sp_locked_copy|].
  split; [intros h; by destruct h as [? [?|] [?|] ? ?]|].
  split.
  { intros s i (p0 & Hp0 & Hd0) Hidx (p & Hp & Hd).
    unfold au_init_fop_sp, au_init_fop_sp_first. mstep.
    rewrite Hp0, Hd0. cbn [negb]. mstep. rewrite Hidx. mstep.
    rewrite Hp, Hd. cbn [negb]. by mstep. }
  split; [exact au_init_fop_sp_steps|].
  split.
  { intros σ tr σ' i Hsteps.
    by destruct (steps_table σ tr σ' i Hsteps) as (? & ? & ? & _). }
  split.
  { intros σ tr σ' Hinit Hsteps k1 t1 k2 t2 i Hk1 Hk2 Hpc1 Hpc2 Hi1 Hi2.
    destruct (steps_table σ tr σ' i Hsteps) as (_ & _ & _ & Hok).
    assert (sys_ok σ) as Hok0.
    { intros k t Hk j Hj. rewrite (Hinit k t Hk).
      split; [intros [|]; done|done]. }
    specialize (Hok Hok0).
    destruct (Hok k1 t1 Hk1 i Hi1) as [Hd1 Hf1].
    destruct (Hok k2 t2 Hk2 i Hi2) as [_ Hf2]. auto. }
  split; [intros s; apply au_init_fop_sp_respects|].
  split; [intros ws tbl i; apply run_inits_count|].
  intros s1 s2 i r1 r2 Hi1 Hi2 Hr1 Hr2 Hfrozen. subst r1 r2.
  destruct (au_init_fop_sp_installs s1 Hr1) as (i1 & Hi1' & Hop1 & Hdone1).
  destruct (au_init_fop_sp_installs s2 Hr2) as (i2 & Hi2' & Hop2 & _).
  assert (i1 = i) as -> by congruence. assert (i2 = i) as -> by congruence.
  split; [done|]. split; [done|].
  destruct Hdone1 as (p1 & Hp1 & Hd1).
  destruct (au_init_fop_sp_respects s2) as (_ & HT & _).
  destruct (transitivity Hfrozen HT) as [_ Hkeep].
  destruct (Hkeep i p1 Hp1 Hd1) as (p2 & Hp2 & _ & Hsame).
  by exists p1, p2.
Qed.

(** C6, as stated, fails for a pipe opened for writing only: the branch's
    table has no [aio_read], and the slot built from it has none either,
    not the delegating read. *)
Lemma au_init_fop_sp_write_only_no_read :
  let r := au_init_fop_sp write_only_open in
  ret_of r = Ret tt /\
  exists p, ks_sp_fop (state_of r) !! AuSp_FIFO_W = Some p /\
            sp_done p = true /\
            fo_aio_read (sp_fop p) = None /\
            fo_aio_read (sp_fop p) <> Some addr_aufs_aio_read_sp.
Proof.
  vm_compute. split; [done|]. eexists. split; [done|]. done.
Qed.

End Cache.

Section Special.

(** C9, amended.  A named pipe gets the table of the [AuSp_FIFO] slot and
    counts as special; a character device, a block device or a socket is
    left with the operations [init_special_inode] gave it, nothing is
    signalled, and [au_special_file] answers 0; only a mode that is none of
    the four reaches [AuDebugOn(1)]. *)
Theorem au_init_special_fop_cases ino mode :
  let t := Z.land mode S_IFMT in
  (t = S_IFIFO ->
   au_init_special_fop ino mode
   = ({| i_fop := Some (addr_au_sp_fop AuSp_FIFO) |}, false) /\
   au_special_file mode = 1) /\
  (t = S_IFCHR \/ t = S_IFBLK \/ t = S_IFSOCK ->
   au_init_special_fop ino mode = (ino, false) /\
   au_special_file mode = 0) /\
  (t <> S_IFIFO -> t <> S_IFCHR -> t <> S_IFBLK -> t <> S_IFSOCK ->
   au_init_special_fop ino mode = (ino, true) /\
   au_special_file mode = 0).
Proof.
  intros t. subst t. unfold au_init_special_fop, au_special_file.
  split; [|split].
  - by intros ->.
  - by intros [-> | [-> | ->]].
  - intros H1 H2 H3 H4.
    destruct (Z.eqb_spec (Z.land mode S_IFMT) S_IFIFO); [done|].
    destruct (Z.eqb_spec (Z.land mode S_IFMT) S_IFCHR); [done|].
    destruct (Z.eqb_spec (Z.land mode S_IFMT) S_IFBLK); [done|].
    destruct (Z.eqb_spec (Z.land mode S_IFMT) S_IFSOCK); [done|].
    done.
Qed.

(** C9, as stated, fails: a character device (mode 020644) passes through
    without any signal. *)
Lemma au_init_special_fop_chr_silent :
  au_init_special_fop def_chr_inode (S_IFCHR + 420) = (def_chr_inode, false) /\
  au_special_file (S_IFCHR + 420) = 0.
Proof. by vm_compute. Qed.

(** C7, as stated, fails: the release entry of the pipe's table is called
    with the inode and file of aufs, not with the handle that lives in
    branch 0. *)
Lemma aufs_release_sp_passes_aufs_file :
  let r := @aufs_release_sp (model io_5) (opened_at 0 pipe_h_file) in
  fi_hfile (ks_world (opened_at 0 pipe_h_file)) !! 0 = Some pipe_h_file /\
  ret_of r = Ret 5 /\
  trace_of r = [Lock fi_read_lock; Lock fi_read_unlock;
                Call_h (addr_native 3) (Args_release Aufs_file);
                Call_aufs_release_nondir] /\
  ~ In (Call_h (addr_native 3) (Args_release (Branch_file 0))) (trace_of r).
Proof.
  vm_compute. split; [done|]. split; [done|]. split; [done|].
  intros H. repeat destruct H as [H|H]; done.
Qed.

(** C2, as stated, fails: a write of 5 bytes through a handle in a branch
    that is not writable refreshes no modification time. *)
Lemma aufs_aio_write_sp_ro_branch_no_refresh :
  let r := @aufs_aio_write_sp (model io_5) ro_ro kio_0
             (opened_at 1 pipe_h_file) in
  ret_of r = Ret 5 /\
  trace_of r = [Lock si_read_lock; Lock fi_read_lock; Lock fi_read_unlock;
                Lock si_read_unlock;
                Call_h (addr_native 2) (Args_aio Aufs_file kio_0)] /\
  ~ In (Call_file_update_time 1) (trace_of r).
Proof.
  vm_compute. split; [done|]. split; [done|].
  intros H. repeat destruct H as [H|H]; done.
Qed.

End Special.

(** ** Every way through the open *)

Section OpenPaths.
Context `{X : Collaborators}.

Lemma au_sbr_respects sb b :
  respects any_world eq cpup_event (fun _ => True) (au_sbr sb b).
Proof.
  unfold au_sbr. destruct (b <? 0); [by apply respects_oops|].
  destruct (sb !! Z.to_nat b); [apply respects_ret|by apply respects_oops].
Qed.

Lemma scan_bcpup_respects fuel sb i bend :
  respects any_world eq cpup_event (fun _ => True) (scan_bcpup fuel sb i bend).
Proof.
  revert i. induction fuel as [|n IH]; intros i; simpl.
  - destruct (i <? bend); [by apply respects_oops|apply respects_ret].
  - destruct (i <? bend); [|apply respects_ret].
    apply respects_bind; [apply au_sbr_respects|]. intros br.
    destruct (negb (au_br_rdonly br)); [apply respects_ret|apply IH].
Qed.

Lemma au_cpup_sp_respects b :
  respects any_world eq cpup_event (fun _ => True) (au_cpup_sp b).
Proof.
  unfold au_cpup_sp.
  do 2 (apply respects_bind; [by apply respects_tick|]; intros _).
  apply respects_bind; [apply respects_gets|]. intros hp.
  apply respects_bind;
    [destruct hp; [apply respects_ret|by apply respects_call]|].
  intros err. apply respects_bind.
  - destruct (negb (err =? 0)); [apply respects_ret|].
    apply respects_bind; [by apply respects_call|]. intros e2.
    destruct (e2 =? 0); [|apply respects_ret].
    apply respects_bind; [by apply respects_call|]. intros e3.
    apply respects_bind; [by apply respects_call_void|]. intros _.
    apply respects_ret.
  - intros e.
    do 2 (apply respects_bind; [by apply respects_tick|]; intros _).
    apply respects_ret.
Qed.

(** The copy-up block makes no call of the open proper and leaves the
    table alone. *)
Lemma au_do_open_sp_cpup_respects sb :
  respects any_world eq cpup_event (fun _ => True) (au_do_open_sp_cpup sb).
Proof.
  unfold au_do_open_sp_cpup.
  apply respects_bind; [apply respects_gets|]. intros bend.
  apply respects_bind; [apply au_sbr_respects|]. intros br.
  destruct (au_br_rdonly br); [|apply respects_ret].
  apply respects_bind; [apply scan_bcpup_respects|]. intros bcpup.
  destruct (0 <=? bcpup); [|apply respects_ret].
  apply respects_bind; [by apply respects_tick|]. intros _.
  apply respects_bind; [by apply respects_call_void|]. intros _.
  apply respects_bind; [apply respects_gets|]. intros cur.
  apply respects_bind;
    [destruct (bcpup <? cur); [apply au_cpup_sp_respects|apply respects_ret]|].
  intros err.
  apply respects_bind; [by apply respects_tick|]. intros _.
  apply respects_ret.
Qed.

(** The ways through [au_do_open_sp_native]. *)
Lemma au_do_open_sp_native_shape s :
  let r := au_do_open_sp_native s in
  let e1 := fst (au_do_open_nondir (ks_world s)) in
  let w1 := snd (au_do_open_nondir (ks_world s)) in
  (e1 <> 0 /\
   r = (Ret e1, {| ks_world := w1; ks_sp_fop := ks_sp_fop s |},
        [Call_au_do_open_nondir])) \/
  (e1 = 0 /\ ret_of r = Crash NULL_deref /\
   ks_sp_fop (state_of r) = ks_sp_fop s /\
   (trace_of r = [Call_au_do_open_nondir] \/
    trace_of r = [Call_au_do_open_nondir; Lock di_read_unlock;
                  Lock fi_write_unlock; Lock si_read_unlock])) \/
  (exists hf fn,
     e1 = 0 /\ fi_hfile w1 !! fi_bstart w1 = Some hf /\
     fo_open (h_i_fop hf) = Some fn /\
     let e2 := fst (h_call fn (Args_open Aufs_file) w1) in
     let w2 := snd (h_call fn (Args_open Aufs_file) w1) in
     (e2 <> 0 /\
      r = (Ret e2, {| ks_world := au_finfo_fin w2; ks_sp_fop := ks_sp_fop s |},
           opening fn ++ [Call_au_finfo_fin])) \/
     (e2 = 0 /\
      let r3 := au_init_fop_sp {| ks_world := w2; ks_sp_fop := ks_sp_fop s |} in
      trace_of r = opening fn ++ trace_of r3 /\
      state_of r = state_of r3 /\
      ret_of r = match ret_of r3 with Ret _ => Ret 0 | Crash c => Crash c end)).
Proof.
  intros r e1 w1. subst r e1 w1. unfold au_do_open_sp_native, au_h_fptr.
  mstep.
  destruct (fst (au_do_open_nondir (ks_world s)) =? 0) eqn:E1;
    cbn [negb]; cbv iota; mstep.
  2: { left. split; [lia|]. mdone. done. }
  right. apply Z.eqb_eq in E1.
  unfold on_world. cbn [ks_world ks_sp_fop].
  set (w1 := snd (au_do_open_nondir (ks_world s))).
  destruct (fi_hfile w1 !! fi_bstart w1) as [hf|] eqn:Hh; cbv iota; mstep.
  2: { left. mdone. repeat split; [done..|by left]. }
  destruct (fo_open (h_i_fop hf)) as [fn|] eqn:Hfn; cbv iota; mstep.
  2: { left. mdone. repeat split; [done..|by right]. }
  right. exists hf, fn. do 3 (split; [done|]).
  unfold on_world. cbn [ks_world ks_sp_fop].
  set (e2 := fst (h_call fn (Args_open Aufs_file) w1)).
  set (w2 := snd (h_call fn (Args_open Aufs_file) w1)).
  destruct (e2 =? 0) eqn:E2; cbv iota; mstep.
  - right. split; [lia|].
    set (s2 := {| ks_world := w2; ks_sp_fop := ks_sp_fop s |}).
    set (r3 := au_init_fop_sp s2).
    destruct (ret_of (au_init_fop_sp s2)) as [[]|c] eqn:Hr.
    + rewrite (bind_Ret _ _ _ tt Hr). mstep. mdone.
      subst r3. unfold ret_of, state_of, trace_of in *.
      rewrite app_nil_r. repeat split; [done..|]. rewrite Hr. f_equal. lia.
    + rewrite (bind_Crash _ _ _ c Hr). mdone.
      subst r3. unfold ret_of, state_of, trace_of in *. rewrite Hr. done.
  - left. split; [lia|]. mdone. done.
Qed.

(** The ways through [au_do_open_sp]: the copy-up block crashes or fails,
    or hands over to the open proper with the table as it was. *)
Lemma au_do_open_sp_shape sb s :
  let r := au_do_open_sp sb s in
  exists t1, Forall cpup_event t1 /\
    ((exists c, ret_of r = Crash c /\ trace_of r = t1 /\
                ks_sp_fop (state_of r) = ks_sp_fop s) \/
     (exists e, e <> 0 /\ ret_of r = Ret e /\ trace_of r = t1 /\
                ks_sp_fop (state_of r) = ks_sp_fop s) \/
     (exists s1, ks_sp_fop s1 = ks_sp_fop s /\
                 r = pre t1 (au_do_open_sp_native s1))).
Proof.
  intros r. subst r.
  destruct (au_do_open_sp_cpup_respects sb s) as (_ & HT & HE & _).
  destruct (au_do_open_sp_cpup sb s) as [[[e|c] s1] t1] eqn:Hc;
    cbn [trace_of state_of snd fst] in HT, HE; exists t1; (split; [done|]).
  - rewrite (au_do_open_sp_after_cpup _ _ _ _ _ Hc).
    destruct (e =? 0) eqn:E.
    + right. right. exists s1. done.
    + right. left. exists e. repeat split; [lia|done..].
  - left. exists c. unfold au_do_open_sp.
    rewrite (bind_Crash _ _ _ c); rewrite Hc; done.
Qed.

End OpenPaths.

Section OpenRuns.
Context `{X : Collaborators}.

Lemma Forall_not_In (E : event -> Prop) t e :
  Forall E t -> ~ E e -> ~ In e t.
Proof. intros HF HE Hin. apply HE. by eapply List.Forall_forall. Qed.

(** Every run of [au_do_open_sp]: it ends in the copy-up block; or the
    generic open fails; or a handle or its [open] is missing; or the native
    open fails and the file's private data is finalised; or the native open
    succeeds and the operation table is installed. *)
Lemma au_do_open_sp_runs sb s :
  let r := au_do_open_sp sb s in
  exists t1, Forall cpup_event t1 /\
    ((trace_of r = t1 /\ ks_sp_fop (state_of r) = ks_sp_fop s /\
      ((exists c, ret_of r = Crash c) \/
       exists e, e <> 0 /\ ret_of r = Ret e)) \/
     (trace_of r = t1 ++ [Call_au_do_open_nondir] /\
      ks_sp_fop (state_of r) = ks_sp_fop s /\
      (ret_of r = Crash NULL_deref \/ exists e, e <> 0 /\ ret_of r = Ret e)) \/
     (trace_of r = t1 ++ [Call_au_do_open_nondir; Lock di_read_unlock;
                          Lock fi_write_unlock; Lock si_read_unlock] /\
      ks_sp_fop (state_of r) = ks_sp_fop s /\ ret_of r = Crash NULL_deref) \/
     (exists fn e, e <> 0 /\ ret_of r = Ret e /\
        ks_sp_fop (state_of r) = ks_sp_fop s /\
        trace_of r = t1 ++ opening fn ++ [Call_au_finfo_fin]) \/
     (exists fn t3, trace_of r = t1 ++ opening fn ++ t3 /\
        Forall init_event t3 /\
        (ret_of r = Ret 0 \/ exists c, ret_of r = Crash c))).
Proof.
  intros r. subst r.
  destruct (au_do_open_sp_shape sb s) as (t1 & Ht1 & Hsh).
  exists t1. split; [done|].
  destruct Hsh as [(c & Hr & Ht & Htbl)|[(e & He & Hr & Ht & Htbl)|Hn]].
  { left. eauto 10. }
  { left. eauto 10. }
  destruct Hn as (s1 & Htbl & ->).
  rewrite ret_of_pre, state_of_pre, trace_of_pre. rewrite <- Htbl.
  destruct (au_do_open_sp_native_shape s1)
    as [(He & ->)|[(He & Hr & Ht & [Htr|Htr])|Hop]].
  - right. left. split; [done|]. split; [done|]. right. eauto.
  - right. left. rewrite Htr. eauto.
  - right. right. left. rewrite Htr. eauto.
  - destruct Hop
      as (hf & fn & He & Hh & Hfn & [(He2 & ->)|(He2 & Htr & Hst & Hr)]).
    + right. right. right. left. eexists fn, _. eauto.
    + right. right. right. right. exists fn. eexists. split; [by rewrite Htr|].
      split; [apply au_init_fop_sp_respects|].
      rewrite Hr. destruct (ret_of (au_init_fop_sp _)); eauto.
Qed.

End OpenRuns.

Ltac not_in H := eapply Forall_not_In; [exact H|simpl; tauto].

(** A goal [Forall P [e1; ...; en]] with [P] decided by computation. *)
Ltac forall_list :=
  repeat (apply List.Forall_cons; [simpl; tauto|]); apply List.Forall_nil.

Section OpenExtras.
Context `{X : Collaborators}.

(** X1. [au_cpup_sp] returns on every path, and on every path -- the failure of
    the ancestor copy-up included -- its last two actions drop the parent's
    lock and the parent's reference. In between it makes only copy-up calls for
    [b]; [au_unpin] is called exactly when [au_pin] was called and returned 0,
    right after the one call of [au_sio_cpup_simple]; and 0 is returned only if
    that call was made. *)
Theorem au_cpup_sp_unwinds (b : Z) (s : kstate) :
  exists e w' t,
    au_cpup_sp b s
    = (Ret e, {| ks_world := w'; ks_sp_fop := ks_sp_fop s |},
       [Call_dget_parent; Lock di_write_lock_parent] ++ t ++
       [Lock di_write_unlock; Call_dput]) /\
    Forall (fun ev => cpup_call ev = Some b \/ ev = Call_au_unpin) t /\
    (In Call_au_unpin t <->
       exists w0 t0,
         before_pin b (ks_world s) w0 t0 /\ fst (au_pin b w0) = 0) /\
    count_occ event_eq_dec t Call_au_unpin
      = count_occ event_eq_dec t (Call_au_sio_cpup_simple b) /\
    (count_occ event_eq_dec t Call_au_unpin
       <= count_occ event_eq_dec t (Call_au_pin b) <= 1)%nat /\
    (e = 0 -> In (Call_au_sio_cpup_simple b) t).
Proof.
  destruct (au_cpup_sp_path b s) as (e & w' & t & Hrun & Hpath).
  exists e, w', t. split; [done|]. clear Hrun.
  assert (forall w0 t0, before_pin b (ks_world s) w0 t0 ->
            Forall (fun ev => cpup_call ev = Some b \/ ev = Call_au_unpin) t0 /\
            count_occ event_eq_dec t0 Call_au_unpin = 0%nat /\
            count_occ event_eq_dec t0 (Call_au_sio_cpup_simple b) = 0%nat /\
            count_occ event_eq_dec t0 (Call_au_pin b) = 0%nat) as Hbefore.
  { intros w0 t0 [(_ & _ & ->)|(_ & _ & _ & ->)].
    - by repeat split.
    - split; [by repeat constructor; left|].
      rewrite !count_occ_cons_neq by discriminate. done. }
  destruct Hpath as [Hd Hf|w0 t0 Hb Hp|w0 t0 Hb Hp].
  - split; [by repeat constructor; left|].
    rewrite !count_occ_cons_neq by discriminate. simpl.
    split; [|split; [done|split; [lia|done]]].
    split; [by intros [[=]|[]]|].
    intros (w0 & t0 & [(Hs & _)|(_ & Hz & _)] & _);
      [rewrite Hd in Hs; by destruct Hs|done].
  - destruct (Hbefore w0 t0 Hb) as (HF & Hc1 & Hc2 & Hc3).
    split; [apply Forall_app; split; [done|by repeat constructor; left]|].
    rewrite !count_occ_app, Hc1, Hc2, Hc3.
    rewrite !count_occ_cons_neq by discriminate.
    rewrite count_occ_cons_eq by reflexivity. simpl.
    split; [|split; [done|split; [lia|done]]].
    split.
    + rewrite in_app_iff. intros [Hin|[[=]|[]]].
      by apply (count_occ_not_In event_eq_dec) in Hc1.
    + intros (w0' & t0' & Hb' & Hz).
      destruct (before_pin_det _ _ _ _ _ _ Hb Hb') as [-> _]. done.
  - destruct (Hbefore w0 t0 Hb) as (HF & Hc1 & Hc2 & Hc3).
    split.
    { apply Forall_app; split; [done|]. repeat constructor; by auto. }
    rewrite !count_occ_app, Hc1, Hc2, Hc3.
    repeat first [ rewrite count_occ_cons_eq by reflexivity
                 | rewrite count_occ_cons_neq by discriminate ].
    simpl. split; [|split; [done|split; [lia|]]].
    + split; [eauto|]. intros _. rewrite in_app_iff. right. simpl. tauto.
    + intros _. rewrite in_app_iff. right. simpl. tauto.
Qed.

(** X2. [au_finfo_fin] is called at most once, and exactly in the runs in which
    the native open was entered and [au_do_open_sp] returns an error: an open
    that fails earlier (no writable branch, a failed copy-up, a failed generic
    open) returns without it, and so does a successful one. *)
Theorem au_do_open_sp_finfo_fin sb s :
  let r := au_do_open_sp sb s in
  (In Call_au_finfo_fin (trace_of r) <->
     (exists fn, In (Call_h fn (Args_open Aufs_file)) (trace_of r)) /\
     (exists e, ret_of r = Ret e /\ e <> 0)) /\
  (count_occ event_eq_dec (trace_of r) Call_au_finfo_fin <= 1)%nat.
Proof.
  intros r. subst r.
  destruct (au_do_open_sp_runs sb s) as (t1 & Ht1 & Hruns).
  assert (~ In Call_au_finfo_fin t1) as Hn1 by not_in Ht1.
  assert (forall fn, ~ In (Call_h fn (Args_open Aufs_file)) t1) as Hn2
    by (intros fn; not_in Ht1).
  pose proof (proj1 (count_occ_not_In event_eq_dec _ _) Hn1) as Hc1.
  destruct Hruns
    as [(Ht & _ & Hr)|[(Ht & _ & Hr)|[(Ht & _ & Hr)|[Hfail|Hok]]]].
  - rewrite Ht, Hc1. split; [|lia]. split; [done|].
    intros [[fn Hfn] _]. by destruct (Hn2 fn).
  - rewrite Ht, count_occ_app, Hc1. simpl. split; [|lia].
    rewrite in_app_iff. split; [by intros [|[[=]|[]]]|].
    intros [[fn Hfn] _]. rewrite in_app_iff in Hfn.
    destruct Hfn as [Hfn|[[=]|[]]]. by destruct (Hn2 fn).
  - rewrite Ht, count_occ_app, Hc1. simpl. split; [|lia].
    rewrite in_app_iff. split.
    + intros [|Hin]; [done|]. simpl in Hin. intuition discriminate.
    + intros [_ (e & He & _)]. rewrite Hr in He. discriminate.
  - destruct Hfail as (fn & e & He & Hr & _ & Ht).
    rewrite Ht, !count_occ_app, Hc1. split; [|simpl; lia].
    split; [intros _|intros _].
    + split; [exists fn|by exists e].
      rewrite !in_app_iff. right. left. simpl. tauto.
    + rewrite !in_app_iff. right. right. by left.
  - destruct Hok as (fn & t3 & Ht & Ht3 & Hr).
    assert (~ In Call_au_finfo_fin t3) as Hn3 by not_in Ht3.
    pose proof (proj1 (count_occ_not_In event_eq_dec _ _) Hn3) as Hc3.
    rewrite Ht, !count_occ_app, Hc1, Hc3. split; [|simpl; lia].
    split.
    + rewrite !in_app_iff. intros [|[Hin|]]; [done| |done].
      simpl in Hin. intuition discriminate.
    + intros [_ (e & He & Hne)].
      destruct Hr as [Hr|[c Hr]]; rewrite Hr in He; [|discriminate].
      by injection He as <-.
Qed.

(** X3. An open that returns an error has not touched the table [au_sp_fop]: no
    spinlock was initialised or taken and no operation table was built. *)
Theorem au_do_open_sp_failed_keeps_table sb s e :
  ret_of (au_do_open_sp sb s) = Ret e -> e <> 0 ->
  ks_sp_fop (state_of (au_do_open_sp sb s)) = ks_sp_fop s /\
  Forall (fun ev => ~ init_event ev) (trace_of (au_do_open_sp sb s)).
Proof.
  intros Hret He.
  destruct (au_do_open_sp_runs sb s) as (t1 & Ht1 & Hruns).
  assert (Forall (fun ev => ~ init_event ev) t1) as Hn1.
  { eapply Forall_impl; [exact Ht1|].
    intros [[]| | | | | | | | | | | | | |]; simpl; tauto. }
  destruct Hruns
    as [(Ht & Htbl & _)|[(Ht & Htbl & _)|[(Ht & Htbl & Hr)|[Hfail|Hok]]]].
  - by rewrite Ht.
  - rewrite Ht. split; [done|]. apply Forall_app; split; [done|].
    forall_list.
  - rewrite Hr in Hret. discriminate.
  - destruct Hfail as (fn & e' & _ & _ & Htbl & Ht). rewrite Ht.
    split; [done|]. apply Forall_app; split; [done|].
    unfold opening. simpl. forall_list.
  - destruct Hok as (fn & t3 & _ & _ & [Hr|[c Hr]]);
      rewrite Hr in Hret; [|discriminate].
    injection Hret as <-. done.
Qed.

(** X4. The only branch entry point [au_do_open_sp] calls is [open], at most
    once, after the generic open; immediately before it the dentry, file and
    superblock locks are dropped, in that order, and immediately after it,
    whatever it returned, they are taken again in the reverse order. *)
Theorem au_do_open_sp_native_open_unlocked sb s fn a :
  In (Call_h fn a) (trace_of (au_do_open_sp sb s)) ->
  a = Args_open Aufs_file /\
  exists t1 t2,
    trace_of (au_do_open_sp sb s)
    = t1 ++ [Call_au_do_open_nondir; Lock di_read_unlock;
             Lock fi_write_unlock; Lock si_read_unlock;
             Call_h fn (Args_open Aufs_file);
             Lock si_noflush_read_lock; Lock fi_write_lock;
             Lock di_read_lock_child] ++ t2 /\
    (forall fn' a', ~ In (Call_h fn' a') t1) /\
    (forall fn' a', ~ In (Call_h fn' a') t2).
Proof.
  intros Hin.
  destruct (au_do_open_sp_runs sb s) as (t1 & Ht1 & Hruns).
  assert (forall fn' a', ~ In (Call_h fn' a') t1) as Hn1
    by (intros fn' a'; not_in Ht1).
  destruct Hruns
    as [(Ht & _)|[(Ht & _)|[(Ht & _)|[Hfail|Hok]]]].
  - rewrite Ht in Hin. by destruct (Hn1 fn a).
  - rewrite Ht, in_app_iff in Hin.
    destruct Hin as [Hin|[[=]|[]]]. by destruct (Hn1 fn a).
  - rewrite Ht, in_app_iff in Hin. destruct Hin as [Hin|Hin];
      [by destruct (Hn1 fn a)|]. simpl in Hin. intuition discriminate.
  - destruct Hfail as (fn0 & e & _ & _ & _ & Ht).
    rewrite Ht, !in_app_iff in Hin. unfold opening in *.
    assert (fn0 = fn /\ a = Args_open Aufs_file) as [-> ->].
    { destruct Hin as [Hin|[Hin|Hin]]; [by destruct (Hn1 fn a)| |];
        simpl in Hin; intuition congruence. }
    split; [done|]. exists t1, [Call_au_finfo_fin]. split; [done|].
    split; [done|]. intros fn' a' [[=]|[]].
  - destruct Hok as (fn0 & t3 & Ht & Ht3 & _).
    assert (forall fn' a', ~ In (Call_h fn' a') t3) as Hn3
      by (intros fn' a'; not_in Ht3).
    rewrite Ht, !in_app_iff in Hin. unfold opening in *.
    assert (fn0 = fn /\ a = Args_open Aufs_file) as [-> ->].
    { destruct Hin as [Hin|[Hin|Hin]];
        [by destruct (Hn1 fn a)| |by destruct (Hn3 fn a)].
      simpl in Hin. intuition congruence. }
    split; [done|]. by exists t1, t3.
Qed.

Lemma bind_cong {A B} (m m' : M A) (f f' : A -> M B) s :
  m s = m' s -> (forall a s1, f a s1 = f' a s1) ->
  bind m f s = bind m' f' s.
Proof.
  intros Hm Hf. unfold bind. rewrite Hm.
  destruct (m' s) as [[[a|c] s1] t1]; [by rewrite Hf|done].
Qed.

Lemma scan_bcpup_ext fuel sb sb' (i bend : Z) :
  (forall j, 0 <= j < bend -> sb !! Z.to_nat j = sb' !! Z.to_nat j) ->
  forall s, scan_bcpup fuel sb i bend s = scan_bcpup fuel sb' i bend s.
Proof.
  intros Hsb. revert i. induction fuel as [|n IH]; intros i s; simpl; [done|].
  destruct (i <? bend) eqn:E; [|done].
  apply bind_cong.
  - unfold au_sbr. destruct (i <? 0) eqn:E0; [done|].
    by rewrite (Hsb i) by lia.
  - intros br s1. destruct (negb (au_br_rdonly br)); [done|apply IH].
Qed.

(** X5. The open looks at the branches from the top of the stack down to the
    dentry's start branch and at no other: two stacks that agree on those
    indices give the same run, whatever lies below the start branch. *)
Theorem au_do_open_sp_ignores_lower sb sb' s :
  (forall j, 0 <= j <= d_bstart (ks_world s) ->
     sb !! Z.to_nat j = sb' !! Z.to_nat j) ->
  au_do_open_sp sb s = au_do_open_sp sb' s.
Proof.
  intros Hsb. unfold au_do_open_sp. apply bind_cong; [|done].
  unfold au_do_open_sp_cpup. mstep. apply bind_cong.
  - unfold au_sbr. destruct (d_bstart (ks_world s) <? 0) eqn:E0; [done|].
    by rewrite (Hsb (d_bstart (ks_world s))) by lia.
  - intros br s1. destruct (au_br_rdonly br); [|done].
    apply bind_cong; [|done].
    apply scan_bcpup_ext. intros j Hj. apply Hsb. lia.
Qed.

End OpenExtras.

(** ** Invariants of the table *)

Lemma au_sp_index_range mode i :
  au_sp_index mode = Some i -> i <> AuSp_FIFO /\ (i < AuSp_Last)%nat.
Proof.
  unfold au_sp_index. cbv zeta.
  repeat match goal with |- context [if ?c then _ else _] => destruct c end;
    intros ?; simplify_eq;
    unfold AuSp_FIFO_R, AuSp_FIFO_W, AuSp_FIFO_RW, AuSp_FIFO, AuSp_Last; lia.
Qed.

(** A relation on tables that each of the three kinds of store of
    [au_init_fop_sp] keeps is kept by every function of the file and by
    every interleaving of initialisations. *)
Section TableUpdates.
Context `{X : Collaborators}.
Context (T : relation (list au_sp_fop)) `{!PreOrder T}.
Context (T_spin : forall tbl i p,
            tbl !! i = Some p -> T tbl (<[i := set_spin p]> tbl)).
Context (T_done : forall tbl p,
            tbl !! AuSp_FIFO = Some p ->
            T tbl (<[AuSp_FIFO := set_done p]> tbl)).
Context (T_copy : forall tbl i p fop,
            i <> AuSp_FIFO -> tbl !! i = Some p -> sp_done p = false ->
            T tbl (<[i := {| sp_done := true; sp_fop := au_sp_fop_of fop;
                             sp_spin := sp_spin p |}]> tbl)).

Lemma keeps_of_eq {A} (m : M A) E C :
  respects any_world eq E C m -> keeps_table T m.
Proof.
  intros Hm s. destruct (Hm s) as (_ & HT & _ & _).
  split; [done|]. split; [by rewrite <- HT|]. split; [|done].
  by apply Forall_true.
Qed.

Lemma keeps_store {B} i (p' : au_sp_fop) (k : M B) :
  (forall tbl, T tbl (<[i := p']> tbl)) -> keeps_table T k ->
  keeps_table T (set_slot i p' ;;; k).
Proof.
  intros HT Hk s. rewrite bind_set_slot.
  destruct (Hk {| ks_world := ks_world s;
                  ks_sp_fop := <[i := p']> (ks_sp_fop s) |})
    as (_ & HT' & _ & _).
  split; [done|]. split; [|split; [by apply Forall_true|done]].
  etransitivity; [apply HT|exact HT'].
Qed.

Lemma keeps_update {B} i (g : au_sp_fop -> au_sp_fop) (k : M B) :
  (forall tbl p, tbl !! i = Some p -> T tbl (<[i := g p]> tbl)) ->
  keeps_table T k ->
  keeps_table T (p <- get_slot i ;; set_slot i (g p) ;;; k).
Proof.
  intros Hg Hk s. rewrite bind_get_slot.
  destruct (ks_sp_fop s !! i) as [p|] eqn:Hi.
  - rewrite bind_set_slot.
    destruct (Hk {| ks_world := ks_world s;
                    ks_sp_fop := <[i := g p]> (ks_sp_fop s) |})
      as (_ & HT' & _ & _).
    split; [done|]. split; [|split; [by apply Forall_true|done]].
    etransitivity; [by apply Hg|exact HT'].
  - clear Hi. revert s. by apply respects_oops.
Qed.

Lemma spin_lock_init_all_keeps l : keeps_table T (spin_lock_init_all l).
Proof.
  induction l as [|i l IH]; simpl; [apply respects_ret|].
  apply keeps_update; [by auto|].
  apply respects_bind; [by apply respects_tick|]. by intros _.
Qed.

Lemma au_init_fop_sp_first_locked_keeps :
  keeps_table T au_init_fop_sp_first_locked.
Proof.
  unfold au_init_fop_sp_first_locked.
  apply respects_bind; [by apply respects_tick|]. intros _.
  apply respects_bind; [by apply respects_get_slot|]. intros p.
  apply respects_bind; [|intros _; by apply respects_tick].
  destruct (negb (sp_done p)); [|apply respects_ret].
  apply respects_bind; [apply spin_lock_init_all_keeps|]. intros _.
  intros s. rewrite bind_get_slot.
  destruct (ks_sp_fop s !! AuSp_FIFO) as [q|] eqn:Hq.
  - split; [done|]. split; [by apply T_done|]. split; [constructor|done].
  - clear Hq. revert s. by apply respects_oops.
Qed.

Lemma au_init_fop_sp_first_keeps : keeps_table T au_init_fop_sp_first.
Proof.
  unfold au_init_fop_sp_first.
  apply respects_bind; [by apply respects_get_slot|]. intros p.
  destruct (negb (sp_done p));
    [apply au_init_fop_sp_first_locked_keeps|apply respects_ret].
Qed.

Lemma au_init_fop_sp_locked_keeps i h :
  i <> AuSp_FIFO -> keeps_table T (au_init_fop_sp_locked i h).
Proof.
  intros Hi. unfold au_init_fop_sp_locked.
  apply respects_bind; [by apply respects_tick|]. intros _.
  intros s. rewrite bind_get_slot.
  destruct (ks_sp_fop s !! i) as [p|] eqn:Hp;
    [|clear Hp; revert s; by apply respects_oops].
  destruct (sp_done p) eqn:Hd; cbn [negb]; cbv iota.
  - mstep. mdone. split; [done|]. split; [reflexivity|].
    split; [by apply Forall_true|done].
  - destruct h as [hf|]; [|clear Hp; revert s; by apply respects_oops].
    mstep.
    destruct (h_f_op hf) as [fop|];
      [|clear Hp; revert s; by apply respects_oops].
    mstep. mdone. split; [done|]. split; [by apply T_copy|].
    split; [by apply Forall_true|done].
Qed.

Lemma au_init_fop_sp_keeps : keeps_table T au_init_fop_sp.
Proof.
  unfold au_init_fop_sp.
  apply respects_bind; [apply au_init_fop_sp_first_keeps|]. intros _.
  apply respects_bind; [apply respects_gets|]. intros mode.
  destruct (au_sp_index mode) as [i|] eqn:Hi; [|by apply respects_oops].
  apply au_sp_index_range in Hi as [Hi _].
  apply respects_bind; [by apply respects_get_slot|]. intros p.
  apply respects_bind.
  - destruct (negb (sp_done p)); [|apply respects_ret].
    apply respects_bind; [apply respects_gets|]. intros b.
    apply respects_bind; [apply respects_gets|]. intros h.
    by apply au_init_fop_sp_locked_keeps.
  - intros _ s. split; [done|]. split; [reflexivity|].
    split; [constructor|done].
Qed.

Lemma au_do_open_sp_keeps sb : keeps_table T (au_do_open_sp sb).
Proof.
  unfold au_do_open_sp.
  apply respects_bind;
    [eapply keeps_of_eq, au_do_open_sp_cpup_respects|].
  intros e. destruct (negb (e =? 0)); [apply respects_ret|].
  unfold au_do_open_sp_native, au_h_fptr.
  apply respects_bind; [by apply respects_call|]. intros err.
  destruct (negb (err =? 0)); [apply respects_ret|].
  apply respects_bind; [apply respects_gets|]. intros b.
  apply respects_bind; [apply respects_gets|]. intros h.
  apply respects_bind; [by apply respects_deref|]. intros hf.
  do 3 (apply respects_bind; [by apply respects_tick|]; intros _).
  apply respects_bind; [by apply respects_deref|]. intros fn.
  apply respects_bind; [by apply respects_call|]. intros err'.
  do 3 (apply respects_bind; [by apply respects_tick|]; intros _).
  destruct (err' =? 0).
  - apply respects_bind; [apply au_init_fop_sp_keeps|].
    intros; apply respects_ret.
  - apply respects_bind; [by apply respects_call_void|].
    intros; apply respects_ret.
Qed.

Lemma step_keeps σ tr σ' : step σ tr σ' -> T (sys_tbl σ) (sys_tbl σ').
Proof.
  intros [k t p Hk Hpc Hp|k t s' tr' Hk Hpc Hrun|k t i p Hk Hpc Hi Hp
         |k t i s' tr' Hk Hpc Hi Hrun|k t i Hk Hpc Hi];
    cbn [put_task sys_tbl]; try reflexivity.
  - destruct (au_init_fop_sp_first_locked_keeps (task_state t (sys_tbl σ)))
      as (_ & HT & _). by rewrite Hrun in HT.
  - apply au_sp_index_range in Hi as [Hi _].
    destruct (au_init_fop_sp_locked_keeps i
                (fi_hfile (t_world t) !! fi_bstart (t_world t)) Hi
                (task_state t (sys_tbl σ))) as (_ & HT & _).
    by rewrite Hrun in HT.
Qed.

Lemma steps_keeps σ tr σ' : steps σ tr σ' -> T (sys_tbl σ) (sys_tbl σ').
Proof.
  induction 1 as [σ|σ tr σ' tr' σ'' Hs _ IH]; [reflexivity|].
  etransitivity; [by eapply step_keeps|done].
Qed.

End TableUpdates.

#[local] Instance fifo_kept_preorder : PreOrder fifo_kept.
Proof.
  split; [intros tbl p Hp; by exists p|].
  intros t1 t2 t3 H1 H2 p Hp. destruct (H1 p Hp) as (p' & Hp' & Hf').
  destruct (H2 p' Hp') as (p'' & Hp'' & Hf''). exists p''.
  split; [done|congruence].
Qed.

#[local] Instance keeps_delegate_preorder : PreOrder keeps_delegate.
Proof.
  split; [intros tbl H; exact H|]. intros t1 t2 t3 H1 H2 H. apply H2, H1, H.
Qed.

Section TableInvariants.

(** The slot found at [j] after a store into slot [i]. *)
Lemma lookup_store (tbl : list au_sp_fop) i j p q q' :
  tbl !! i = Some p -> <[i := q]> tbl !! j = Some q' ->
  (j = i /\ q' = q) \/ (j <> i /\ tbl !! j = Some q').
Proof.
  intros Hi Hj. destruct (decide (j = i)) as [->|Hne].
  - rewrite list_lookup_insert_eq in Hj by (by eapply lookup_lt_Some).
    left. split; [done|congruence].
  - rewrite list_lookup_insert_ne in Hj by done. by right.
Qed.

Lemma fifo_kept_store tbl i p q :
  tbl !! i = Some p -> (i = AuSp_FIFO -> sp_fop q = sp_fop p) ->
  fifo_kept tbl (<[i := q]> tbl).
Proof.
  intros Hi Hq p0 Hp0. destruct (decide (i = AuSp_FIFO)) as [->|Hne].
  - exists q. rewrite list_lookup_insert_eq by (by eapply lookup_lt_Some).
    split; [done|]. rewrite Hq by done. congruence.
  - exists p0. by rewrite list_lookup_insert_ne.
Qed.

Lemma keeps_delegate_store tbl i p q :
  tbl !! i = Some p ->
  (i <> AuSp_FIFO -> sp_done q = true ->
   delegating (sp_fop q) \/ (sp_done p = true /\ sp_fop q = sp_fop p)) ->
  keeps_delegate tbl (<[i := q]> tbl).
Proof.
  intros Hi Hq Hinv j q' Hj Hlook Hd.
  destruct (lookup_store _ _ _ _ _ _ Hi Hlook) as [[-> ->]|[Hne Hold]].
  - destruct (Hq Hj Hd) as [Hdel|[Hpd Hf]]; [done|].
    rewrite Hf. by eapply Hinv.
  - by eapply Hinv.
Qed.

Lemma delegating_au_sp_fop_of h : delegating (au_sp_fop_of h).
Proof.
  split; [done|]. cbn.
  split; [destruct (fo_aio_read h)|destruct (fo_aio_write h)]; auto.
Qed.

End TableInvariants.

Section TableExtras.
Context `{X : Collaborators}.

(** X6. Slot [AuSp_FIFO], the table whose address [au_init_special_fop] stores
    in the inode of a named pipe, keeps its members: no open, whether it
    succeeds, fails or faults, and no interleaving of initialisations writes to
    it. Its [open] member, [aufs_open_sp] in the static initialiser, is
    therefore [aufs_open_sp] for good. *)
Theorem au_sp_fop_fifo_kept :
  (forall sb s, fifo_kept (ks_sp_fop s)
                  (ks_sp_fop (state_of (au_do_open_sp sb s)))) /\
  (forall s, fifo_kept (ks_sp_fop s)
               (ks_sp_fop (state_of (au_init_fop_sp s)))) /\
  (forall σ tr σ', steps σ tr σ' -> fifo_kept (sys_tbl σ) (sys_tbl σ')) /\
  (forall ino mode ts tr σ',
     au_special_file mode = 1 ->
     steps {| sys_tbl := au_sp_fop_static; sys_tasks := ts |} tr σ' ->
     i_fop (fst (au_init_special_fop ino mode))
       = Some (addr_au_sp_fop AuSp_FIFO) /\
     exists p, sys_tbl σ' !! AuSp_FIFO = Some p /\
               fo_open (sp_fop p) = Some addr_aufs_open_sp).
Proof.
  assert (forall tbl i p, tbl !! i = Some p ->
            fifo_kept tbl (<[i := set_spin p]> tbl)) as H1.
  { intros tbl i p Hp. by eapply fifo_kept_store. }
  assert (forall tbl p, tbl !! AuSp_FIFO = Some p ->
            fifo_kept tbl (<[AuSp_FIFO := set_done p]> tbl)) as H2.
  { intros tbl p Hp. by eapply fifo_kept_store. }
  assert (forall tbl i p fop,
            i <> AuSp_FIFO -> tbl !! i = Some p -> sp_done p = false ->
            fifo_kept tbl
              (<[i := {| sp_done := true; sp_fop := au_sp_fop_of fop;
                         sp_spin := sp_spin p |}]> tbl)) as H3.
  { intros tbl i p fop Hi Hp _. by eapply fifo_kept_store. }
  split; [|split; [|split]].
  - intros sb s. by apply (au_do_open_sp_keeps fifo_kept H1 H2 H3 sb s).
  - intros s. by apply (au_init_fop_sp_keeps fifo_kept H1 H2 H3 s).
  - intros σ tr σ'. apply (steps_keeps fifo_kept H1 H2 H3).
  - intros ino mode ts tr σ' Hsp Hsteps. split.
    + unfold au_special_file in Hsp. unfold au_init_special_fop. cbv zeta.
      by destruct (Z.land mode S_IFMT =? S_IFIFO).
    + destruct (steps_keeps fifo_kept H1 H2 H3 _ _ _ Hsteps _ eq_refl)
        as (p & Hp & Hf).
      exists p. split; [done|]. by rewrite Hf.
Qed.

(** X7. The slots of the access modes only ever hold delegating tables: the
    static table has none, every open and every interleaving of initialisations
    keeps it so, and the table a successful open installs in [file->f_op] has
    [aufs_release_sp] as its release and, for read and write, either no entry
    or the entry of this file -- never an entry point of the branch. *)
Theorem au_sp_fop_slots_delegate :
  slots_delegate au_sp_fop_static /\
  (forall sb s, slots_delegate (ks_sp_fop s) ->
     slots_delegate (ks_sp_fop (state_of (au_do_open_sp sb s)))) /\
  (forall σ tr σ', steps σ tr σ' -> slots_delegate (sys_tbl σ) ->
     slots_delegate (sys_tbl σ')) /\
  (forall sb s,
     slots_delegate (ks_sp_fop s) ->
     ret_of (au_do_open_sp sb s) = Ret 0 ->
     exists i p,
       f_op (world_of (au_do_open_sp sb s)) = Some (addr_au_sp_fop i) /\
       ks_sp_fop (state_of (au_do_open_sp sb s)) !! i = Some p /\
       sp_done p = true /\ delegating (sp_fop p)).
Proof.
  assert (forall tbl i p, tbl !! i = Some p ->
            keeps_delegate tbl (<[i := set_spin p]> tbl)) as H1.
  { intros tbl i p Hp. eapply keeps_delegate_store; [done|]. by right. }
  assert (forall tbl p, tbl !! AuSp_FIFO = Some p ->
            keeps_delegate tbl (<[AuSp_FIFO := set_done p]> tbl)) as H2.
  { intros tbl p Hp. by eapply keeps_delegate_store. }
  assert (forall tbl i p fop,
            i <> AuSp_FIFO -> tbl !! i = Some p -> sp_done p = false ->
            keeps_delegate tbl
              (<[i := {| sp_done := true; sp_fop := au_sp_fop_of fop;
                         sp_spin := sp_spin p |}]> tbl)) as H3.
  { intros tbl i p fop Hi Hp _. eapply keeps_delegate_store; [done|].
    intros _ _. left. apply delegating_au_sp_fop_of. }
  assert (forall sb s, slots_delegate (ks_sp_fop s) ->
            slots_delegate (ks_sp_fop (state_of (au_do_open_sp sb s))))
    as Hopen.
  { intros sb s. by apply (au_do_open_sp_keeps keeps_delegate H1 H2 H3 sb s). }
  split; [|split; [done|split]].
  - intros [|[|[|[|i]]]] p Hi Hp Hd; try done; cbv in Hp; by simplify_eq.
  - intros σ tr σ' Hsteps.
    apply (steps_keeps keeps_delegate H1 H2 H3 _ _ _ Hsteps).
  - intros sb s Hinv Hret.
    destruct (au_do_open_sp_Ret_0 sb s Hret) as (s1 & t1 & _ & Hrun & Hnat).
    destruct (au_do_open_sp_native_ok s1 Hnat)
      as (hf & fn & _ & _ & _ & _ & Hinit & Hst & _).
    destruct (au_init_fop_sp_installs _ Hinit) as (i & Hi & Hfop & p & Hp & Hd).
    apply au_sp_index_range in Hi as [Hi _].
    pose proof (Hopen sb s Hinv) as Hfin.
    rewrite Hrun, state_of_pre, Hst in Hfin.
    exists i, p. rewrite Hrun, world_of_pre, state_of_pre.
    rewrite world_of_state_of, Hst, <- world_of_state_of.
    repeat split; [done..| | |]; by destruct (Hfin i p Hi Hp Hd) as (? & ? & ?).
Qed.

End TableExtras.

(** ** The spinlocks and the path without locks *)

Section Spin.

(** The block under the function-static lock, when it returns: with the
    flag set it changes nothing; with the flag clear it initialises the
    four spinlocks in index order and sets the flag. *)
Lemma au_init_fop_sp_first_locked_Ret s s' tr :
  au_init_fop_sp_first_locked s = (Ret tt, s', tr) ->
  ks_world s' = ks_world s /\
  slot_done (ks_sp_fop s') AuSp_FIFO /\
  ((slot_done (ks_sp_fop s) AuSp_FIFO /\ s' = s /\
    tr = [Lock spin_lock_static; Lock spin_unlock_static]) \/
   (~ slot_done (ks_sp_fop s) AuSp_FIFO /\
    tr = [Lock spin_lock_static; Spin_lock_init 0; Spin_lock_init 1;
          Spin_lock_init 2; Spin_lock_init 3; Lock spin_unlock_static] /\
    forall i, (i < AuSp_Last)%nat ->
      exists p, ks_sp_fop s' !! i = Some p /\ sp_spin p = true)).
Proof.
  destruct s as [w tbl]. unfold slot_done. cbn [ks_world ks_sp_fop].
  destruct tbl as [|[[] f0 l0] tbl]; [by cbv|..].
  { cbv. intros [= <- <-]. split; [done|]. split; [eauto|]. left. eauto. }
  destruct tbl as [|p1 [|p2 [|p3 tbl]]]; try (by cbv).
  cbv. intros [= <- <-]. split; [done|]. split; [eauto|]. right.
  split; [by intros (p & [= <-] & [=])|]. split; [done|].
  intros [|[|[|[|i]]]] Hi; try lia; eauto.
Qed.

Lemma au_init_fop_sp_locked_Ret i h s s' tr :
  au_init_fop_sp_locked i h s = (Ret tt, s', tr) ->
  slot_done (ks_sp_fop s') i /\
  ((s' = s /\ tr = [Lock (spin_lock_slot i); Lock (spin_unlock_slot i)]) \/
   (exists p fop,
      ks_sp_fop s !! i = Some p /\ sp_done p = false /\
      s' = {| ks_world := ks_world s;
              ks_sp_fop := <[i := {| sp_done := true;
                                     sp_fop := au_sp_fop_of fop;
                                     sp_spin := sp_spin p |}]>
                           (ks_sp_fop s) |} /\
      tr = [Lock (spin_lock_slot i); Fop_copy i; Lock (spin_unlock_slot i)])).
Proof.
  intros Hrun. split; [by eapply au_init_fop_sp_locked_sets|]. revert Hrun.
  unfold au_init_fop_sp_locked. mstep.
  destruct (ks_sp_fop s !! i) as [p|] eqn:Hi; [|done].
  destruct (sp_done p) eqn:Hd; cbn [negb]; mstep.
  { mdone. intros [= <- <-]. by left. }
  destruct h as [hf|]; [|done]. mstep.
  destruct (h_f_op hf) as [fop|]; [|done]. mstep. mdone.
  intros [= <- <-]. right. by exists p, fop.
Qed.

Lemma spin_ready_store tbl i p q :
  i <> AuSp_FIFO -> tbl !! i = Some p -> sp_spin q = sp_spin p ->
  spin_ready tbl -> spin_ready (<[i := q]> tbl).
Proof.
  intros Hi Hp Hq Hready (p0 & Hp0 & Hd0) j Hj.
  rewrite list_lookup_insert_ne in Hp0 by done.
  destruct (Hready ltac:(by exists p0) j Hj) as (pj & Hpj & Hs).
  destruct (decide (j = i)) as [->|Hne].
  - exists q. rewrite list_lookup_insert_eq by (by eapply lookup_lt_Some).
    split; [done|]. congruence.
  - exists pj. by rewrite list_lookup_insert_ne.
Qed.

(** One step keeps the spinlocks ready. *)
Lemma step_spin_ready σ tr σ' :
  step σ tr σ' -> spin_ready (sys_tbl σ) -> spin_ready (sys_tbl σ').
Proof.
  intros [k t p Hk Hpc Hp|k t s' tr' Hk Hpc Hrun|k t i p Hk Hpc Hi Hp
         |k t i s' tr' Hk Hpc Hi Hrun|k t i Hk Hpc Hi];
    cbn [put_task sys_tbl]; try done.
  - intros Hready.
    destruct (au_init_fop_sp_first_locked_Ret _ _ _ Hrun)
      as (_ & _ & [(_ & -> & _)|(_ & _ & Hall)]); [done|by intros _].
  - intros Hready. apply au_sp_index_range in Hi as [Hi _].
    destruct (au_init_fop_sp_locked_Ret _ _ _ _ _ Hrun)
      as (_ & [(-> & _)|(p & fop & Hp & _ & -> & _)]); [done|].
    by eapply spin_ready_store.
Qed.

(** One step keeps every task that is past the first block behind a set
    flag. *)
Lemma step_first_done σ tr σ' :
  step σ tr σ' -> first_done σ -> first_done σ'.
Proof.
  intros Hstep Hinv.
  pose proof (proj1 (step_table σ tr σ' 0%nat Hstep)) as Hfrozen.
  assert (forall k t, sys_tasks σ !! k = Some t ->
            past_first (t_pc t) = true ->
            slot_done (sys_tbl σ') AuSp_FIFO) as Hold.
  { intros k t Hk Hpc. eapply slot_done_frozen; [exact Hfrozen|]. eauto. }
  assert (forall (k : nat) t',
            (past_first (t_pc t') = true -> slot_done (sys_tbl σ') AuSp_FIFO) ->
            forall k0 t0, <[k:=t']> (sys_tasks σ) !! k0 = Some t0 ->
              past_first (t_pc t0) = true ->
              slot_done (sys_tbl σ') AuSp_FIFO) as Hput.
  { intros k t' Ht' k0 t0 Hk0.
    destruct (decide (k = k0)) as [->|Hne].
    - destruct (decide (k0 < length (sys_tasks σ))%nat) as [Hlt|Hge].
      + rewrite list_lookup_insert_eq in Hk0 by done.
        injection Hk0 as <-. exact Ht'.
      + rewrite list_insert_ge in Hk0 by lia. eapply Hold, Hk0.
    - rewrite list_lookup_insert_ne in Hk0 by done. eapply Hold, Hk0. }
  destruct Hstep as [k t p Hk Hpc Hp|k t s' tr' Hk Hpc Hrun|k t j p Hk Hpc Hj Hp
         |k t j s' tr' Hk Hpc Hj Hrun|k t j Hk Hpc Hj];
    intros k0 t0 Hk0; cbn [put_task sys_tbl sys_tasks] in *;
    (eapply (Hput k); [|exact Hk0]); cbn [at_pc t_pc]; intros Hpast.
  - destruct (sp_done p) eqn:Hd; [by exists p|done].
  - by destruct (au_init_fop_sp_first_locked_Ret _ _ _ Hrun) as (_ & ? & _).
  - eapply (Hold k t Hk). by rewrite Hpc.
  - eapply (Hold k t Hk). by rewrite Hpc.
  - eapply (Hold k t Hk). by rewrite Hpc.
Qed.

Lemma steps_spin_inv σ tr σ' :
  steps σ tr σ' ->
  (spin_ready (sys_tbl σ) -> spin_ready (sys_tbl σ')) /\
  (first_done σ -> first_done σ').
Proof.
  induction 1 as [σ|σ tr σ' tr' σ'' Hstep Hsteps [IH1 IH2]]; [done|].
  split; intros H.
  - by eapply IH1, step_spin_ready.
  - by eapply IH2, step_first_done.
Qed.

(** The number of times one step initialises the spinlock of slot [i]. *)
Lemma step_spin_count σ tr σ' i :
  step σ tr σ' ->
  let n := count_occ event_eq_dec tr (Spin_lock_init i) in
  (n <= 1)%nat /\
  (slot_done (sys_tbl σ) AuSp_FIFO -> n = 0%nat) /\
  (n = 1%nat -> (i < AuSp_Last)%nat /\ slot_done (sys_tbl σ') AuSp_FIFO).
Proof.
  intros [k t p Hk Hpc Hp|k t s' tr' Hk Hpc Hrun|k t j p Hk Hpc Hj Hp
         |k t j s' tr' Hk Hpc Hj Hrun|k t j Hk Hpc Hj] n; subst n;
    cbn [put_task sys_tbl]; try (cbn; split; [lia|split; [done|lia]]).
  - destruct (au_init_fop_sp_first_locked_Ret _ _ _ Hrun)
      as (_ & Hdone & [(_ & _ & ->)|(Hnot & -> & _)]).
    + cbn. split; [lia|split; [done|lia]].
    + destruct i as [|[|[|[|i]]]]; vm_compute count_occ;
        (split; [lia|]); (split; [done|]); intros ?;
        (split; [unfold AuSp_Last; lia|done]).
  - destruct (au_init_fop_sp_locked_Ret _ _ _ _ _ Hrun)
      as (_ & [(_ & ->)|(p & fop & _ & _ & _ & ->)]);
      rewrite !count_occ_cons_neq by discriminate; cbn;
      (split; [lia|split; [done|lia]]).
Qed.

End Spin.

Section SpinExtras.

(** X8. Over any interleaving of initialisations the spinlock of a slot is
    initialised at most once, and never once the flag of [au_sp_fop[0]] is set:
    a spinlock that may be held is never initialised again. When it is
    initialised the slot is one of the [AuSp_Last] slots and the flag is set
    afterwards. *)
Theorem spin_lock_init_once σ tr σ' i :
  steps σ tr σ' ->
  let n := count_occ event_eq_dec tr (Spin_lock_init i) in
  (n <= 1)%nat /\
  (slot_done (sys_tbl σ) AuSp_FIFO -> n = 0%nat) /\
  (n = 1%nat -> (i < AuSp_Last)%nat /\ slot_done (sys_tbl σ') AuSp_FIFO).
Proof.
  induction 1 as [σ|σ tr σ' tr' σ'' Hstep Hsteps IH]; intros n; subst n.
  - cbn. split; [lia|split; [done|lia]].
  - destruct (step_spin_count _ _ _ i Hstep) as (Hle & Hzero & Hone).
    destruct IH as (Hle' & Hzero' & Hone').
    pose proof (proj1 (steps_table _ _ _ 0%nat Hsteps)) as Hfrozen.
    rewrite count_occ_app.
    destruct (decide (count_occ event_eq_dec tr (Spin_lock_init i) = 1%nat))
      as [H1|H1].
    + destruct (Hone H1) as [Hi Hd]. rewrite (Hzero' Hd).
      split; [lia|]. split; [intros Hd0; specialize (Hzero Hd0); lia|].
      intros _. split; [done|]. by eapply slot_done_frozen.
    + split; [lia|]. split.
      * intros Hd0. rewrite (Hzero Hd0). apply Hzero'.
        eapply slot_done_frozen; [|exact Hd0].
        apply (step_table _ _ _ 0%nat Hstep).
      * intros Hn. apply Hone'. lia.
Qed.

(** X9. A task never finds an uninitialised spinlock: in every state reached by
    tasks that entered [au_init_fop_sp] at its top, on a table whose spinlocks
    are initialised if the flag of [au_sp_fop[0]] says so, a task that is about
    to test or to lock the slot of its access mode finds the spinlock of that
    slot initialised. *)
Theorem slot_spinlock_initialised σ tr σ' k t i :
  (forall k t, sys_tasks σ !! k = Some t -> t_pc t = At_first_check) ->
  spin_ready (sys_tbl σ) ->
  steps σ tr σ' ->
  sys_tasks σ' !! k = Some t ->
  t_pc t = At_check \/ t_pc t = At_lock ->
  au_sp_index (f_mode (t_world t)) = Some i ->
  exists p, sys_tbl σ' !! i = Some p /\ sp_spin p = true.
Proof.
  intros Hstart Hready Hsteps Hk Hpc Hi.
  destruct (steps_spin_inv _ _ _ Hsteps) as [Hr Hf].
  apply au_sp_index_range in Hi as [_ Hi].
  apply (Hr Hready); [|done].
  apply (Hf ltac:(intros k0 t0 Hk0 Hp0; by rewrite (Hstart _ _ Hk0) in Hp0)
           k t Hk).
  by destruct Hpc as [-> | ->].
Qed.

End SpinExtras.

Section FastPath.

Lemma au_init_fop_sp_done_run s i :
  slot_done (ks_sp_fop s) AuSp_FIFO ->
  au_sp_index (f_mode (ks_world s)) = Some i ->
  slot_done (ks_sp_fop s) i ->
  au_init_fop_sp s = (Ret tt, on_world (set_f_op (addr_au_sp_fop i)) s, []).
Proof.
  intros (p0 & Hp0 & Hd0) Hi (p & Hp & Hd).
  unfold au_init_fop_sp, au_init_fop_sp_first. mstep. rewrite Hp0, Hd0.
  cbn [negb]. mstep. rewrite Hi. mstep. rewrite Hp, Hd. cbn [negb]. mstep.
  by mdone.
Qed.

(** A run of [au_init_fop_sp] that returns leaves the flag of
    [au_sp_fop[0]] and the flag of the slot of its access mode set. *)
Lemma au_init_fop_sp_Ret_done s :
  ret_of (au_init_fop_sp s) = Ret tt ->
  exists i, au_sp_index (f_mode (ks_world s)) = Some i /\
    f_op (world_of (au_init_fop_sp s)) = Some (addr_au_sp_fop i) /\
    slot_done (ks_sp_fop (state_of (au_init_fop_sp s))) AuSp_FIFO /\
    slot_done (ks_sp_fop (state_of (au_init_fop_sp s))) i.
Proof.
  intros Hret.
  destruct (au_init_fop_sp_installs s Hret) as (i & Hi & Hfop & Hd).
  exists i. do 2 (split; [done|]). split; [|done].
  destruct (au_init_fop_sp s) as [[r s'] tr] eqn:Hrun.
  cbn [ret_of fst] in Hret. subst r.
  pose proof (au_init_fop_sp_steps s s' tr Hrun) as Hsteps.
  destruct (steps_spin_inv _ _ _ Hsteps) as [_ Hf].
  eapply (Hf ltac:(by intros [|k] t [= <-]) 0%nat); [reflexivity|done].
Qed.

(** X10. Once a file of an access mode has been through [au_init_fop_sp], every
    later file of that mode takes the path without locks: on any table the
    first one's table has grown into, [au_init_fop_sp] takes no lock, makes no
    store into the table and reads no handle -- it only stores in [file->f_op]
    the address the first file got. *)
Theorem au_init_fop_sp_fast_path s s2 :
  ret_of (au_init_fop_sp s) = Ret tt ->
  done_frozen (ks_sp_fop (state_of (au_init_fop_sp s))) (ks_sp_fop s2) ->
  au_sp_index (f_mode (ks_world s2)) = au_sp_index (f_mode (ks_world s)) ->
  exists i,
    f_op (world_of (au_init_fop_sp s)) = Some (addr_au_sp_fop i) /\
    au_init_fop_sp s2
    = (Ret tt, on_world (set_f_op (addr_au_sp_fop i)) s2, []).
Proof.
  intros Hret Hfrozen Hmode.
  destruct (au_init_fop_sp_Ret_done s Hret) as (i & Hi & Hfop & Hd0 & Hd).
  exists i. split; [done|].
  apply au_init_fop_sp_done_run; [|congruence|]; by eapply slot_done_frozen.
Qed.

(** The first block of [au_init_fop_sp] on a table of [AuSp_Last] slots
    returns, touches nothing but the table, and leaves the flag and the
    operation table of every slot but [AuSp_FIFO] as they were. *)
Lemma au_init_fop_sp_first_run s :
  length (ks_sp_fop s) = AuSp_Last ->
  exists tbl tr,
    au_init_fop_sp_first s
    = (Ret tt, {| ks_world := ks_world s; ks_sp_fop := tbl |}, tr) /\
    length tbl = AuSp_Last /\
    forall i p, i <> AuSp_FIFO -> ks_sp_fop s !! i = Some p ->
      exists p', tbl !! i = Some p' /\ sp_done p' = sp_done p /\
                 sp_fop p' = sp_fop p.
Proof.
  destruct s as [w tbl]. cbn [ks_sp_fop ks_world]. intros Hlen.
  destruct tbl as [|[d0 f0 l0] [|p1 [|p2 [|p3 [|]]]]]; try done.
  destruct d0.
  - eexists _, _. split; [by cbv|]. split; [done|]. intros i p _ Hp. eauto.
  - eexists _, _. split; [by cbv|]. split; [done|].
    intros [|[|[|[|i]]]] p Hi Hp; try done; cbv in Hp; simplify_eq;
      eexists; (split; [by cbv|done]).
Qed.

(** X11. When [au_init_fop_sp] returns and when it faults. Without an access
    mode it reaches [BUG()]. With one, and the flag of the mode's slot set, it
    returns and leaves the slot's table alone, whether or not the file has a
    handle. With the flag clear it faults on a NULL pointer if the file has no
    handle in its start branch or the handle no operation table, and otherwise
    returns with the slot built from that table. *)
Theorem au_init_fop_sp_outcome s :
  length (ks_sp_fop s) = AuSp_Last ->
  let w := ks_world s in
  let r := au_init_fop_sp s in
  match au_sp_index (f_mode w) with
  | None => ret_of r = Crash BUG
  | Some i =>
      exists p, ks_sp_fop s !! i = Some p /\
      if sp_done p then
        ret_of r = Ret tt /\
        exists p', ks_sp_fop (state_of r) !! i = Some p' /\
                   sp_done p' = true /\ sp_fop p' = sp_fop p
      else
        match fi_hfile w !! fi_bstart w with
        | None => ret_of r = Crash NULL_deref
        | Some hf =>
            match h_f_op hf with
            | None => ret_of r = Crash NULL_deref
            | Some fop =>
                ret_of r = Ret tt /\
                exists p', ks_sp_fop (state_of r) !! i = Some p' /\
                           sp_done p' = true /\
                           sp_fop p' = au_sp_fop_of fop
            end
        end
  end.
Proof.
  intros Hlen w r. subst w r.
  destruct (au_init_fop_sp_first_run s Hlen)
    as (tbl & tr & Hfirst & Hlen1 & Hkeep).
  unfold au_init_fop_sp.
  rewrite (bind_Ret _ _ _ tt); rewrite Hfirst; [|done].
  rewrite ret_of_pre, state_of_pre. cbn [state_of fst snd].
  mstep. cbn [ks_world].
  destruct (au_sp_index (f_mode (ks_world s))) as [i|] eqn:Hi; [|done].
  destruct (au_sp_index_range _ _ Hi) as [Hne Hlt].
  destruct (lookup_lt_is_Some_2 (ks_sp_fop s) i ltac:(lia)) as [p Hp].
  exists p. split; [done|].
  destruct (Hkeep i p Hne Hp) as (p1 & Hp1 & Hd1 & Hf1).
  mstep. cbn [ks_sp_fop]. rewrite Hp1, Hd1.
  destruct (sp_done p) eqn:Hd; cbn [negb]; mstep.
  { mdone. split; [done|]. exists p1. repeat split; congruence. }
  unfold au_h_fptr, au_init_fop_sp_locked. mstep. cbn [ks_world ks_sp_fop].
  rewrite Hp1, Hd1. cbn [negb].
  destruct (fi_hfile (ks_world s) !! fi_bstart (ks_world s)) as [hf|];
    mstep; [|done].
  destruct (h_f_op hf) as [fop|]; mstep; [|done].
  mdone. split; [done|]. eexists. split.
  - rewrite list_lookup_insert_eq; [done|]. by eapply lookup_lt_Some.
  - done.
Qed.

End FastPath.

(** ** The lock discipline *)

Section Follows.

Lemma run_held_app h t1 t2 :
  run_held h (t1 ++ t2)
  = match run_held h t1 with
    | Some h' => run_held h' t2
    | None => None
    end.
Proof.
  revert h. induction t1 as [|e t1 IH]; intros h; cbn; [done|].
  by destruct (held_step h e).
Qed.

Lemma follows_ret {A} h (a : A) (Q : A -> held -> Prop) :
  Q a h -> follows h (ret a) Q.
Proof. intros HQ s. exists h. split; [done|]. by intros ? [= <-]. Qed.

Lemma follows_oops {A} h c (Q : A -> held -> Prop) : follows h (oops c) Q.
Proof. intros s. exists h. by split. Qed.

Lemma follows_gets {A} h (g : world -> A) (Q : A -> held -> Prop) :
  (forall a, Q a h) -> follows h (gets g) Q.
Proof. intros HQ s. exists h. split; [done|]. by intros ? [= <-]. Qed.

Lemma follows_deref {A} h (p : option A) (Q : A -> held -> Prop) :
  (forall a, Q a h) -> follows h (deref p) Q.
Proof.
  intros HQ. destruct p; [by apply follows_ret|apply follows_oops].
Qed.

Lemma follows_get_slot h i (Q : au_sp_fop -> held -> Prop) :
  (forall p, Q p h) -> follows h (get_slot i) Q.
Proof.
  intros HQ s. exists h. unfold get_slot.
  destruct (ks_sp_fop s !! i); (split; [done|]); [|done].
  by intros ? [= <-].
Qed.

Lemma follows_set_slot h i p (Q : unit -> held -> Prop) :
  Q tt h -> follows h (set_slot i p) Q.
Proof. intros HQ s. exists h. split; [done|]. by intros []. Qed.

Lemma follows_tick h e h' (Q : unit -> held -> Prop) :
  held_step h e = Some h' -> Q tt h' -> follows h (tick e) Q.
Proof.
  intros He HQ s. exists h'. cbn. rewrite He. split; [done|]. by intros [].
Qed.

Lemma follows_call h e g h' (Q : Z -> held -> Prop) :
  held_step h e = Some h' -> (forall a, Q a h') -> follows h (call e g) Q.
Proof. intros He HQ s. exists h'. cbn. rewrite He. by split. Qed.

Lemma follows_call_void h e g h' (Q : unit -> held -> Prop) :
  held_step h e = Some h' -> Q tt h' -> follows h (call_void e g) Q.
Proof.
  intros He HQ s. exists h'. cbn. rewrite He. split; [done|]. by intros [].
Qed.

Lemma follows_bind {A B} h (m : M A) (f : A -> M B) Q Q' :
  follows h m Q -> (forall a h', Q a h' -> follows h' (f a) Q') ->
  follows h (bind m f) Q'.
Proof.
  intros Hm Hf s. destruct (Hm s) as (h1 & Hrun & HQ).
  destruct (ret_of (m s)) as [a|c] eqn:Hr.
  - rewrite (bind_Ret _ _ _ a Hr).
    destruct (Hf a h1 (HQ a eq_refl) (state_of (m s))) as (h2 & Hrun2 & HQ2).
    exists h2. rewrite trace_of_pre, ret_of_pre, run_held_app, Hrun.
    by split.
  - rewrite (bind_Crash _ _ _ c Hr). exists h1. by split.
Qed.

Lemma follows_post {A} h (m : M A) (Q Q' : A -> held -> Prop) :
  follows h m Q -> (forall a h', Q a h' -> Q' a h') -> follows h m Q'.
Proof.
  intros Hm HQ s. destruct (Hm s) as (h1 & Hrun & H1). exists h1.
  split; [done|]. auto.
Qed.

End Follows.

(** One call that leaves what is held as it is. *)
Ltac follows_step :=
  first
    [ apply follows_ret; reflexivity
    | apply follows_oops
    | apply follows_gets; intros; reflexivity
    | apply follows_deref; intros; reflexivity
    | apply follows_get_slot; intros; reflexivity
    | apply follows_set_slot; reflexivity
    | eapply follows_tick; [reflexivity|reflexivity]
    | eapply follows_call; [reflexivity|intros; reflexivity]
    | eapply follows_call_void; [reflexivity|reflexivity] ].

(** [x <- m ;; k] where [m] is such a call. *)
Ltac follows_bind_eq :=
  eapply (follows_bind _ _ _ (fun _ h' => h' = _)).

(** [x <- m ;; k] where [m] is such a call. *)
Ltac follows_next :=
  follows_bind_eq; [follows_step|]; cbv beta; intros ? ? ->.

Ltac follows_as a :=
  follows_bind_eq; [follows_step|]; cbv beta; intros a ? ->.

Section Locks.
Context `{X : Collaborators}.

Lemma au_sbr_balanced h sb b : balanced h (au_sbr sb b).
Proof.
  unfold au_sbr. destruct (b <? 0); [apply follows_oops|].
  destruct (sb !! Z.to_nat b); [by apply follows_ret|apply follows_oops].
Qed.

Lemma scan_bcpup_balanced h fuel sb i bend :
  balanced h (scan_bcpup fuel sb i bend).
Proof.
  revert i. induction fuel as [|n IH]; intros i; simpl.
  - destruct (i <? bend); [apply follows_oops|by apply follows_ret].
  - destruct (i <? bend); [|by apply follows_ret].
    eapply follows_bind; [apply au_sbr_balanced|]. intros br h' ->.
    destruct (negb (au_br_rdonly br)); [by apply follows_ret|apply IH].
Qed.

(** [au_cpup_sp], entered with the dentry write-locked. *)
Lemma au_cpup_sp_balanced b :
  balanced (set_di open_entry Held_write) (au_cpup_sp b).
Proof.
  unfold au_cpup_sp.
  do 2 follows_next. follows_as hp.
  follows_bind_eq; [destruct hp; follows_step|]. cbv beta. intros e h ->.
  follows_bind_eq.
  - destruct (negb (e =? 0)); [follows_step|].
    follows_as e2. destruct (e2 =? 0); [|follows_step].
    do 2 follows_next. follows_step.
  - cbv beta. intros e' h ->. do 2 follows_next. follows_step.
Qed.

Lemma au_do_open_sp_cpup_balanced sb :
  balanced open_entry (au_do_open_sp_cpup sb).
Proof.
  unfold au_do_open_sp_cpup. follows_next.
  eapply follows_bind; [apply au_sbr_balanced|]. intros br h ->.
  destruct (au_br_rdonly br); [|follows_step].
  eapply follows_bind; [apply scan_bcpup_balanced|]. intros bcpup h ->.
  destruct (0 <=? bcpup); [|follows_step].
  do 2 follows_next. follows_as cur.
  follows_bind_eq;
    [destruct (bcpup <? cur); [apply au_cpup_sp_balanced|follows_step]|].
  cbv beta. intros e h ->. follows_next. follows_step.
Qed.

Lemma spin_lock_init_all_balanced l :
  balanced (set_static open_entry true) (spin_lock_init_all l).
Proof.
  induction l as [|i l IH]; simpl; [follows_step|].
  do 3 follows_next. apply IH.
Qed.

Lemma au_init_fop_sp_balanced : balanced open_entry au_init_fop_sp.
Proof.
  unfold au_init_fop_sp.
  follows_bind_eq.
  { unfold au_init_fop_sp_first. follows_as p.
    destruct (negb (sp_done p)); [|follows_step].
    unfold au_init_fop_sp_first_locked. follows_next. follows_as p'.
    follows_bind_eq.
    - destruct (negb (sp_done p')); [|follows_step].
      follows_bind_eq; [apply spin_lock_init_all_balanced|].
      cbv beta. intros _ h ->. follows_next. follows_step.
    - cbv beta. intros _ h ->. follows_step. }
  cbv beta. intros _ h ->. follows_as mode.
  destruct (au_sp_index mode) as [i|]; [|follows_step].
  follows_as p. follows_bind_eq.
  - destruct (negb (sp_done p)); [|follows_step].
    unfold au_h_fptr, au_init_fop_sp_locked. do 3 follows_next. follows_as p'.
    follows_bind_eq.
    + destruct (negb (sp_done p')); [|follows_step].
      do 3 follows_next.
      eapply follows_tick; [cbn; by rewrite Nat.eqb_refl|reflexivity].
    + cbv beta. intros _ h ->.
      eapply follows_tick; [cbn; by rewrite Nat.eqb_refl|reflexivity].
  - cbv beta. intros _ h ->. intros s. exists open_entry. split; [done|].
    by intros [].
Qed.

Lemma au_do_open_sp_native_balanced :
  balanced open_entry au_do_open_sp_native.
Proof.
  unfold au_do_open_sp_native, au_h_fptr. follows_as err.
  destruct (negb (err =? 0)); [follows_step|].
  do 6 follows_next. follows_as fn. follows_as err'. do 3 follows_next.
  destruct (err' =? 0).
  - follows_bind_eq; [apply au_init_fop_sp_balanced|].
    cbv beta. intros _ h ->. follows_step.
  - follows_next. follows_step.
Qed.

(** X12. [au_do_open_sp], entered with the superblock read-locked, the file
    write-locked and the dentry read-locked, takes no lock it holds and drops
    no lock it does not hold; it makes each of its calls holding what
    [called_under] says -- the branch's [open] with none of the three locks,
    the copy-up steps with the dentry and its parent write-locked, each store
    into the table under the spinlock that guards it; and whenever it returns,
    with 0 or with an error, it holds exactly what it was entered with. *)
Theorem au_do_open_sp_locks sb s :
  exists h,
    run_held open_entry (trace_of (au_do_open_sp sb s)) = Some h /\
    forall e, ret_of (au_do_open_sp sb s) = Ret e -> h = open_entry.
Proof.
  revert s. change (balanced open_entry (au_do_open_sp sb)).
  unfold au_do_open_sp.
  follows_bind_eq; [apply au_do_open_sp_cpup_balanced|].
  cbv beta. intros e h ->.
  destruct (negb (e =? 0)); [follows_step|apply au_do_open_sp_native_balanced].
Qed.

(** X13. The three delegating entry points are entered holding none of the aufs
    locks and return holding none; the file and superblock locks they take to
    find the branch's handle are dropped before the branch's entry point is
    called, and nothing is held across that call, the timestamp refresh or
    [aufs_release_nondir]. *)
Theorem aufs_sp_delegates_locks sb kio s :
  (exists h,
     run_held nothing_held (trace_of (aufs_aio_read_sp sb kio s)) = Some h /\
     forall n, ret_of (aufs_aio_read_sp sb kio s) = Ret n ->
       h = nothing_held) /\
  (exists h,
     run_held nothing_held (trace_of (aufs_aio_write_sp sb kio s)) = Some h /\
     forall n, ret_of (aufs_aio_write_sp sb kio s) = Ret n ->
       h = nothing_held) /\
  (exists h,
     run_held nothing_held (trace_of (aufs_release_sp s)) = Some h /\
     forall n, ret_of (aufs_release_sp s) = Ret n -> h = nothing_held).
Proof.
  split; [|split]; revert s.
  - change (balanced nothing_held (aufs_aio_read_sp sb kio)).
    unfold aufs_aio_read_sp, au_h_fptr. do 2 follows_next. follows_as b.
    do 2 follows_next.
    eapply follows_bind; [apply au_sbr_balanced|]. cbv beta. intros br h ->.
    do 4 follows_next. follows_as err.
    follows_bind_eq;
      [destruct (_ && _); follows_step|]. cbv beta. intros _ h ->.
    follows_step.
  - change (balanced nothing_held (aufs_aio_write_sp sb kio)).
    unfold aufs_aio_write_sp, au_h_fptr. do 2 follows_next. follows_as b.
    do 2 follows_next.
    eapply follows_bind; [apply au_sbr_balanced|]. cbv beta. intros br h ->.
    do 4 follows_next. follows_as err.
    follows_bind_eq;
      [destruct (_ && _); follows_step|]. cbv beta. intros _ h ->.
    follows_step.
  - change (balanced nothing_held aufs_release_sp).
    unfold aufs_release_sp, au_h_fptr. do 8 follows_next. follows_step.
Qed.

End Locks.

(** ** What the built table can serve *)

Section Serves.
Context `{X : Collaborators}.

(** X14. The table [au_init_fop_sp] builds from a branch's table offers the
    delegating read (write) exactly when a delegated read (write) on a file
    that branch table serves returns instead of faulting on a NULL entry. It
    offers the delegating release always; a delegated release returns exactly
    when the branch's table has a release entry, and otherwise faults on the
    NULL entry once the file lock is dropped, before [aufs_release_nondir] is
    reached. *)
Theorem au_sp_fop_of_serves sb kio (s : kstate) br hf fop :
  let w := ks_world s in
  0 <= fi_bstart w ->
  sb !! Z.to_nat (fi_bstart w) = Some br ->
  fi_hfile w !! fi_bstart w = Some hf ->
  h_f_op hf = Some fop ->
  (fo_aio_read (au_sp_fop_of fop) = Some addr_aufs_aio_read_sp <->
     exists n, ret_of (aufs_aio_read_sp sb kio s) = Ret n) /\
  (fo_aio_write (au_sp_fop_of fop) = Some addr_aufs_aio_write_sp <->
     exists n, ret_of (aufs_aio_write_sp sb kio s) = Ret n) /\
  fo_release (au_sp_fop_of fop) = Some addr_aufs_release_sp /\
  (is_Some (fo_release fop) <->
     exists n, ret_of (aufs_release_sp s) = Ret n) /\
  (fo_release fop = None ->
     aufs_release_sp s
     = (Crash NULL_deref, s, [Lock fi_read_lock; Lock fi_read_unlock])).
Proof.
  intros w H0 Hbr Hh Hop. subst w.
  split; [|split; [|split; [done|split]]].
  - unfold aufs_aio_read_sp, au_h_fptr. mstep.
    rewrite (bind_au_sbr _ _ br) by done. mstep.
    rewrite Hh. cbv iota. mstep. rewrite Hop. cbv iota. mstep. cbn.
    destruct (fo_aio_read fop) as [fn|]; cbv iota; mstep.
    + split; [intros _|done].
      destruct (_ && _); mstep; mdone; eauto.
    + mdone. split; [done|]. by intros [n [=]].
  - unfold aufs_aio_write_sp, au_h_fptr. mstep.
    rewrite (bind_au_sbr _ _ br) by done. mstep.
    rewrite Hh. cbv iota. mstep. rewrite Hop. cbv iota. mstep. cbn.
    destruct (fo_aio_write fop) as [fn|]; cbv iota; mstep.
    + split; [intros _|done].
      destruct (_ && _); mstep; mdone; eauto.
    + mdone. split; [done|]. by intros [n [=]].
  - unfold aufs_release_sp, au_h_fptr. mstep.
    rewrite Hh. cbv iota. mstep. rewrite Hop. cbv iota. mstep.
    destruct (fo_release fop) as [fn|]; cbv iota; mstep; mdone.
    + split; [eauto|done].
    + split; [by intros [? [=]]|by intros [n [=]]].
  - intros Hrel. unfold aufs_release_sp, au_h_fptr. mstep.
    rewrite Hh. cbv iota. mstep. rewrite Hop. cbv iota. mstep.
    rewrite Hrel. cbv iota. mstep. by mdone.
Qed.

End Serves.

Section Witnesses.

(** The reference environment meets the contract, whatever the oracle. *)
Lemma model_contract o : spec_contract (model o).
Proof.
  split; cbn.
  - intros b w. by destruct (o_cpup_dirs o =? 0).
  - done.
  - done.
  - intros b w. destruct (o_cpup_simple o =? 0) eqn:E; [done|]. cbn. lia.
  - intros b w. destruct (o_cpup_simple o =? 0) eqn:E; [done|]. done.
  - intros b w. by destruct (o_cpup_simple o =? 0).
  - intros w. destruct (o_open_nondir o =? 0) eqn:E; cbn; [|lia].
    intros _. split; [done|]. split; [done|].
    rewrite lookup_singleton_eq. eauto.
  - done.
Qed.

Lemma model_quiet o : quiet_relock (model o).
Proof. by intros w. Qed.

Lemma rw_ro_start_rdonly o mode :
  start_rdonly (X:=model o) rw_ro (ks_world (fifo_in_lower mode)).
Proof. split; [done|]. eexists. split; reflexivity. Qed.

Lemma rw_ro_first_writable o mode :
  first_writable (X:=model o) rw_ro (d_bstart (ks_world (fifo_in_lower mode))) 0.
Proof.
  split; [done|]. split; [eexists; split; reflexivity|].
  intros j br Hj. lia.
Qed.

(** C1 at the scenario of the specification: a pipe in the lower, read-only
    branch, opened for writing under a writable upper branch. *)
Lemma au_do_open_sp_first_writable_witness :
  let X := model all_ok in
  let s := fifo_in_lower FMODE_WRITE in
  let r := @au_do_open_sp X rw_ro s in
  spec_contract X /\ start_rdonly rw_ro (ks_world s) /\
  first_writable rw_ro (d_bstart (ks_world s)) 0 /\
  ret_of r = Ret 0 /\
  fi_bstart (world_of r) = d_bstart (world_of r) /\
  d_bstart (world_of r) <= 0.
Proof.
  intros X s r.
  pose proof (model_contract all_ok) as HX.
  pose proof (rw_ro_start_rdonly all_ok FMODE_WRITE) as Hs.
  pose proof (rw_ro_first_writable all_ok FMODE_WRITE) as Hf.
  split; [exact HX|]. split; [exact Hs|]. split; [exact Hf|].
  assert (ret_of r = Ret 0) as Hret by reflexivity.
  split; [exact Hret|].
  destruct (@au_do_open_sp_first_writable X rw_ro s HX Hs) as (_ & _ & H).
  destruct (H 0 Hf) as (_ & _ & Hok).
  destruct (Hok Hret) as (H1 & H2 & _). split; [exact H1|exact H2].
Defined.

(** C2 at a pipe opened in a writable branch: a write of 5 bytes. *)
Lemma aufs_aio_sp_timestamps_witness :
  let X := model io_5 in
  let s := opened_at 0 pipe_h_file in
  let r := @aufs_aio_write_sp X rw_ro kio_0 s in
  ret_of r = Ret 5 /\
  (In (Call_file_update_time 0) (trace_of r) <->
   0 < 5 /\ au_br_writable (br_perm {| br_id := 0; br_perm := 1 |}) = true).
Proof.
  intros X s r.
  destruct (@aufs_aio_sp_timestamps X rw_ro kio_0 s
              {| br_id := 0; br_perm := 1 |} pipe_h_file pipe_rdwr_fops)
    as [Hw _]; [done|reflexivity|reflexivity|reflexivity|].
  destruct (Hw (addr_native 2) eq_refl) as (H1 & _ & H2).
  split; [exact H1|exact H2].
Defined.

(** C3 at two read-only branches. *)
Lemma au_do_open_sp_erofs_witness :
  let X := model all_ok in
  let s := fifo_in_lower FMODE_WRITE in
  @au_do_open_sp X ro_ro s = (Ret (- EROFS), s, []) /\
  (fi_hfile (ks_world s) = ∅ ->
   fi_hfile (world_of (@au_do_open_sp X ro_ro s)) = ∅).
Proof.
  intros X s. apply (@au_do_open_sp_erofs X ro_ro s).
  - split; [done|]. eexists. split; reflexivity.
  - intros j br Hj Hbr. cbn in Hj.
    assert (j = 0) as -> by lia. cbn in Hbr. by inversion Hbr.
Defined.

(** C4 at the scenario of the specification, with a pin that is denied. *)
Lemma au_do_open_sp_cpup_failure_witness :
  let X := model pin_denied in
  let s := fifo_in_lower FMODE_WRITE in
  let r := @au_do_open_sp X rw_ro s in
  ret_of r = Ret (-13) /\
  ~ In Call_au_do_open_nondir (trace_of r) /\
  d_bstart (world_of r) = 1 /\
  (In (Call_au_cpup_dirs 0) (trace_of (@au_do_open_sp X rw_ro (state_of r))) \/
   In (Call_au_pin 0) (trace_of (@au_do_open_sp X rw_ro (state_of r)))).
Proof.
  intros X s r.
  assert (cpup_step_fails (X:=X) 0 (di_relock (ks_world s)) (-13)) as Hfail.
  { split; [done|].
    exists (ks_world s), ([] ++ [Call_au_pin 0]).
    apply (cpup_pin_failed (X:=X) 0 (ks_world s) (ks_world s) []);
      [|done].
    left. split; [|done]. eexists. reflexivity. }
  destruct (@au_do_open_sp_cpup_failure X rw_ro s 0 (-13)
              (model_contract pin_denied) (model_quiet pin_denied)
              (rw_ro_start_rdonly pin_denied FMODE_WRITE)
              (rw_ro_first_writable pin_denied FMODE_WRITE) Hfail)
    as (H1 & H2 & _ & H3 & _ & _ & H4).
  split; [exact H1|]. split; [exact H2|]. split; [exact H3|exact H4].
Defined.

(** C5 at the scenario of the specification: the open copies the pipe up
    to branch 0 with one call of the simple copy-up, and a second open of
    the dentry it leaves makes no copy-up call. *)
Lemma au_do_open_sp_cpup_once_witness :
  let X := model all_ok in
  let s := fifo_in_lower FMODE_WRITE in
  let r := @au_do_open_sp X rw_ro s in
  count_occ event_eq_dec (trace_of r) (Call_au_sio_cpup_simple 0) = 1%nat /\
  In (Call_au_pin 0) (trace_of r) /\
  d_bstart (world_of r) = 0 /\
  forall ev, In ev (trace_of (@au_do_open_sp X rw_ro (state_of r))) ->
    cpup_call ev = None.
Proof.
  intros X s r.
  pose proof (rw_ro_start_rdonly all_ok FMODE_WRITE) as Hs.
  pose proof (rw_ro_first_writable all_ok FMODE_WRITE) as Hf.
  destruct (@au_do_open_sp_cpup_once X rw_ro s)
    as (_ & _ & _ & Hcount & Hsecond & Hcontract).
  assert (0 < d_bstart (di_relock (ks_world s))) as Hlt by reflexivity.
  destruct (Hcontract (model_contract all_ok) 0 Hs Hf Hlt eq_refl)
    as (_ & Hmoved & _).
  split; [|split; [|split; [exact Hmoved|]]].
  - apply (proj2 (Hcount 0)). split; [exact Hs|]. split; [exact Hf|].
    split; [exact Hlt|]. exists (ks_world s), [].
    split; [|reflexivity]. left. split; [|done]. eexists. reflexivity.
  - vm_compute. do 4 right. by left.
  - intros ev Hin. apply (Hsecond 0 (state_of r) Hf Hmoved ev Hin).
Defined.

(** C7 at an opened pipe whose native release fails with 5. *)
Lemma aufs_release_sp_always_tears_down_witness :
  let X := model io_5 in
  let s := opened_at 0 pipe_h_file in
  let r := @aufs_release_sp X s in
  ret_of r = Ret 5 /\
  trace_of r = [Lock fi_read_lock; Lock fi_read_unlock;
                Call_h (addr_native 3) (Args_release Aufs_file);
                Call_aufs_release_nondir] /\
  (forall fn b, ~ In (Call_h fn (Args_release (Branch_file b))) (trace_of r)) /\
  fi_hfile (world_of r) = ∅.
Proof.
  intros X s r.
  destruct (@aufs_release_sp_always_tears_down X s pipe_h_file
              pipe_rdwr_fops (addr_native 3) eq_refl eq_refl eq_refl)
    as (H1 & H2 & _ & H3 & H4 & _).
  split; [exact H1|]. split; [exact H2|]. split; [exact H3|].
  unfold r. rewrite H4. reflexivity.
Defined.

End Witnesses.

Section MoreWitnesses.

(** A denied pin: the open fails with -EACCES and the table is as it was. *)
Lemma au_do_open_sp_failed_keeps_table_witness :
  let X := model pin_denied in
  let s := fifo_in_lower FMODE_WRITE in
  ret_of (@au_do_open_sp X rw_ro s) = Ret (-13) /\
  ks_sp_fop (state_of (@au_do_open_sp X rw_ro s)) = ks_sp_fop s /\
  Forall (fun ev => ~ init_event ev) (trace_of (@au_do_open_sp X rw_ro s)).
Proof.
  intros X s. split; [reflexivity|].
  apply (@au_do_open_sp_failed_keeps_table X rw_ro s (-13));
    [reflexivity|lia].
Defined.

(** The scenario of the specification: the native open is called once,
    between the unlocks and the locks. *)
Lemma au_do_open_sp_native_open_unlocked_witness :
  let X := model all_ok in
  let s := fifo_in_lower FMODE_WRITE in
  In (Call_h (addr_native 0) (Args_open Aufs_file))
     (trace_of (@au_do_open_sp X rw_ro s)) /\
  exists t1 t2,
    trace_of (@au_do_open_sp X rw_ro s)
    = t1 ++ [Call_au_do_open_nondir; Lock di_read_unlock;
             Lock fi_write_unlock; Lock si_read_unlock;
             Call_h (addr_native 0) (Args_open Aufs_file);
             Lock si_noflush_read_lock; Lock fi_write_lock;
             Lock di_read_lock_child] ++ t2 /\
    (forall fn' a', ~ In (Call_h fn' a') t1) /\
    (forall fn' a', ~ In (Call_h fn' a') t2).
Proof.
  intros X s.
  assert (In (Call_h (addr_native 0) (Args_open Aufs_file))
            (trace_of (@au_do_open_sp X rw_ro s))) as Hin.
  { vm_compute. do 14 right. by left. }
  split; [exact Hin|].
  exact (proj2 (@au_do_open_sp_native_open_unlocked X rw_ro s _ _ Hin)).
Defined.

(** A third branch under the start branch changes nothing. *)
Lemma au_do_open_sp_ignores_lower_witness :
  let X := model all_ok in
  let s := fifo_in_lower FMODE_WRITE in
  @au_do_open_sp X rw_ro s = @au_do_open_sp X rw_ro_rw s.
Proof.
  intros X s. apply (@au_do_open_sp_ignores_lower X rw_ro rw_ro_rw s).
  intros j Hj. cbn in Hj.
  assert (j = 0 \/ j = 1) as [-> | ->] by lia; reflexivity.
Defined.

(** A pipe opened for writing on the static table: the spinlock of its
    slot is initialised once. *)
Lemma spin_lock_init_once_witness :
  exists tr σ',
    steps one_writer tr σ' /\
    count_occ event_eq_dec tr (Spin_lock_init AuSp_FIFO_W) = 1%nat /\
    slot_done (sys_tbl σ') AuSp_FIFO.
Proof.
  destruct (au_init_fop_sp write_only_open) as [[r s'] tr] eqn:Hrun.
  assert (r = Ret tt) as -> by (by vm_compute in Hrun; simplify_eq).
  exists tr. eexists.
  pose proof (au_init_fop_sp_steps _ _ _ Hrun) as Hsteps.
  split; [exact Hsteps|].
  destruct (spin_lock_init_once _ _ _ AuSp_FIFO_W Hsteps) as (_ & _ & Hone).
  assert (count_occ event_eq_dec tr (Spin_lock_init AuSp_FIFO_W) = 1%nat)
    as Hc by (by vm_compute in Hrun; simplify_eq).
  split; [exact Hc|]. exact (proj2 (Hone Hc)).
Defined.

(** The writer of [one_writer], stopped before the spinlock of its slot:
    the spinlock is initialised. *)
Lemma slot_spinlock_initialised_witness :
  exists tr σ' t p,
    steps one_writer tr σ' /\
    sys_tasks σ' !! 0%nat = Some t /\ t_pc t = At_lock /\
    sys_tbl σ' !! AuSp_FIFO_W = Some p /\ sp_spin p = true.
Proof.
  assert (exists tr σ' t,
            steps one_writer tr σ' /\
            sys_tasks σ' !! 0%nat = Some t /\ t_pc t = At_lock /\
            t_world t = ks_world write_only_open) as (tr & σ' & t & Hs & Ht & Hpc & Hw).
  { eexists _, _, _. split; [|split; [|split]].
    - eapply steps_step;
        [eapply (step_first_check _ 0%nat); reflexivity|].
      eapply steps_step;
        [eapply (step_first_locked _ 0%nat); reflexivity|].
      eapply steps_step;
        [eapply (step_check _ 0%nat); reflexivity|].
      apply steps_refl.
    - reflexivity.
    - reflexivity.
    - reflexivity. }
  destruct (slot_spinlock_initialised one_writer tr σ' 0%nat t AuSp_FIFO_W)
    as (p & Hp & Hspin).
  - intros [|k] t0 [= <-]. reflexivity.
  - intros (p & [= <-] & [=]).
  - exact Hs.
  - exact Ht.
  - right. exact Hpc.
  - rewrite Hw. reflexivity.
  - exists tr, σ', t, p. repeat split; assumption.
Defined.

(** After [write_only_open], a second file opened for writing that has no
    handle goes through without a lock. *)
Lemma au_init_fop_sp_fast_path_witness :
  au_init_fop_sp second_writer
  = (Ret tt, on_world (set_f_op (addr_au_sp_fop AuSp_FIFO_W)) second_writer,
     []).
Proof.
  destruct (au_init_fop_sp_fast_path write_only_open second_writer)
    as (i & Hi & Hrun); [reflexivity|reflexivity|reflexivity|].
  assert (i = AuSp_FIFO_W) as ->
    by (vm_compute in Hi; injection Hi as <-; reflexivity).
  exact Hrun.
Defined.

(** [write_only_open]: the slot of write-only files is built from the
    pipe's write-only table. *)
Lemma au_init_fop_sp_outcome_witness :
  let r := au_init_fop_sp write_only_open in
  ret_of r = Ret tt /\
  exists p', ks_sp_fop (state_of r) !! AuSp_FIFO_W = Some p' /\
             sp_done p' = true /\
             sp_fop p' = au_sp_fop_of pipe_write_fops.
Proof.
  pose proof (au_init_fop_sp_outcome write_only_open eq_refl) as H.
  cbv zeta in H.
  change (au_sp_index (f_mode (ks_world write_only_open)))
    with (Some AuSp_FIFO_W) in H.
  cbv iota in H. destruct H as (p & Hp & H).
  assert (p = sp_zero) as -> by (cbv in Hp; injection Hp as <-; reflexivity).
  exact H.
Defined.

(** A pipe opened in a writable branch, with a table that has all three
    entries: read, write and release all return. *)
Lemma au_sp_fop_of_serves_witness :
  let X := model io_5 in
  let s := opened_at 0 pipe_h_file in
  (exists n, ret_of (@aufs_aio_read_sp X rw_ro kio_0 s) = Ret n) /\
  (exists n, ret_of (@aufs_aio_write_sp X rw_ro kio_0 s) = Ret n) /\
  (exists n, ret_of (@aufs_release_sp X s) = Ret n).
Proof.
  intros X s.
  destruct (@au_sp_fop_of_serves X rw_ro kio_0 s
              {| br_id := 0; br_perm := 1 |} pipe_h_file pipe_rdwr_fops)
    as (Hr & Hw & _ & Hrel & _); [done|reflexivity..|].
  split; [apply Hr; reflexivity|].
  split; [apply Hw; reflexivity|]. apply Hrel. by eexists.
Defined.

End MoreWitnesses.

(** ** The scenario of the specification, run *)

Section Scenario.

(** Opening the pipe of the lower branch for writing copies it up to
    branch 0, opens it there and installs the write-only table. *)
Example open_for_write_copies_up :
  let r := @au_do_open_sp (model all_ok) rw_ro (fifo_in_lower FMODE_WRITE) in
  ret_of r = Ret 0 /\
  trace_of r
  = [Lock di_read_unlock; Lock di_write_lock_child; Call_dget_parent;
     Lock di_write_lock_parent; Call_au_pin 0; Call_au_sio_cpup_simple 0;
     Call_au_unpin; Lock di_write_unlock; Call_dput; Lock di_downgrade_lock;
     Call_au_do_open_nondir; Lock di_read_unlock; Lock fi_write_unlock;
     Lock si_read_unlock; Call_h (addr_native 0) (Args_open Aufs_file);
     Lock si_noflush_read_lock; Lock fi_write_lock; Lock di_read_lock_child;
     Lock spin_lock_static; Spin_lock_init 0; Spin_lock_init 1;
     Spin_lock_init 2; Spin_lock_init 3; Lock spin_unlock_static;
     Lock (spin_lock_slot 2); Fop_copy 2; Lock (spin_unlock_slot 2)] /\
  d_bstart (world_of r) = 0 /\ fi_bstart (world_of r) = 0 /\
  f_op (world_of r) = Some (addr_au_sp_fop AuSp_FIFO_W).
Proof. by vm_compute. Qed.

(** Opening it again for reading, on the state the first open left, copies
    nothing up and builds the read-only table. *)
Example reopen_for_read_skips_copy_up :
  let r1 := @au_do_open_sp (model all_ok) rw_ro (fifo_in_lower FMODE_WRITE) in
  let s2 := {| ks_world :=
                 {| d_bstart := d_bstart (world_of r1);
                    d_hdentry := d_hdentry (world_of r1);
                    dp_hdentry := dp_hdentry (world_of r1);
                    f_mode := FMODE_READ; f_flags := 0; f_op := None;
                    fi_bstart := -1; fi_hfile := ∅ |};
               ks_sp_fop := ks_sp_fop (state_of r1) |} in
  let r2 := @au_do_open_sp (model all_ok) rw_ro s2 in
  ret_of r2 = Ret 0 /\
  trace_of r2
  = [Call_au_do_open_nondir; Lock di_read_unlock; Lock fi_write_unlock;
     Lock si_read_unlock; Call_h (addr_native 0) (Args_open Aufs_file);
     Lock si_noflush_read_lock; Lock fi_write_lock; Lock di_read_lock_child;
     Lock (spin_lock_slot 1); Fop_copy 1; Lock (spin_unlock_slot 1)] /\
  f_op (world_of r2) = Some (addr_au_sp_fop AuSp_FIFO_R).
Proof. by vm_compute. Qed.

(** A file with neither access flag that gets past the native open stops
    at [BUG()]. *)
Example open_without_access_mode_bugs :
  ret_of (@au_do_open_sp (model all_ok) rw_ro (fifo_in_lower 0)) = Crash BUG.
Proof. by vm_compute. Qed.

(** The discipline is a real constraint: a branch entry point called with
    the locks of [au_do_open_sp] held, a slot written without its
    spinlock, and a lock dropped twice are all refused. *)
Example run_held_refuses :
  run_held open_entry [Call_au_do_open_nondir;
                       Call_h (addr_native 0) (Args_open Aufs_file)] = None /\
  run_held open_entry [Fop_copy AuSp_FIFO_R] = None /\
  run_held open_entry [Lock di_read_unlock; Lock di_read_unlock] = None /\
  run_held open_entry [Lock di_read_unlock; Lock di_write_lock_child;
                       Call_dget_parent; Call_au_pin 0] = None.
Proof. by vm_compute. Qed.

End Scenario.
